(** * Bilingual termbase checker: text utilities, fuzzy patterns, table
      normalisation, pair extraction, consistency checks and diffing.

    A shallow embedding of the matching core shared by [pdf_spellcheck.py],
    [app_streamlit_plus.py], [app_streamlit_super.py],
    [app_streamlit_auto_plus.py] and [app_streamlit_auto_extract.py].

    Conventions.
    - A Python [str] is a list of Unicode code points ([N]).
    - Offsets into a text are [nat]; the window arithmetic of the checker is
      done in [Z], as Python's unbounded integers.
    - A pattern string handed to [re.compile] is represented by the regular
      expression it denotes ([regex]); the pieces the source appends to the
      pattern text become the corresponding sub-expressions.
    - Python's own Unicode case tables are not part of the repository; they
      are section variables. *)

From Stdlib Require Import Ascii String.
From Stdlib Require Import List NArith ZArith Bool Lia Arith.
From Stdlib Require Import Permutation.
Import ListNotations.

Set Implicit Arguments.

(** ** Strings *)

Definition char := N.
Bind Scope N_scope with char.
Definition str := list char.

Definition char_eqb (a b : char) : bool := N.eqb a b.

(** Source literals are written as UTF-8 text and decoded to code points. *)
Fixpoint utf8_decode (bs : list N) : str :=
  match bs with
  | [] => []
  | b0 :: r0 =>
      if N.ltb b0 0x80 then b0 :: utf8_decode r0
      else
        match r0 with
        | [] => []
        | b1 :: r1 =>
            if N.ltb b0 0xE0 then
              N.lor (N.shiftl (N.land b0 0x1F) 6) (N.land b1 0x3F) :: utf8_decode r1
            else
              match r1 with
              | [] => []
              | b2 :: r2 =>
                  if N.ltb b0 0xF0 then
                    N.lor (N.shiftl (N.land b0 0x0F) 12)
                      (N.lor (N.shiftl (N.land b1 0x3F) 6) (N.land b2 0x3F))
                    :: utf8_decode r2
                  else
                    match r2 with
                    | [] => []
                    | b3 :: r3 =>
                        N.lor (N.shiftl (N.land b0 0x07) 18)
                          (N.lor (N.shiftl (N.land b1 0x3F) 12)
                             (N.lor (N.shiftl (N.land b2 0x3F) 6) (N.land b3 0x3F)))
                        :: utf8_decode r3
                    end
              end
        end
  end.

Definition u (lit : string) : str :=
  utf8_decode (map N_of_ascii (list_ascii_of_string lit)).

Definition uc (lit : string) : char := hd 0%N (u lit).

Fixpoint str_eqb (a b : str) : bool :=
  match a, b with
  | [], [] => true
  | x :: a', y :: b' => char_eqb x y && str_eqb a' b'
  | _, _ => false
  end.

Definition in_range (lo hi c : char) : bool := (N.leb lo c && N.leb c hi)%bool.

(** [str.isspace] on one character, which is also the class [\s] of [re] on
    [str] patterns. *)
Definition isspace (c : char) : bool :=
  in_range 0x09 0x0D c || in_range 0x1C 0x20 c || char_eqb c 0x85
  || char_eqb c 0xA0 || char_eqb c 0x1680 || in_range 0x2000 0x200A c
  || char_eqb c 0x2028 || char_eqb c 0x2029 || char_eqb c 0x202F
  || char_eqb c 0x205F || char_eqb c 0x3000.

Fixpoint lstrip (s : str) : str :=
  match s with
  | c :: s' => if isspace c then lstrip s' else s
  | [] => []
  end.

Definition rstrip (s : str) : str := rev (lstrip (rev s)).

(** [s.strip()] *)
Definition strip (s : str) : str := rstrip (lstrip s).

(** [s[a:b]] for [0 <= a]. *)
Definition slice (s : str) (a b : nat) : str := firstn (b - a) (skipn a s).

(** [is_cjk] of [pdf_spellcheck.py], [app_streamlit_plus.py] and
    [app_streamlit_super.py]. *)
Definition is_cjk (ch : char) : bool :=
  in_range 0x4e00 0x9fff ch || in_range 0x3400 0x4dbf ch || in_range 0xf900 0xfaff ch.

(** A table cell as pandas hands it over: a string, a missing value, or
    another scalar (carried with its [str()] rendering). *)
Inductive cell : Type :=
| CStr (s : str)
| CNaN
| CNum (repr : str).

(** ** Regular expressions: the fragment of [re] the tools use *)

Inductive cset : Type :=
| CsSpace                       (* \s *)
| CsOne (c : char)              (* a literal inside [...] *)
| CsRange (lo hi : char)        (* a-b inside [...] *)
| CsUnion (a b : cset).

Fixpoint cset_mem (p : cset) (c : char) : bool :=
  match p with
  | CsSpace => isspace c
  | CsOne d => char_eqb c d
  | CsRange lo hi => in_range lo hi c
  | CsUnion a b => cset_mem a c || cset_mem b c
  end.

Inductive group : Type := Gzh | Gen | Gabbr.

Definition group_eqb (a b : group) : bool :=
  match a, b with
  | Gzh, Gzh | Gen, Gen | Gabbr, Gabbr => true
  | _, _ => false
  end.

Inductive regex : Type :=
| Eps
| Lit (c : char)                               (* an escaped literal *)
| Set_ (p : cset)                              (* \s or [...] once *)
| Rep (p : cset) (lo : nat) (hi : option nat)  (* greedy p{lo,hi}, p*, p+ *)
| Cat (r1 r2 : regex)
| Alt (r1 r2 : regex)                          (* r1|r2, r1 tried first *)
| Grp (g : group) (r : regex).                 (* (?P<g>r) *)

Definition star (p : cset) : regex := Rep p 0 None.
Definition plus (p : cset) : regex := Rep p 1 None.

(** [''.join(out)] of pattern pieces. *)
Definition join (out : list regex) : regex := fold_right Cat Eps out.

(** A match object: [m.start()], [m.end()] and the spans of the named
    groups. *)
Record rmatch : Type := mkMatch {
  m_start : nat;
  m_end : nat;
  m_groups : list (group * (nat * nat))
}.

Definition caps := list (group * (nat * nat)).

Section Regex.

(** [case_equiv a b]: under [re.IGNORECASE] the pattern literal [a] also
    matches the different character [b] (Python's case tables). *)
Variable case_equiv : char -> char -> bool.

(** [ic] is the [re.IGNORECASE] flag of the compiled pattern. *)
Variable ic : bool.

Definition lit_match (c x : char) : bool := char_eqb x c || (ic && case_equiv c x).

Definition may_take (hi : option nat) : bool :=
  match hi with Some 0 => false | _ => true end.

Definition dec_hi (hi : option nat) : option nat :=
  match hi with Some n => Some (pred n) | None => None end.

Section Backtrack.
Variable A : Type.

(** Greedy repetition of a one-character class: take as many as allowed,
    give back one at a time while the rest of the pattern fails. *)
Fixpoint rep (p : cset) (lo : nat) (hi : option nat) (s : str) (i : nat)
    (k : str -> nat -> option A) : option A :=
  let stop := if Nat.eqb lo 0 then k s i else None in
  match s with
  | x :: s' =>
      if cset_mem p x && may_take hi then
        match rep p (pred lo) (dec_hi hi) s' (S i) k with
        | Some r => Some r
        | None => stop
        end
      else stop
  | [] => stop
  end.

(** Backtracking matcher in continuation-passing style: [k] is the rest of
    the pattern. *)
Fixpoint mtch (r : regex) (s : str) (i : nat) (cs : caps)
    (k : str -> nat -> caps -> option A) : option A :=
  match r with
  | Eps => k s i cs
  | Lit c =>
      match s with
      | x :: s' => if lit_match c x then k s' (S i) cs else None
      | [] => None
      end
  | Set_ p =>
      match s with
      | x :: s' => if cset_mem p x then k s' (S i) cs else None
      | [] => None
      end
  | Rep p lo hi => rep p lo hi s i (fun s' i' => k s' i' cs)
  | Cat r1 r2 => mtch r1 s i cs (fun s' i' cs' => mtch r2 s' i' cs' k)
  | Alt r1 r2 =>
      match mtch r1 s i cs k with
      | Some x => Some x
      | None => mtch r2 s i cs k
      end
  | Grp g r => mtch r s i cs (fun s' i' cs' => k s' i' ((g, (i, i')) :: cs'))
  end.

End Backtrack.

(** One match attempt at offset [i] ([s] is the text from [i] on).  With
    [must_advance] an empty match is refused, as the scanner of [re] does
    right after an empty match. *)
Definition match_at (must_advance : bool) (r : regex) (s : str) (i : nat)
  : option rmatch :=
  mtch r s i []
    (fun _ j cs => if must_advance && Nat.eqb j i then None
                   else Some (mkMatch i j cs)).

(** [rx.finditer(text)]: leftmost matches, scanned left to right, not
    overlapping.  [skip] counts the characters of the previous match still
    to be passed over. *)
Fixpoint finditer_from (r : regex) (s : str) (i skip : nat) : list rmatch :=
  match skip with
  | S n =>
      match s with
      | _ :: s' => finditer_from r s' (S i) n
      | [] => []
      end
  | 0 =>
      match match_at false r s i with
      | None =>
          match s with
          | _ :: s' => finditer_from r s' (S i) 0
          | [] => []
          end
      | Some m =>
          if Nat.ltb i (m_end m) then
            m :: match s with
                 | _ :: s' => finditer_from r s' (S i) (m_end m - i - 1)
                 | [] => []
                 end
          else
            m :: match match_at true r s i with
                 | Some m' =>
                     m' :: match s with
                           | _ :: s' => finditer_from r s' (S i) (m_end m' - i - 1)
                           | [] => []
                           end
                 | None =>
                     match s with
                     | _ :: s' => finditer_from r s' (S i) 0
                     | [] => []
                     end
                 end
      end
  end.

Definition finditer (r : regex) (text : str) : list rmatch :=
  finditer_from r text 0 0.

(** [m.group(0)] and [m.group(name)]. *)
Definition group0 (text : str) (m : rmatch) : str := slice text (m_start m) (m_end m).

Fixpoint lookup_group (g : group) (cs : caps) : option (nat * nat) :=
  match cs with
  | (g', sp) :: cs' => if group_eqb g g' then Some sp else lookup_group g cs'
  | [] => None
  end.

Definition group_text (text : str) (m : rmatch) (g : group) : str :=
  match lookup_group g (m_groups m) with
  | Some (a, b) => slice text a b
  | None => []
  end.

(** [rx.sub(repl, text)] for a replacement without group references. *)
Fixpoint sub_loop (repl text : str) (last : nat) (ms : list rmatch) : str :=
  match ms with
  | m :: ms' => slice text last (m_start m) ++ repl ++ sub_loop repl text (m_end m) ms'
  | [] => skipn last text
  end.

Definition re_sub (r : regex) (repl text : str) : str :=
  sub_loop repl text 0 (finditer r text).

(** [rx.split(text)] for a pattern without groups. *)
Fixpoint split_loop (text : str) (last : nat) (ms : list rmatch) : list str :=
  match ms with
  | m :: ms' => slice text last (m_start m) :: split_loop text (m_end m) ms'
  | [] => [skipn last text]
  end.

Definition re_split (r : regex) (text : str) : list str :=
  split_loop text 0 (finditer r text).

(** [rx.findall(text)] for a pattern without capturing groups. *)
Definition re_findall (r : regex) (text : str) : list str :=
  map (group0 text) (finditer r text).

End Regex.

(** ** Exceptions *)

Inductive pyexc : Type := TypeError | KeyError | AttributeError | IndexError.

Inductive result (A : Type) : Type :=
| Ok (a : A)
| Raise (e : pyexc).
Arguments Ok {A} a.
Arguments Raise {A} e.

Definition bind {A B : Type} (x : result A) (f : A -> result B) : result B :=
  match x with
  | Ok a => f a
  | Raise e => Raise e
  end.

Notation "x <- c1 ;; c2" := (bind c1 (fun x => c2))
  (at level 61, c1 at next level, right associativity).

(** ** Term records and reports *)

(** One row of the term table after header mapping or normalisation: every
    field a string. *)
Record term : Type := mkTerm {
  en_canonical : str;
  zh_canonical : str;
  abbr : str;
  first_mention_style : str;
  variant : str            (* column "variant (錯誤用法)" *)
}.

(** A known-variant hit of [scan]. *)
Record hit : Type := mkHit {
  h_page : nat;
  h_variant : str;
  h_row : term;
  h_context : str
}.

Inductive issue_type : Type := MISSING_OR_WRONG_ZH | FIRST_MENTION_MISSING_ZH.

Record issue : Type := mkIssue {
  i_type : issue_type;
  i_page : nat;
  i_en_canonical : str;
  i_expected_zh : str;
  i_abbr : option str;     (* only first-mention records carry "abbr" *)
  i_context : str;
  i_ocr : bool             (* "ocr" of [app_streamlit_plus.py]; false elsewhere *)
}.

(** What [page.extract_text()] does on one page. *)
Inductive extraction : Type :=
| ExtractRaises
| ExtractReturns (t : option str).

(** [try: raw = page.extract_text() or "" / except: raw = ""] *)
Definition extract_or_empty (p : extraction) : str :=
  match p with
  | ExtractReturns (Some t) => t
  | ExtractReturns None => []
  | ExtractRaises => []
  end.

(** Python slicing [s[a:b]] with integer bounds. *)
Definition clamp_index (len i : Z) : Z :=
  if Z.ltb i 0 then Z.max 0 (i + len) else Z.min i len.

Definition py_slice (s : str) (a b : Z) : str :=
  let len := Z.of_nat (length s) in
  slice s (Z.to_nat (clamp_index len a)) (Z.to_nat (clamp_index len b)).

Definition str_eq_dec : forall a b : str, {a = b} + {a <> b} :=
  list_eq_dec N.eq_dec.

Definition str_in (x : str) (l : list str) : bool := existsb (str_eqb x) l.

Fixpoint startswith (s prefix : str) {struct prefix} : bool :=
  match prefix, s with
  | [], _ => true
  | p :: prefix', c :: s' => char_eqb c p && startswith s' prefix'
  | _ :: _, [] => false
  end.

Definition ZH_EN_ABBR : str := Eval vm_compute in u "ZH(EN;ABBR)".
Definition ZH_EN : str := Eval vm_compute in u "ZH(EN)".
Definition ZH_paren : str := Eval vm_compute in u "ZH(".

(** ** Text normaliser and fuzzy token patterns
    ([pdf_spellcheck.py]; the same code is in [app_streamlit_plus.py] and
    [app_streamlit_super.py], where [cjk_fuzzy_pattern] is called [cjk_pat]) *)

(** [s.replace(old, new)] for a one-character [old]. *)
Definition replace1 (old : char) (new : str) (s : str) : str :=
  flat_map (fun c => if char_eqb c old then new else [c]) s.

Definition hyphen : char := Eval vm_compute in uc "-".

Definition ZERO_WIDTH : str := [0x200b; 0x200c; 0x200d; 0xfeff; 0x00ad]%N.

Definition ws_run : regex := plus CsSpace.   (* \s+ *)

Section Tools.

Variable case_equiv : char -> char -> bool.

Definition normalize_text (s : str) : str :=
  match s with
  | [] => []
  | _ =>
      let s := replace1 (uc "（") (u "(") s in
      let s := replace1 (uc "）") (u ")") s in
      let s := replace1 (uc "；") (u ";") s in
      let s := replace1 (uc "，") (u ",") s in
      let s := replace1 (uc "。") (u ".") s in
      let s := replace1 (uc "、") (u "/") s in
      let s := fold_left (fun s ch => replace1 ch [] s) ZERO_WIDTH s in
      re_sub case_equiv false ws_run (u " ") s
  end.

(** One pass of the loop body of [cjk_fuzzy_pattern]: the piece appended to
    [out] for the character [ch]. *)
Definition cjk_piece (ch : char) : regex :=
  if isspace ch then plus CsSpace
  else if is_cjk ch then Cat (Lit ch) (star CsSpace)
  else if char_eqb ch hyphen then Cat (star CsSpace) (Cat (Lit hyphen) (star CsSpace))
  else Lit ch.

Definition cjk_fuzzy_pattern (token : str) : regex :=
  join (map cjk_piece (strip token)).

Definition cjk_pat := cjk_fuzzy_pattern.

(** The delimiter class of [split_variants]. *)
Definition variant_delims : cset :=
  Eval vm_compute in
  CsUnion (CsOne (uc ","))
    (CsUnion (CsOne 0xFF0C)
       (CsUnion (CsOne (uc ";")) (CsUnion (CsOne (uc "/")) (CsOne (uc "、"))))).

Definition nonempty (p : str) : bool :=
  match p with [] => false | _ => true end.

Definition split_variants (c : cell) : list str :=
  match c with
  | CStr s =>
      let parts := re_split case_equiv false (plus variant_delims) (strip s) in
      filter nonempty parts
  | _ => []
  end.

(** [s.lower()] (Python's Unicode tables). *)
Variable py_lower : str -> str.

(** The upper-case mapping of a code point outside ASCII. *)
Variable upper_nonascii : char -> str.

Definition upper_char (c : char) : str :=
  if N.ltb c 0x80 then [if in_range 0x61 0x7a c then (c - 32)%N else c]
  else upper_nonascii c.

(** [s.upper()]: every character mapped on its own. *)
Definition py_upper (s : str) : str := flat_map upper_char s.

(** *** Known-variant scan ([pdf_spellcheck.py]) *)

(** [load_patterns], from the rows of the header-mapped table on: one
    compiled pattern (flag [re.IGNORECASE]) per variant of every row. *)
Definition load_patterns (df : list term) : list (regex * str * term) :=
  flat_map (fun row =>
              map (fun v => (cjk_fuzzy_pattern v, v, row))
                  (split_variants (CStr (variant row))))
           df.

Definition context60 (norm : str) (m : rmatch) : str :=
  py_slice norm (Z.max 0 (Z.of_nat (m_start m) - 60)) (Z.of_nat (m_end m) + 60).

Definition page_hits (pno : nat) (norm : str) (pats : list (regex * str * term))
  : list hit :=
  flat_map (fun '(rx, v, row) =>
              map (fun m => mkHit pno v row (context60 norm m))
                  (finditer case_equiv true rx norm))
           pats.

(** The page loop of [scan]; [pno] is the number of the first page of
    [pages]. *)
Fixpoint scan_from (pno : nat) (pages : list extraction)
    (pats : list (regex * str * term)) : list hit :=
  match pages with
  | [] => []
  | page :: rest =>
      let raw := extract_or_empty page in
      let norm := normalize_text raw in
      page_hits pno norm pats ++ scan_from (S pno) rest pats
  end.

Definition scan (pages : list extraction) (pats : list (regex * str * term))
  : list hit :=
  scan_from 1 pages pats.

(** *** Text of the pages with OCR fallback
    ([app_streamlit_plus.py], [app_streamlit_super.py]) *)

Record ocr_options : Type := mkOcr {
  ocr_enabled : bool;
  ocr_thresh : nat;
  HAVE_OCR : bool
}.

(** [ocr pno]: the text the OCR engine reads on page [pno], [None] when the
    conversion yields no image or either step raises. *)
Section PagesText.
Variable opts : ocr_options.
Variable ocr : nat -> option str.

(** The text of one page and whether OCR supplied it. *)
Definition page_text (pno : nat) (page : extraction) : str * bool :=
  let raw := extract_or_empty page in
  let norm := normalize_text raw in
  if ocr_enabled opts && Nat.ltb (length norm) (ocr_thresh opts) && HAVE_OCR opts then
    match ocr pno with
    | Some txt => (normalize_text txt, true)
    | None => (norm, false)
    end
  else (norm, false).

Fixpoint pages_text_from (pno : nat) (pages : list extraction) : list str :=
  match pages with
  | [] => []
  | page :: rest => fst (page_text pno page) :: pages_text_from (S pno) rest
  end.

Definition pages_text (pages : list extraction) : list str :=
  pages_text_from 1 pages.

End PagesText.

(** *** Canonical-term patterns *)

(** [re.escape(en).replace(r'\-', r'\s*-\s*')], per character of [en]. *)
Definition en_piece (ch : char) : regex :=
  if char_eqb ch hyphen then Cat (star CsSpace) (Cat (Lit hyphen) (star CsSpace))
  else Lit ch.

Definition en_pattern (en : str) : regex := join (map en_piece en).

(** [en_pats] and [zh_pats] of [app_streamlit_plus.py]. *)
Definition en_pats (term_df : list term) : list (regex * term) :=
  flat_map (fun row =>
              let en := strip (en_canonical row) in
              if nonempty en then [(en_pattern en, row)] else [])
           term_df.

Definition zh_pats (term_df : list term) : list (regex * term) :=
  flat_map (fun row =>
              let zh := strip (zh_canonical row) in
              if nonempty zh then [(cjk_pat zh, row)] else [])
           term_df.

(** [en_pats] of [app_streamlit_super.py]: the pattern is built from the
    field as stored. *)
Definition en_pats_super (termbase : list term) : list (regex * term) :=
  flat_map (fun row =>
              if nonempty (strip (en_canonical row))
              then [(en_pattern (en_canonical row), row)] else [])
           termbase.

Definition zh_pats_super (termbase : list term) : list (regex * term) :=
  flat_map (fun row =>
              if nonempty (strip (zh_canonical row))
              then [(cjk_pat (zh_canonical row), row)] else [])
           termbase.

(** A located term: [(m.start(), m.end(), row)]. *)
Definition located : Type := (nat * nat * term)%type.

Definition locate (pats : list (regex * term)) (text : str) : list located :=
  flat_map (fun '(rx, row) =>
              map (fun m => (m_start m, m_end m, row))
                  (finditer case_equiv true rx text))
           pats.

(** *** Consistency checker *)

Section Checker.
Variable window : Z.

Definition near (zs es : nat) : bool :=
  Z.leb (Z.abs (Z.of_nat zs - Z.of_nat es)) window.

(** The inner loop over [zh_hits] with its [break]. *)
Fixpoint found_pair (expected_zh : str) (es : nat) (zh_hits : list located) : bool :=
  match zh_hits with
  | [] => false
  | (zs, ze, zrow) :: rest =>
      if near zs es then
        if str_eqb (zh_canonical zrow) expected_zh then true
        else found_pair expected_zh es rest
      else found_pair expected_zh es rest
  end.

Definition window_context (norm : str) (es ee : nat) : str :=
  py_slice norm (Z.max 0 (Z.of_nat es - window)) (Z.of_nat ee + window).

(** Body of the loop over [en_hits] of the pair check: the records it
    appends for one located English term. *)
Definition pair_issue_for (pno : nat) (norm : str) (used_ocr : bool)
    (zh_hits : list located) (h : located) : list issue :=
  let '(es, ee, erow) := h in
  let expected_zh := zh_canonical erow in
  if found_pair expected_zh es zh_hits then []
  else [mkIssue MISSING_OR_WRONG_ZH pno (en_canonical erow) expected_zh None
          (window_context norm es ee) used_ocr].

Fixpoint check_pair_loop (pno : nat) (norm : str) (used_ocr : bool)
    (zh_hits : list located) (en_hits : list located) (pair_issues : list issue)
  : list issue :=
  match en_hits with
  | [] => pair_issues
  | h :: rest =>
      check_pair_loop pno norm used_ocr zh_hits rest
        (pair_issues ++ pair_issue_for pno norm used_ocr zh_hits h)
  end.

(** [any(abs(zs - es) <= window and zrow["zh_canonical"] == expected_zh
         for zs, ze, zrow in zh_hits)] *)
Definition has_zh_near (expected_zh : str) (es : nat) (zh_hits : list located) : bool :=
  existsb (fun '(zs, ze, zrow) => near zs es && str_eqb (zh_canonical zrow) expected_zh)
          zh_hits.

(** Body of the first-mention loop of [app_streamlit_plus.py] for one
    located English term: the new [seen_terms] and the records appended. *)
Definition first_mention_for (pno : nat) (norm : str) (used_ocr : bool)
    (zh_hits : list located) (seen_terms : list str) (h : located)
  : list str * list issue :=
  let '(es, ee, erow) := h in
  let key := py_lower (en_canonical erow) in
  if negb (str_in key seen_terms) then
    let seen_terms := key :: seen_terms in
    let fmt := first_mention_style erow in
    if startswith (py_upper fmt) ZH_paren then
      let expected_zh := zh_canonical erow in
      if negb (has_zh_near expected_zh es zh_hits) then
        (seen_terms,
         [mkIssue FIRST_MENTION_MISSING_ZH pno (en_canonical erow) expected_zh
            (Some (abbr erow)) (window_context norm es ee) used_ocr])
      else (seen_terms, [])
    else (seen_terms, [])
  else (seen_terms, []).

Fixpoint check_first_loop (pno : nat) (norm : str) (used_ocr : bool)
    (zh_hits : list located) (en_hits : list located)
    (seen_terms : list str) (first_mentions : list issue)
  : list str * list issue :=
  match en_hits with
  | [] => (seen_terms, first_mentions)
  | h :: rest =>
      let '(seen_terms', new) :=
        first_mention_for pno norm used_ocr zh_hits seen_terms h in
      check_first_loop pno norm used_ocr zh_hits rest seen_terms'
        (first_mentions ++ new)
  end.

End Checker.

(** *** The scan of [app_streamlit_plus.py] *)

Record plus_options : Type := mkPlusOptions {
  plus_ocr : ocr_options;
  check_pair : bool;
  check_first : bool;
  plus_window : Z
}.

Record plus_state : Type := mkPlusState {
  known_hits : list (hit * bool);     (* the hit and its "ocr" flag *)
  pair_issues : list issue;
  first_mentions : list issue;
  seen_terms : list str
}.

Section PlusScan.
Variable opts : plus_options.
Variable ocr : nat -> option str.
Variable term_df : list term.

(** Body of the page loop. *)
Definition plus_page (st : plus_state) (pno : nat) (page : extraction) : plus_state :=
  let '(norm, used_ocr) := page_text (plus_ocr opts) ocr pno page in
  let known :=
    known_hits st ++
    map (fun h => (h, used_ocr)) (page_hits pno norm (load_patterns term_df)) in
  if check_pair opts || check_first opts then
    let en_hits := locate (en_pats term_df) norm in
    let zh_hits := locate (zh_pats term_df) norm in
    let pairs :=
      if check_pair opts
      then check_pair_loop (plus_window opts) pno norm used_ocr zh_hits en_hits
             (pair_issues st)
      else pair_issues st in
    let '(seen, firsts) :=
      if check_first opts
      then check_first_loop (plus_window opts) pno norm used_ocr zh_hits en_hits
             (seen_terms st) (first_mentions st)
      else (seen_terms st, first_mentions st) in
    mkPlusState known pairs firsts seen
  else mkPlusState known (pair_issues st) (first_mentions st) (seen_terms st).

Fixpoint plus_pages (st : plus_state) (pno : nat) (pages : list extraction)
  : plus_state :=
  match pages with
  | [] => st
  | page :: rest => plus_pages (plus_page st pno page) (S pno) rest
  end.

Definition plus_scan (pages : list extraction) : plus_state :=
  plus_pages (mkPlusState [] [] [] []) 1 pages.

End PlusScan.

(** *** The checks of [app_streamlit_super.py] *)

Section SuperScan.
Variable window : Z.
Variable termbase : list term.

(** [enumerate(pages_text, start=pno)] *)
Fixpoint enumerate_from (X : Type) (pno : nat) (l : list X) : list (nat * X) :=
  match l with
  | [] => []
  | x :: rest => (pno, x) :: enumerate_from (S pno) rest
  end.

(** Section 1: the known variants, row by row and variant by variant over
    all the pages. *)
Definition super_known_hits (pages_text : list str) : list hit :=
  flat_map
    (fun row =>
       flat_map
         (fun v =>
            let rx := cjk_pat v in
            flat_map
              (fun '(pno, text) =>
                 map (fun m => mkHit pno v row (context60 text m))
                     (finditer case_equiv true rx text))
              (enumerate_from 1 pages_text))
         (split_variants (CStr (variant row))))
    termbase.

(** Section 3: the pair check over [pages_text]. *)
Fixpoint super_pair_issues_from (pno : nat) (pages_text : list str)
    (pair_issues : list issue) : list issue :=
  match pages_text with
  | [] => pair_issues
  | text :: rest =>
      let en_hits := locate (en_pats_super termbase) text in
      let zh_hits := locate (zh_pats_super termbase) text in
      super_pair_issues_from (S pno) rest
        (check_pair_loop window pno text false zh_hits en_hits pair_issues)
  end.

Definition super_pair_issues (pages_text : list str) : list issue :=
  super_pair_issues_from 1 pages_text [].

(** [row[1]] where [row] is a row of the term table: an integer key on a
    row labelled by column names is taken as a position (pandas 2; from
    pandas 3 on it is a [KeyError]). *)
Definition row_getitem_pos (row : term) (n : nat) : result str :=
  match n with
  | 0 => Ok (en_canonical row)
  | 1 => Ok (zh_canonical row)
  | 2 => Ok (abbr row)
  | 3 => Ok (first_mention_style row)
  | 4 => Ok (variant row)
  | _ => Raise IndexError
  end.

(** [v[name]] on a string [v]: string indices must be integers. *)
Definition str_getitem_name (v name : str) : result str := Raise TypeError.

(** [v.get(name, default)] on a string [v]: no such attribute. *)
Definition str_get (v name default : str) : result str := Raise AttributeError.

(** Body of the first-mention loop of section 4 for one match [m] of the
    pattern of [row]: every field is read as [row[1][...]]. *)
Definition super_first_mention_for (pno : nat) (text : str)
    (zh_hits : list located) (seen : list str) (row : term) (m : rmatch)
  : result (list str * list issue) :=
  r1 <- row_getitem_pos row 1 ;;
  en <- str_getitem_name r1 (u "en_canonical") ;;
  let key := py_lower en in
  if str_in key seen then Ok (seen, [])
  else
    let seen := key :: seen in
    r1 <- row_getitem_pos row 1 ;;
    fmt <- str_get r1 (u "first_mention_style") ZH_EN_ABBR ;;
    if startswith (py_upper fmt) ZH_paren then
      r1 <- row_getitem_pos row 1 ;;
      exp_zh <- str_getitem_name r1 (u "zh_canonical") ;;
      if negb (has_zh_near window exp_zh (m_start m) zh_hits) then
        r1 <- row_getitem_pos row 1 ;;
        en' <- str_getitem_name r1 (u "en_canonical") ;;
        r1 <- row_getitem_pos row 1 ;;
        ab <- str_get r1 (u "abbr") [] ;;
        Ok (seen,
            [mkIssue FIRST_MENTION_MISSING_ZH pno en' exp_zh (Some ab)
               (window_context window text (m_start m) (m_end m)) false])
      else Ok (seen, [])
    else Ok (seen, []).

Fixpoint super_first_matches (pno : nat) (text : str) (zh_hits : list located)
    (row : term) (ms : list rmatch) (seen : list str) (first_mentions : list issue)
  : result (list str * list issue) :=
  match ms with
  | [] => Ok (seen, first_mentions)
  | m :: rest =>
      r <- super_first_mention_for pno text zh_hits seen row m ;;
      super_first_matches pno text zh_hits row rest (fst r) (first_mentions ++ snd r)
  end.

Fixpoint super_first_pats (pno : nat) (text : str) (zh_hits : list located)
    (pats : list (regex * term)) (seen : list str) (first_mentions : list issue)
  : result (list str * list issue) :=
  match pats with
  | [] => Ok (seen, first_mentions)
  | (rx, row) :: rest =>
      r <- super_first_matches pno text zh_hits row
             (finditer case_equiv true rx text) seen first_mentions ;;
      super_first_pats pno text zh_hits rest (fst r) (snd r)
  end.

Fixpoint super_first_mentions_from (pno : nat) (pages_text : list str)
    (seen : list str) (first_mentions : list issue) : result (list issue) :=
  match pages_text with
  | [] => Ok first_mentions
  | text :: rest =>
      let zh_hits := locate (zh_pats_super termbase) text in
      r <- super_first_pats pno text zh_hits (en_pats_super termbase)
             seen first_mentions ;;
      super_first_mentions_from (S pno) rest (fst r) (snd r)
  end.

(** Section 4. *)
Definition super_first_mentions (pages_text : list str) : result (list issue) :=
  super_first_mentions_from 1 pages_text [] [].

End SuperScan.

(** *** Bilingual pair extraction
    ([parse_pdf_pairs] of [app_streamlit_super.py] and of
    [app_streamlit_auto_extract.py]) *)

Definition triple : Type := (str * str * str)%type.

Definition triple_eqb (a b : triple) : bool :=
  let '(a1, a2, a3) := a in
  let '(b1, b2, b3) := b in
  str_eqb a1 b1 && str_eqb a2 b2 && str_eqb a3 b3.

Definition term_key (t : term) : triple :=
  (en_canonical t, zh_canonical t, abbr t).

(** [df.drop_duplicates(subset=[...])]: a row is dropped when an earlier row
    has the same key. *)
Fixpoint drop_duplicates_from (A : Type) (key : A -> triple) (seen : list triple)
    (rows : list A) : list A :=
  match rows with
  | [] => []
  | r :: rest =>
      if existsb (triple_eqb (key r)) seen
      then drop_duplicates_from key seen rest
      else r :: drop_duplicates_from key (key r :: seen) rest
  end.

Definition drop_duplicates (A : Type) (key : A -> triple) (rows : list A) : list A :=
  drop_duplicates_from key [] rows.

Definition cs_alpha : cset :=
  Eval vm_compute in CsUnion (CsRange (uc "A") (uc "Z")) (CsRange (uc "a") (uc "z")).

(** [[A-Za-z0-9\-]] *)
Definition cs_word : cset :=
  Eval vm_compute in
  CsUnion cs_alpha (CsUnion (CsRange (uc "0") (uc "9")) (CsOne (uc "-"))).

(** [[A-Za-z0-9\-\s]] *)
Definition cs_word_space : cset := CsUnion cs_word CsSpace.

(** [ZH = [一-龥]{2,30}] *)
Definition ZH : regex :=
  Eval vm_compute in Rep (CsRange (uc "一") (uc "龥")) 2 (Some 30).
(** [EN = [A-Za-z][A-Za-z0-9\-\s]{1,80}] *)
Definition EN : regex := Cat (Set_ cs_alpha) (Rep cs_word_space 1 (Some 80)).
(** [ABBR = [A-Za-z][A-Za-z0-9\-]{1,10}] *)
Definition ABBR : regex := Cat (Set_ cs_alpha) (Rep cs_word 1 (Some 10)).

Definition lparen : regex :=
  Eval vm_compute in Set_ (CsUnion (CsOne (uc "(")) (CsOne (uc "（"))).
Definition rparen : regex :=
  Eval vm_compute in Set_ (CsUnion (CsOne (uc ")")) (CsOne (uc "）"))).
Definition dash : regex :=
  Eval vm_compute in Set_ (CsUnion (CsOne (uc "-")) (CsOne (uc "－"))).
Definition ws : regex := star CsSpace.
(** The separator of pattern 1: optional blanks, [;], optional blanks; or
    [；] and optional blanks. *)
Definition semicolon : regex :=
  Eval vm_compute in
  Alt (Cat (star CsSpace) (Cat (Lit (uc ";")) (star CsSpace)))
      (Cat (Lit (uc "；")) (star CsSpace)).

Definition pat1 : regex :=
  join [Grp Gzh ZH; ws; lparen; ws; Grp Gen EN; semicolon; Grp Gabbr ABBR; ws; rparen].
Definition pat2 : regex :=
  join [Grp Gzh ZH; ws; lparen; ws; Grp Gen EN; ws; rparen].
Definition pat3 : regex :=
  join [Grp Gen EN; ws; lparen; ws; Grp Gzh ZH; ws; rparen].
Definition pat4 : regex :=
  join [Grp Gen EN; ws; dash; ws; Grp Gzh ZH].
Definition pat5 : regex :=
  join [Grp Gzh ZH; ws; dash; ws; Grp Gen EN].

(** [re.sub(r"\s+", " ", m.group("en").strip())], [m.group("zh").strip()]
    and [m.group("abbr").strip()]. *)
Definition en_of (text : str) (m : rmatch) : str :=
  re_sub case_equiv false ws_run (u " ") (strip (group_text text m Gen)).
Definition zh_of (text : str) (m : rmatch) : str := strip (group_text text m Gzh).
Definition abbr_of (text : str) (m : rmatch) : str := strip (group_text text m Gabbr).

(** The tuples appended for the matches of pattern 1 and of another
    pattern. *)
Definition rows_abbr (text : str) (pat : regex) : list term :=
  map (fun m => mkTerm (en_of text m) (zh_of text m) (abbr_of text m) ZH_EN_ABBR [])
      (finditer case_equiv false pat text).

Definition rows_plain (text : str) (pat : regex) : list term :=
  map (fun m => mkTerm (en_of text m) (zh_of text m) [] ZH_EN [])
      (finditer case_equiv false pat text).

(** [parse_pdf_pairs] of [app_streamlit_super.py]. *)
Definition parse_pdf_pairs (full_text : str) : list term :=
  let pairs :=
    rows_abbr full_text pat1 ++ rows_plain full_text pat2 ++ rows_plain full_text pat3 in
  drop_duplicates term_key pairs.

Definition PDF_SOURCE : str := Eval vm_compute in u "PDF自動提取".

(** [parse_pdf_pairs] of [app_streamlit_auto_extract.py]: five patterns, and
    a column "翻譯來源" next to the five of the term table. *)
Definition parse_pdf_pairs_extract (full_text : str) : list (term * str) :=
  let pairs :=
    rows_abbr full_text pat1 ++ rows_plain full_text pat2 ++ rows_plain full_text pat3
    ++ rows_plain full_text pat4 ++ rows_plain full_text pat5 in
  drop_duplicates (fun r => term_key (fst r)) (map (fun t => (t, PDF_SOURCE)) pairs).

(** *** Unknown-term candidates
    ([app_streamlit_auto_plus.py] and [app_streamlit_super.py]) *)

(** [set(...)] and the list made of it: the elements without repeats.  The
    order Python iterates a set in is not specified; nothing below depends
    on the order chosen here. *)
Definition py_set (l : list str) : list str := nodup str_eq_dec l.

(** [range(a, b)] *)
Definition py_range (a b : nat) : list nat := seq a (b - a).

Definition optional (r : regex) : regex := Alt r Eps.

(** [[A-Za-z][A-Za-z0-9\-]*] *)
Definition en_word : regex := Cat (Set_ cs_alpha) (star cs_word).

(** The pattern of [en_tokens]: a word, then up to three times blanks and a
    word. *)
Definition en_token_re : regex :=
  let more := Cat (plus CsSpace) en_word in
  Cat en_word (optional (Cat more (optional (Cat more (optional more))))).

Definition en_tokens (text : str) : list str :=
  re_findall case_equiv false en_token_re text.

(** [cjk_tokens]; [cjk] is the test the tool applies to a character
    ([is_cjk] in [app_streamlit_super.py], the range 4E00..9FFF in
    [app_streamlit_auto_plus.py]). *)
Definition cjk_tokens (cjk : char -> bool) (text : str) (min_len max_len : nat)
  : list str :=
  let toks := filter cjk text in
  let n := length toks in
  py_set
    (flat_map (fun L => map (fun i => slice toks i (i + L)) (py_range 0 (n - L + 1)))
              (py_range min_len (Nat.min (max_len + 1) (n + 1)))).

Definition is_cjk_basic (ch : char) : bool := in_range 0x4e00 0x9fff ch.

Inductive candidate_type : Type := UNKNOWN_EN | UNKNOWN_ZH.

Section Unknown.

(** The similarity backend (rapidfuzz): the type of its scores, the number
    0 among them, their comparison with a threshold, [round(score, 1)], and
    [process.extractOne(query, pool, scorer=fuzz.WRatio)]. *)
Variable score : Type.
Variable score_zero : score.
Variable score_ge : score -> Z -> bool.
Variable round1 : score -> score.
Variable extractOne : str -> list str -> option (str * score).

Record candidate : Type := mkCandidate {
  c_type : candidate_type;
  c_candidate : str;
  c_suggest : str;
  c_score : score
}.

Variable HAVE_RF : bool.
Variable master_df : list term.
Variables zh_thresh en_thresh : Z.

Definition known_ens : list str :=
  py_set (map (fun r => py_lower (en_canonical r)) master_df
          ++ map (fun r => py_lower (abbr r)) master_df).

Definition known_zhs : list str := py_set (map zh_canonical master_df).

Definition en_pool : list str := map en_canonical master_df ++ map abbr master_df.

(** Body of the loop over the English tokens in
    [app_streamlit_auto_plus.py]. *)
Definition en_candidate_auto_plus (tok : str) : list candidate :=
  let t := strip tok in
  if negb (nonempty t) then []
  else if str_in (py_lower t) known_ens then []
  else if HAVE_RF && Nat.ltb 0 (length master_df) then
    match extractOne t en_pool with
    | Some (suggest, sc) =>
        if score_ge sc en_thresh then [mkCandidate UNKNOWN_EN t suggest (round1 sc)]
        else []
    | None => []
    end
  else if Nat.leb 4 (length t) then [mkCandidate UNKNOWN_EN t [] score_zero]
  else [].

Definition en_cands_auto_plus (full_text : str) : list candidate :=
  flat_map en_candidate_auto_plus (py_set (en_tokens full_text)).

Definition zh_candidate_auto_plus (gram : str) : list candidate :=
  if str_in gram known_zhs then []
  else if HAVE_RF && Nat.ltb 0 (length master_df) then
    match extractOne gram (map zh_canonical master_df) with
    | Some (suggest, sc) =>
        if score_ge sc zh_thresh then [mkCandidate UNKNOWN_ZH gram suggest (round1 sc)]
        else []
    | None => []
    end
  else [mkCandidate UNKNOWN_ZH gram [] score_zero].

Definition zh_cands_auto_plus (full_text : str) (zh_ngram_len : nat) : list candidate :=
  flat_map zh_candidate_auto_plus
    (py_set (cjk_tokens is_cjk_basic full_text zh_ngram_len zh_ngram_len)).

(** The same loops in [app_streamlit_super.py]. *)
Definition en_candidate_super (tok : str) : list candidate :=
  let t := strip tok in
  if negb (nonempty t) || str_in (py_lower t) known_ens then []
  else
    let '(suggest, sc) :=
      if HAVE_RF && Nat.ltb 0 (length master_df) then
        match extractOne t en_pool with
        | Some res => res
        | None => ([], score_zero)
        end
      else ([], score_zero) in
    if negb HAVE_RF && Nat.ltb (length t) 4 then []
    else if score_ge sc en_thresh || negb HAVE_RF
         then [mkCandidate UNKNOWN_EN t suggest (round1 sc)]
         else [].

Definition en_cands_super (full_text : str) : list candidate :=
  flat_map en_candidate_super (py_set (en_tokens full_text)).

Definition zh_candidate_super (gram : str) : list candidate :=
  if str_in gram known_zhs then []
  else
    let '(suggest, sc) :=
      if HAVE_RF && Nat.ltb 0 (length master_df) then
        match extractOne gram (map zh_canonical master_df) with
        | Some res => res
        | None => ([], score_zero)
        end
      else ([], score_zero) in
    if score_ge sc zh_thresh || negb HAVE_RF
    then [mkCandidate UNKNOWN_ZH gram suggest (round1 sc)]
    else [].

Definition zh_cands_super (full_text : str) (zh_ngram : nat) : list candidate :=
  flat_map zh_candidate_super (py_set (cjk_tokens is_cjk full_text zh_ngram zh_ngram)).

End Unknown.

End Tools.

(** ** Pairs with their place, and the OCR pass over the pages
    ([parse_pdf_pairs_with_location] and [extract_text_from_images] of
    [app_streamlit_auto_extract.py]) *)

(** Where an extracted pair was found: page, offset of the match and the
    text around it. *)
Record place : Type := mkPlace {
  p_page : nat;
  p_position : nat;
  p_context : str
}.

Section WithLocation.

Variable case_equiv : char -> char -> bool.

(** [page_text[max(0, m.start()-50):m.end()+50]] *)
Definition context50 (page_text : str) (m : rmatch) : str :=
  py_slice page_text (Z.max 0 (Z.of_nat (m_start m) - 50)) (Z.of_nat (m_end m) + 50).

(** The tuples appended on one page for the matches of pattern 1 and of
    another pattern. *)
Definition placed_abbr (page_num : nat) (page_text : str) (pat : regex)
  : list (term * place) :=
  map (fun m =>
         (mkTerm (en_of case_equiv page_text m) (zh_of page_text m)
            (abbr_of page_text m) ZH_EN_ABBR [],
          mkPlace page_num (m_start m) (context50 page_text m)))
      (finditer case_equiv false pat page_text).

Definition placed_plain (page_num : nat) (page_text : str) (pat : regex)
  : list (term * place) :=
  map (fun m =>
         (mkTerm (en_of case_equiv page_text m) (zh_of page_text m) [] ZH_EN [],
          mkPlace page_num (m_start m) (context50 page_text m)))
      (finditer case_equiv false pat page_text).

(** Body of the loop over the pages. *)
Definition page_pairs (page_num : nat) (page_text : str) : list (term * place) :=
  placed_abbr page_num page_text pat1
  ++ placed_plain page_num page_text pat2
  ++ placed_plain page_num page_text pat3
  ++ placed_plain page_num page_text pat4
  ++ placed_plain page_num page_text pat5.

Fixpoint pairs_from (page_num : nat) (pages_text : list str) : list (term * place) :=
  match pages_text with
  | [] => []
  | page_text :: rest => page_pairs page_num page_text ++ pairs_from (S page_num) rest
  end.

(** [parse_pdf_pairs_with_location]: the rows carry the pair, its place and
    the column "翻譯來源". *)
Definition parse_pdf_pairs_with_location (pages_text : list str)
  : list (term * place * str) :=
  drop_duplicates (fun r => term_key (fst (fst r)))
    (map (fun r => (r, PDF_SOURCE)) (pairs_from 1 pages_text)).

(** [pages_text[page_num] = ocr_text] *)
Definition list_set (X : Type) (l : list X) (i : nat) (x : X) : list X :=
  firstn i l ++ x :: skipn (S i) l.

(** Body of the loop over the images; [image] is what
    [pytesseract.image_to_string] returns for the page, [None] when it
    raises.  A page number past the end of [pages_text] raises
    [IndexError], caught with the rest. *)
Definition ocr_page (pages_text : list str) (page_num : nat) (image : option str)
  : list str :=
  match image with
  | None => pages_text
  | Some raw =>
      let ocr_text := normalize_text case_equiv raw in
      match nth_error pages_text page_num with
      | None => pages_text
      | Some old =>
          if Nat.ltb (length old) (length ocr_text)
          then list_set pages_text page_num ocr_text
          else pages_text
      end
  end.

Fixpoint ocr_pages (pages_text : list str) (page_num : nat) (images : list (option str))
  : list str :=
  match images with
  | [] => pages_text
  | image :: rest => ocr_pages (ocr_page pages_text page_num image) (S page_num) rest
  end.

(** [extract_text_from_images]; [images] is [None] when the conversion of
    the document to images raises. *)
Definition extract_text_from_images (have_ocr : bool)
    (images : option (list (option str))) (pages_text : list str) : list str :=
  if negb have_ocr then pages_text
  else
    match images with
    | None => pages_text
    | Some images => ocr_pages pages_text 0 images
    end.

End WithLocation.

(** ** The key of a sheet ([extract_sheet_id] of [app_streamlit_super.py],
    [app_streamlit_gsheets.py], [app_streamlit_auto_extract.py] and
    [test_gsheets_connection.py]) *)

Section SheetId.

Variable case_equiv : char -> char -> bool.

(** [rx.search(text)]: the first hit of the scan. *)
Definition re_search (ic : bool) (r : regex) (text : str) : option rmatch :=
  match finditer case_equiv ic r text with
  | m :: _ => Some m
  | [] => None
  end.

Definition SHEET_MARKER : str := Eval vm_compute in u "/spreadsheets/d/".

(** [[a-zA-Z0-9-_]] *)
Definition cs_sheet_id : cset :=
  Eval vm_compute in
  CsUnion (CsRange (uc "a") (uc "z"))
    (CsUnion (CsRange (uc "A") (uc "Z"))
       (CsUnion (CsRange (uc "0") (uc "9"))
          (CsUnion (CsOne (uc "-")) (CsOne (uc "_"))))).

(** The pattern of [extract_sheet_id]; its one group holds what follows
    the marker. *)
Definition sheet_id_re : regex :=
  Cat (join (map Lit SHEET_MARKER)) (plus cs_sheet_id).

(** [m.group(1)] of a hit of [sheet_id_re]: the hit without the characters
    of the marker. *)
Definition sheet_id_group (text : str) (m : rmatch) : str :=
  slice text (m_start m + length SHEET_MARKER) (m_end m).

Definition extract_sheet_id (url_or_id : str) : str :=
  match re_search false sheet_id_re url_or_id with
  | Some m => sheet_id_group url_or_id m
  | None => strip url_or_id
  end.

End SheetId.

(** ** Term table normalisation ([standardize_master] of
    [app_streamlit_super.py]; [app_streamlit_auto_plus.py] and
    [app_streamlit_gsheets.py] have the same function) *)

(** A frame: the row labels and, in order, the named columns. *)
Definition column : Type := (str * list cell)%type.

Record DataFrame : Type := mkDF {
  df_index : list Z;
  df_columns : list column
}.

Definition COL_EN : str := Eval vm_compute in u "en_canonical".
Definition COL_ZH : str := Eval vm_compute in u "zh_canonical".
Definition COL_ABBR : str := Eval vm_compute in u "abbr".
Definition COL_STYLE : str := Eval vm_compute in u "first_mention_style".
Definition COL_VARIANT : str := Eval vm_compute in u "variant (錯誤用法)".

Definition REQUIRED_COLS : list str :=
  [COL_EN; COL_ZH; COL_ABBR; COL_STYLE; COL_VARIANT].

(** [df.empty]: no row or no column. *)
Definition df_empty (df : DataFrame) : bool :=
  Nat.eqb (length (df_index df)) 0 || Nat.eqb (length (df_columns df)) 0.

(** [pd.DataFrame(columns=cols)] *)
Definition empty_frame (cols : list str) : DataFrame :=
  mkDF [] (map (fun c => (c, [])) cols).

Definition named (c : str) (col : column) : bool := str_eqb (fst col) c.

(** [c in df.columns] *)
Definition has_column (c : str) (df : DataFrame) : bool :=
  existsb (named c) (df_columns df).

(** [df[c]] used as one column.  A name carried by several columns selects
    a frame, on which the column operations of the callers ([.str], the
    comparison with a string) raise. *)
Definition getitem (c : str) (df : DataFrame) : result (list cell) :=
  match filter (named c) (df_columns df) with
  | [col] => Ok (snd col)
  | [] => Raise KeyError
  | _ :: _ :: _ => Raise AttributeError
  end.

(** [df[c] = vals]: the column is replaced, or appended when new. *)
Definition setitem (c : str) (vals : list cell) (df : DataFrame) : DataFrame :=
  if has_column c df then
    mkDF (df_index df)
         (map (fun col => if named c col then (c, vals) else col) (df_columns df))
  else mkDF (df_index df) (df_columns df ++ [(c, vals)]).

(** [df[c] = v] for a scalar [v]. *)
Definition setitem_scalar (c : str) (v : cell) (df : DataFrame) : DataFrame :=
  setitem c (repeat v (length (df_index df))) df.

Definition NAN_TEXT : str := Eval vm_compute in u "nan".

(** [.astype(str)], [.fillna(v)] and [.str.strip()] on one cell. *)
Definition astype_str (v : cell) : cell :=
  match v with
  | CStr s => CStr s
  | CNaN => CStr NAN_TEXT
  | CNum repr => CStr repr
  end.

Definition fillna (fill : str) (v : cell) : cell :=
  match v with
  | CNaN => CStr fill
  | _ => v
  end.

Definition cell_strip (v : cell) : cell :=
  match v with
  | CStr s => CStr (strip s)
  | _ => CNaN
  end.

(** [df[c].astype(str).fillna("").str.strip()] *)
Definition clean_column (vals : list cell) : list cell :=
  map (fun v => cell_strip (fillna [] (astype_str v))) vals.

Definition cell_eqb (a b : cell) : bool :=
  match a, b with
  | CStr x, CStr y => str_eqb x y
  | CNaN, CNaN => true
  | CNum x, CNum y => str_eqb x y
  | _, _ => false
  end.

(** Body of the loop over [REQUIRED_COLS]. *)
Definition standardize_column (df : DataFrame) (c : str) : result DataFrame :=
  let df := if has_column c df then df else setitem_scalar c (CStr []) df in
  vals <- getitem c df ;;
  Ok (setitem c (clean_column vals) df).

Fixpoint standardize_columns (cols : list str) (df : DataFrame) : result DataFrame :=
  match cols with
  | [] => Ok df
  | c :: rest =>
      df' <- standardize_column df c ;;
      standardize_columns rest df'
  end.

(** [df.loc[df[c] == "", c] = default] *)
Definition fill_blank (c default : str) (df : DataFrame) : result DataFrame :=
  vals <- getitem c df ;;
  Ok (setitem c (map (fun v => if cell_eqb v (CStr []) then CStr default else v) vals) df).

Definition key3 : Type := (cell * cell * cell)%type.

Definition key3_eqb (a b : key3) : bool :=
  let '(a1, a2, a3) := a in
  let '(b1, b2, b3) := b in
  cell_eqb a1 b1 && cell_eqb a2 b2 && cell_eqb a3 b3.

Fixpoint zip3 (a b c : list cell) : list key3 :=
  match a, b, c with
  | x :: a', y :: b', z :: c' => (x, y, z) :: zip3 a' b' c'
  | _, _, _ => []
  end.

(** [~df.duplicated(subset)]: true at the rows whose key was not met
    before. *)
Fixpoint first_mask (seen : list key3) (keys : list key3) : list bool :=
  match keys with
  | [] => []
  | k :: rest =>
      if existsb (key3_eqb k) seen then false :: first_mask seen rest
      else true :: first_mask (k :: seen) rest
  end.

Fixpoint filter_mask (X : Type) (mask : list bool) (xs : list X) : list X :=
  match mask, xs with
  | true :: mask', x :: xs' => x :: filter_mask mask' xs'
  | false :: mask', _ :: xs' => filter_mask mask' xs'
  | _, _ => []
  end.

Definition take_rows (mask : list bool) (df : DataFrame) : DataFrame :=
  mkDF (filter_mask mask (df_index df))
       (map (fun col => (fst col, filter_mask mask (snd col))) (df_columns df)).

(** [df.drop_duplicates(subset=[c1, c2, c3])] *)
Definition df_drop_duplicates (c1 c2 c3 : str) (df : DataFrame) : result DataFrame :=
  k1 <- getitem c1 df ;;
  k2 <- getitem c2 df ;;
  k3 <- getitem c3 df ;;
  Ok (take_rows (first_mask [] (zip3 k1 k2 k3)) df).

(** [df[cols]] *)
Fixpoint select_columns (cols : list str) (df : DataFrame) : result (list column) :=
  match cols with
  | [] => Ok []
  | c :: rest =>
      vals <- getitem c df ;;
      more <- select_columns rest df ;;
      Ok ((c, vals) :: more)
  end.

Definition df_select (cols : list str) (df : DataFrame) : result DataFrame :=
  columns <- select_columns cols df ;;
  Ok (mkDF (df_index df) columns).

Definition standardize_master (df : option DataFrame) : result DataFrame :=
  match df with
  | None => Ok (empty_frame REQUIRED_COLS)
  | Some df =>
      if df_empty df then Ok (empty_frame REQUIRED_COLS)
      else
        df <- standardize_columns REQUIRED_COLS df ;;
        df <- fill_blank COL_STYLE ZH_EN_ABBR df ;;
        df <- df_drop_duplicates COL_EN COL_ZH COL_ABBR df ;;
        df_select REQUIRED_COLS df
  end.

(** [standardize_master] of [app_streamlit_auto_plus.py] and
    [app_streamlit_gsheets.py]: a first loop adds the missing columns, a
    second loop cleans the columns. *)
Definition add_missing_column (df : DataFrame) (c : str) : DataFrame :=
  if has_column c df then df else setitem_scalar c (CStr []) df.

Definition add_missing_columns (cols : list str) (df : DataFrame) : DataFrame :=
  fold_left add_missing_column cols df.

Definition clean_in_place (df : DataFrame) (c : str) : result DataFrame :=
  vals <- getitem c df ;;
  Ok (setitem c (clean_column vals) df).

Fixpoint clean_columns (cols : list str) (df : DataFrame) : result DataFrame :=
  match cols with
  | [] => Ok df
  | c :: rest =>
      df' <- clean_in_place df c ;;
      clean_columns rest df'
  end.

Definition standardize_master_auto_plus (df : option DataFrame) : result DataFrame :=
  let cols := REQUIRED_COLS in
  match df with
  | None => Ok (empty_frame cols)
  | Some df =>
      if df_empty df then Ok (empty_frame cols)
      else
        let df := add_missing_columns cols df in
        df <- clean_columns REQUIRED_COLS df ;;
        df <- fill_blank COL_STYLE ZH_EN_ABBR df ;;
        df <- df_drop_duplicates COL_EN COL_ZH COL_ABBR df ;;
        df_select cols df
  end.

(** [df.values.tolist()]: the table row by row. *)
Definition df_rows (df : DataFrame) : list (list cell) :=
  map (fun i => map (fun col => nth i (snd col) CNaN) (df_columns df))
      (seq 0 (length (df_index df))).

(** [write_master_to_ws]: what replaces the content of the sheet; a header
    cell is shown as a string cell. *)
Definition write_master_to_ws (df : DataFrame) : result (list (list cell)) :=
  df <- standardize_master (Some df) ;;
  Ok (map (fun col => CStr (fst col)) (df_columns df) :: df_rows df).

(** [None] in a frame built from rows: a scalar whose [str()] is "None". *)
Definition NONE_CELL : cell := Eval vm_compute in CNum (u "None").

(** [pd.DataFrame(rows, columns=header)] for rows given as lists.  The rows
    are padded with [None] to the longest of them; the constructor raises
    [ValueError] ([None] here) when that width is not the number of column
    names.  The index is [0 .. len(rows) - 1]. *)
Definition frame_of_rows (header : list str) (rows : list (list cell))
  : option DataFrame :=
  match rows with
  | [] => Some (empty_frame header)
  | _ =>
      let width := list_max (map (@length cell) rows) in
      if Nat.eqb width (length header) then
        Some (mkDF (map Z.of_nat (seq 0 (length rows)))
                (map (fun j => (nth j header [],
                                map (fun row => nth j row NONE_CELL) rows))
                     (seq 0 width)))
      else None
  end.

(** [read_master_from_ws]; [values] is what [ws.get_all_values()] returns,
    a list of rows of strings.  [None]: the frame constructor raises
    [ValueError]. *)
Definition read_master_from_ws (values : list (list str))
  : option (result DataFrame) :=
  match values with
  | [] => Some (Ok (empty_frame REQUIRED_COLS))
  | header :: rows =>
      match frame_of_rows header (map (map CStr) rows) with
      | Some df => Some (standardize_master (Some df))
      | None => None
      end
  end.

(** The local path of the callers:
    [combined = standardize_master(combined); save_local_master(combined)],
    the saved file holding the rows of the frame under its header. *)
Definition save_combined (combined : DataFrame) : result (list (list cell)) :=
  combined <- standardize_master (Some combined) ;;
  Ok (map (fun col => CStr (fst col)) (df_columns combined) :: df_rows combined).

(** ** Diff engine ([detect_differences] and
    [detect_differences_with_location] of [app_streamlit_auto_extract.py]) *)

(** A row of [extracted_clean] or [termbase_clean]:
    (en_canonical, zh_canonical, abbr). *)
Definition t_en (t : triple) : str := fst (fst t).
Definition t_zh (t : triple) : str := snd (fst t).
Definition t_abbr (t : triple) : str := snd t.

Inductive merge_indicator : Type := left_only | both.

(** [left.merge(right, on=[all three columns], how="left", indicator=True)]:
    a left row without a match comes once, marked [left_only]; otherwise it
    comes once per matching right row. *)
Definition merge_left (left right : list triple) : list (triple * merge_indicator) :=
  flat_map (fun l =>
              match filter (triple_eqb l) right with
              | [] => [(l, left_only)]
              | matches => map (fun _ => (l, both)) matches
              end)
           left.

Definition is_left_only (r : triple * merge_indicator) : bool :=
  match snd r with left_only => true | both => false end.

(** [left.merge(right, on=key, how="inner", suffixes=("_ext", "_term"))]:
    every pair of a left row and a right row with the same key, in the
    order of the left rows. *)
Definition merge_inner (key : triple -> str) (left right : list triple)
  : list (triple * triple) :=
  flat_map (fun l => map (fun r => (l, r))
                         (filter (fun r => str_eqb (key l) (key r)) right))
           left.

Inductive conflict : Type :=
| EnglishSame (en_canonical zh_extracted zh_termbase abbr_extracted abbr_termbase : str)
| ChineseSame (zh_canonical en_extracted en_termbase abbr_extracted abbr_termbase : str).

Definition en_conflict_of (p : triple * triple) : conflict :=
  let '(ext, term) := p in
  EnglishSame (t_en ext) (t_zh ext) (t_zh term) (t_abbr ext) (t_abbr term).

Definition zh_conflict_of (p : triple * triple) : conflict :=
  let '(ext, term) := p in
  ChineseSame (t_zh ext) (t_en ext) (t_en term) (t_abbr ext) (t_abbr term).

Definition zh_differs (p : triple * triple) : bool :=
  negb (str_eqb (t_zh (fst p)) (t_zh (snd p))).

Definition en_differs (p : triple * triple) : bool :=
  negb (str_eqb (t_en (fst p)) (t_en (snd p))).

Definition detect_differences (extracted_clean termbase_clean : list triple)
  : list triple * list conflict :=
  let merged := merge_left extracted_clean termbase_clean in
  let new_items := map fst (filter is_left_only merged) in
  let en_merge := merge_inner t_en extracted_clean termbase_clean in
  let en_conflicts := filter zh_differs en_merge in
  let zh_merge := merge_inner t_zh extracted_clean termbase_clean in
  let zh_conflicts := filter en_differs zh_merge in
  (new_items, map en_conflict_of en_conflicts ++ map zh_conflict_of zh_conflicts).

(** Where an extracted pair was found. *)
Record location : Type := mkLocation {
  l_page : nat;
  l_position : nat;
  l_context : str
}.

Record located_conflict : Type := mkLocatedConflict {
  lc_conflict : conflict;
  lc_termbase_status : str;
  lc_location : location
}.

Definition UNKNOWN_STATUS : str := Eval vm_compute in u "未知".

(** [frame[cond].iloc[0]] when the selection is not empty. *)
Definition first_where (A : Type) (cond : A -> bool) (rows : list A) : option A :=
  match filter cond rows with
  | r :: _ => Some r
  | [] => None
  end.

Definition status_where (cond : triple -> bool) (termbase : list (triple * str)) : str :=
  match first_where (fun r => cond (fst r)) termbase with
  | Some r => snd r
  | None => UNKNOWN_STATUS
  end.

(** [detect_differences_with_location]: the extracted rows carry their
    location, the table rows their status. *)
Definition detect_differences_with_location
    (extracted : list (triple * location)) (termbase : list (triple * str))
  : list triple * list located_conflict :=
  let extracted_clean := map fst extracted in
  let termbase_clean := map fst termbase in
  let merged := merge_left extracted_clean termbase_clean in
  let new_items := map fst (filter is_left_only merged) in
  let en_conflicts := filter zh_differs (merge_inner t_en extracted_clean termbase_clean) in
  let zh_conflicts := filter en_differs (merge_inner t_zh extracted_clean termbase_clean) in
  let en_errors :=
    flat_map (fun p =>
                let ext := fst p in
                match first_where
                        (fun x => str_eqb (t_en (fst x)) (t_en ext)
                                  && str_eqb (t_zh (fst x)) (t_zh ext))
                        extracted with
                | Some location_row =>
                    [mkLocatedConflict (en_conflict_of p)
                       (status_where (fun t => str_eqb (t_en t) (t_en ext)) termbase)
                       (snd location_row)]
                | None => []
                end)
             en_conflicts in
  let zh_errors :=
    flat_map (fun p =>
                let ext := fst p in
                match first_where
                        (fun x => str_eqb (t_zh (fst x)) (t_zh ext)
                                  && str_eqb (t_en (fst x)) (t_en ext))
                        extracted with
                | Some location_row =>
                    [mkLocatedConflict (zh_conflict_of p)
                       (status_where (fun t => str_eqb (t_zh t) (t_zh ext)) termbase)
                       (snd location_row)]
                | None => []
                end)
             zh_conflicts in
  (new_items, en_errors ++ zh_errors).

(** ** Vocabulary of the statements *)

(** A lower bound on the number of characters a match of [r] consumes. *)
Fixpoint min_len (r : regex) : nat :=
  match r with
  | Eps => 0
  | Lit _ | Set_ _ => 1
  | Rep _ lo _ => lo
  | Cat r1 r2 => min_len r1 + min_len r2
  | Alt r1 r2 => Nat.min (min_len r1) (min_len r2)
  | Grp _ r => min_len r
  end.

(** [spaced T s]: [s] is the token [T] with a (possibly empty) run of
    whitespace inserted between each two neighbouring characters. *)
Inductive spaced : str -> str -> Prop :=
| spaced_nil : spaced [] []
| spaced_last c : spaced [c] [c]
| spaced_cons c d T w s :
    forallb isspace w = true ->
    spaced (d :: T) s ->
    spaced (c :: d :: T) (c :: w ++ s).

(** Case tables restricted to ASCII, to run the tools on ASCII and CJK
    examples. *)
Definition ascii_lower_char (c : char) : char :=
  if in_range 0x41 0x5a c then (c + 32)%N else c.

Definition ascii_lower (s : str) : str := map ascii_lower_char s.

Definition ascii_case_equiv (a b : char) : bool :=
  char_eqb (ascii_lower_char a) (ascii_lower_char b).

Definition no_upper (c : char) : str := [c].

(** The example text of the pair extractor and the pair expected from it. *)
Definition stroke_text : str := Eval vm_compute in u "腦中風(Stroke;CVA)".
Definition stroke_pair : term :=
  Eval vm_compute in mkTerm (u "Stroke") (u "腦中風") (u "CVA") ZH_EN_ABBR [].

(** The normal form of a frame: what [standardize_master] is shown to
    return on a frame that is not empty. *)
Definition clean_cell (v : cell) : cell := cell_strip (fillna [] (astype_str v)).

(** The values of column [c] after the loop over [REQUIRED_COLS]: cleaned,
    blank when the column was missing. *)
Definition cleaned (df : DataFrame) (c : str) : list cell :=
  clean_column
    match getitem c df with
    | Ok vals => vals
    | Raise _ => repeat (CStr []) (length (df_index df))
    end.

Definition default_style (v : cell) : cell :=
  if cell_eqb v (CStr []) then CStr ZH_EN_ABBR else v.

Definition styles (df : DataFrame) : list cell :=
  map default_style (cleaned df COL_STYLE).

(** The (English, Chinese, abbreviation) keys of the cleaned rows. *)
Definition keys_of (df : DataFrame) : list key3 :=
  zip3 (cleaned df COL_EN) (cleaned df COL_ZH) (cleaned df COL_ABBR).

Definition kept (df : DataFrame) : list bool := first_mask [] (keys_of df).

Definition normal_form (df : DataFrame) : DataFrame :=
  let m := kept df in
  mkDF (filter_mask m (df_index df))
       [(COL_EN, filter_mask m (cleaned df COL_EN));
        (COL_ZH, filter_mask m (cleaned df COL_ZH));
        (COL_ABBR, filter_mask m (cleaned df COL_ABBR));
        (COL_STYLE, filter_mask m (styles df));
        (COL_VARIANT, filter_mask m (cleaned df COL_VARIANT))].

(** Every column is as long as the index. *)
Definition wf_frame (df : DataFrame) : Prop :=
  Forall (fun col : column => length (snd col) = length (df_index df)) (df_columns df).

(** No canonical column name is carried by two columns. *)
Definition unambiguous (df : DataFrame) : Prop :=
  forall c, In c REQUIRED_COLS -> getitem c df <> Raise AttributeError.

(** The key of a row of [df.values.tolist()]: its first three cells. *)
Definition row_key (row : list cell) : key3 :=
  (nth 0 row CNaN, nth 1 row CNaN, nth 2 row CNaN).

(** The keys of the rows of a normalised table. *)
Definition table_keys (d : DataFrame) : result (list key3) :=
  en <- getitem COL_EN d ;;
  zh <- getitem COL_ZH d ;;
  ab <- getitem COL_ABBR d ;;
  Ok (zip3 en zh ab).

(** The pairs of an extracted row and a table row in conflict, and the
    example of the diff engine. *)
Definition same_en_other_zh (p : triple * triple) : bool :=
  str_eqb (t_en (fst p)) (t_en (snd p)) && negb (str_eqb (t_zh (fst p)) (t_zh (snd p))).

Definition same_zh_other_en (p : triple * triple) : bool :=
  str_eqb (t_zh (fst p)) (t_zh (snd p)) && negb (str_eqb (t_en (fst p)) (t_en (snd p))).

Definition diff_example_table : list triple :=
  Eval vm_compute in [(u "A", u "甲", [])].
Definition diff_example_extracted : list triple :=
  Eval vm_compute in [(u "A", u "甲", []); (u "A", u "乙", [])].
Definition diff_example_result : list triple * list conflict :=
  Eval vm_compute in
  ([(u "A", u "乙", [])], [EnglishSame (u "A") (u "乙") (u "甲") [] []]).

(** Examples: a one-record table, a page, and a table with two rows of the
    same key that differ in the variant column. *)
Definition ct_zh : str := Eval vm_compute in u "電腦斷層".
Definition ct_row : term := Eval vm_compute in mkTerm (u "CT") ct_zh [] ZH_EN_ABBR [].
Definition ct_text : str := Eval vm_compute in u "CT".
Definition ct_options : plus_options :=
  mkPlusOptions (mkOcr false 5 false) true true 80.

Definition example_frame : DataFrame :=
  Eval vm_compute in
  mkDF [0; 1; 2]%Z
    [(COL_EN, [CStr (u "CT"); CStr (u "CT"); CStr (u "MRI")]);
     (COL_ZH, [CStr ct_zh; CStr ct_zh; CStr (u "磁振造影")]);
     (COL_VARIANT, [CStr (u "C.T."); CStr (u "CT scan"); CNaN])].

(** ** Runs of a character class

    What [re.sub] and [re.split] compute for a pattern [p+], written as
    one pass over the text: the facts about [normalize_text] and
    [split_variants] are proved through these. *)

(** Every maximal run of [p] replaced by [repl]; [in_run] tells that the
    previous character was in [p]. *)
Fixpoint squeeze (p : cset) (repl : str) (in_run : bool) (s : str) : str :=
  match s with
  | [] => []
  | x :: s' =>
      if cset_mem p x then
        if in_run then squeeze p repl true s' else repl ++ squeeze p repl true s'
      else x :: squeeze p repl false s'
  end.

(** The pieces between the maximal runs of [p]; [cur] holds the current
    piece, last character first. *)
Fixpoint split_runs (p : cset) (in_run : bool) (cur : str) (s : str) : list str :=
  match s with
  | [] => [rev cur]
  | x :: s' =>
      if cset_mem p x then
        if in_run then split_runs p true [] s' else rev cur :: split_runs p true [] s'
      else split_runs p false (x :: cur) s'
  end.

(** The characters [normalize_text] rewrites or deletes. *)
Definition FULLWIDTH_PUNCT : str := Eval vm_compute in u "（）；，。、".

Definition rewritten (c : char) : bool :=
  existsb (char_eqb c) FULLWIDTH_PUNCT || existsb (char_eqb c) ZERO_WIDTH.

(** A text in the form [normalize_text] produces. *)
Definition space : char := Eval vm_compute in uc " ".

Fixpoint single_spaced (after_space : bool) (s : str) : bool :=
  match s with
  | [] => true
  | x :: s' =>
      if isspace x then char_eqb x space && negb after_space && single_spaced true s'
      else single_spaced false s'
  end.

Definition normal_text (s : str) : bool :=
  forallb (fun c => negb (rewritten c)) s && single_spaced false s.

(** The character replacements of [normalize_text], before the blanks are
    collapsed. *)
Definition unify_chars (s : str) : str :=
  let s := replace1 (uc "（") (u "(") s in
  let s := replace1 (uc "）") (u ")") s in
  let s := replace1 (uc "；") (u ";") s in
  let s := replace1 (uc "，") (u ",") s in
  let s := replace1 (uc "。") (u ".") s in
  let s := replace1 (uc "、") (u "/") s in
  fold_left (fun s ch => replace1 ch [] s) ZERO_WIDTH s.

(** Writing a variant cell: every variant followed by a run of delimiters,
    but the last. *)
Fixpoint join_variants (parts : list (str * str)) (last : str) : str :=
  match parts with
  | [] => last
  | (v, delims) :: rest => v ++ delims ++ join_variants rest last
  end.

Definition is_delim (c : char) : bool := cset_mem variant_delims c.

(** A variant as it can be written in a cell: not empty, no delimiter. *)
Definition delimiter_free (v : str) : bool := forallb (fun c => negb (is_delim c)) v.

Definition variant_word (v : str) : bool := nonempty v && delimiter_free v.

Definition delimiter_run (d : str) : bool := nonempty d && forallb is_delim d.

(** ** The words of a pattern

    [lang r w]: the word [w] is matched by [r], in the usual sense of
    regular expressions ([ic] is the [re.IGNORECASE] flag). *)

Definition within (hi : option nat) (n : nat) : Prop :=
  match hi with Some h => n <= h | None => True end.

Inductive lang (case_equiv : char -> char -> bool) (ic : bool) : regex -> str -> Prop :=
| lang_eps : lang case_equiv ic Eps []
| lang_lit c x :
    lit_match case_equiv ic c x = true -> lang case_equiv ic (Lit c) [x]
| lang_set p x :
    cset_mem p x = true -> lang case_equiv ic (Set_ p) [x]
| lang_rep p lo hi w :
    forallb (cset_mem p) w = true -> lo <= length w -> within hi (length w) ->
    lang case_equiv ic (Rep p lo hi) w
| lang_cat r1 r2 w1 w2 :
    lang case_equiv ic r1 w1 -> lang case_equiv ic r2 w2 ->
    lang case_equiv ic (Cat r1 r2) (w1 ++ w2)
| lang_alt_l r1 r2 w :
    lang case_equiv ic r1 w -> lang case_equiv ic (Alt r1 r2) w
| lang_alt_r r1 r2 w :
    lang case_equiv ic r2 w -> lang case_equiv ic (Alt r1 r2) w
| lang_grp g r w :
    lang case_equiv ic r w -> lang case_equiv ic (Grp g r) w.

(** [fuzzy_spelling T s]: the text [s] spells the token [T] with the
    freedom [cjk_fuzzy_pattern] gives: a blank of the token stands for any
    run of blanks, blanks may follow a CJK character and surround a hyphen,
    and a character may be replaced by one equal to it up to case. *)
Inductive fuzzy_spelling (case_equiv : char -> char -> bool) : str -> str -> Prop :=
| fuzzy_nil : fuzzy_spelling case_equiv [] []
| fuzzy_blank c T w s :
    isspace c = true -> w <> [] -> forallb isspace w = true ->
    fuzzy_spelling case_equiv T s ->
    fuzzy_spelling case_equiv (c :: T) (w ++ s)
| fuzzy_cjk c x T w s :
    isspace c = false -> is_cjk c = true ->
    lit_match case_equiv true c x = true -> forallb isspace w = true ->
    fuzzy_spelling case_equiv T s ->
    fuzzy_spelling case_equiv (c :: T) (x :: w ++ s)
| fuzzy_hyphen c x T w1 w2 s :
    isspace c = false -> is_cjk c = false -> char_eqb c hyphen = true ->
    forallb isspace w1 = true -> lit_match case_equiv true hyphen x = true ->
    forallb isspace w2 = true ->
    fuzzy_spelling case_equiv T s ->
    fuzzy_spelling case_equiv (c :: T) (w1 ++ x :: w2 ++ s)
| fuzzy_char c x T s :
    isspace c = false -> is_cjk c = false -> char_eqb c hyphen = false ->
    lit_match case_equiv true c x = true ->
    fuzzy_spelling case_equiv T s ->
    fuzzy_spelling case_equiv (c :: T) (x :: s).

(** [en_spelling T s]: the same for the pattern of a canonical English
    term: blanks may surround a hyphen, case is free. *)
Inductive en_spelling (case_equiv : char -> char -> bool) : str -> str -> Prop :=
| en_spelling_nil : en_spelling case_equiv [] []
| en_spelling_hyphen c x T w1 w2 s :
    char_eqb c hyphen = true ->
    forallb isspace w1 = true -> lit_match case_equiv true hyphen x = true ->
    forallb isspace w2 = true ->
    en_spelling case_equiv T s ->
    en_spelling case_equiv (c :: T) (w1 ++ x :: w2 ++ s)
| en_spelling_char c x T s :
    char_eqb c hyphen = false ->
    lit_match case_equiv true c x = true ->
    en_spelling case_equiv T s ->
    en_spelling case_equiv (c :: T) (x :: s).

(** A cell of a normalised table: a string without outer blanks. *)
Definition is_stripped_text (v : cell) : bool :=
  match v with
  | CStr s => str_eqb (strip s) s
  | _ => false
  end.

(** The pair-check record with the fields of a first-mention record. *)
Definition as_pair_issue (r : issue) : issue :=
  mkIssue MISSING_OR_WRONG_ZH (i_page r) (i_en_canonical r) (i_expected_zh r) None
    (i_context r) (i_ocr r).

(** The same table with its rows numbered from 0. *)
Definition reset_index (df : DataFrame) : DataFrame :=
  mkDF (map Z.of_nat (seq 0 (length (df_index df)))) (df_columns df).

(** The text of a string cell. *)
Definition cell_text (v : cell) : str :=
  match v with
  | CStr s => s
  | _ => []
  end.

Definition slash : char := Eval vm_compute in uc "/".

(** Examples for the variant cells, the scan and the sheet address. *)
Definition example_parts : list (str * str) :=
  Eval vm_compute in [(u "X-ray", u ","); (u "x ray", u ";/")].
Definition example_last : str := Eval vm_compute in u "Ｘ光".

Definition typo_row : term :=
  Eval vm_compute in mkTerm (u "CT") ct_zh [] ZH_EN_ABBR (u "電腦段層,C-T").
Definition typo_variant : str := Eval vm_compute in u "電腦段層".
Definition typo_page : extraction :=
  Eval vm_compute in ExtractReturns (Some (u "先做電腦 段層，再評估")).
Definition hyphen_variant : str := Eval vm_compute in u "C-T".
Definition hyphen_page : extraction :=
  Eval vm_compute in ExtractReturns (Some (u "先做C-T檢查")).

Definition example_pre : str := Eval vm_compute in u "https://docs.google.com".
Definition example_id : str := Eval vm_compute in u "1AbC-d_9".
Definition example_rest : str := Eval vm_compute in u "/edit#gid=0".

(** [token_text w]: [w] starts with an ASCII letter, ends outside the
    blanks and holds only ASCII letters, digits, hyphens and blanks. *)
Definition token_text (w : str) : Prop :=
  (exists c rest, w = c :: rest /\ cset_mem cs_alpha c = true)
  /\ (exists init c, w = init ++ [c] /\ isspace c = false)
  /\ forallb (fun c => cset_mem cs_word c || isspace c) w = true.

(** [glang r w gs]: [w] is a word of [r], and the groups of [r] hold the
    words [gs] (the group closed last comes first). *)
Inductive glang (case_equiv : char -> char -> bool) (ic : bool)
  : regex -> str -> list (group * str) -> Prop :=
| glang_eps : glang case_equiv ic Eps [] []
| glang_lit c x :
    lit_match case_equiv ic c x = true -> glang case_equiv ic (Lit c) [x] []
| glang_set p x :
    cset_mem p x = true -> glang case_equiv ic (Set_ p) [x] []
| glang_rep p lo hi w :
    forallb (cset_mem p) w = true -> lo <= length w -> within hi (length w) ->
    glang case_equiv ic (Rep p lo hi) w []
| glang_cat r1 r2 w1 w2 g1 g2 :
    glang case_equiv ic r1 w1 g1 -> glang case_equiv ic r2 w2 g2 ->
    glang case_equiv ic (Cat r1 r2) (w1 ++ w2) (g2 ++ g1)
| glang_alt_l r1 r2 w gs :
    glang case_equiv ic r1 w gs -> glang case_equiv ic (Alt r1 r2) w gs
| glang_alt_r r1 r2 w gs :
    glang case_equiv ic r2 w gs -> glang case_equiv ic (Alt r1 r2) w gs
| glang_grp g r w gs :
    glang case_equiv ic r w gs -> glang case_equiv ic (Grp g r) w ((g, w) :: gs).

Fixpoint lookup_word (g : group) (gs : list (group * str)) : str :=
  match gs with
  | (g', w) :: rest => if group_eqb g g' then w else lookup_word g rest
  | [] => []
  end.

Fixpoint no_groups (r : regex) : bool :=
  match r with
  | Cat r1 r2 | Alt r1 r2 => no_groups r1 && no_groups r2
  | Grp _ _ => false
  | _ => true
  end.

(** The spans [cs] recorded from offset [i] on, in the text [s] that starts
    at offset [i], hold the words [gs]. *)
Definition caps_hold (s : str) (i : nat) (cs : caps) (gs : list (group * str)) : Prop :=
  Forall2 (fun c gw => fst c = fst gw /\ i <= fst (snd c)
                       /\ slice s (fst (snd c) - i) (snd (snd c) - i) = snd gw)
          cs gs.

(** The fields of an extracted pair. *)
Definition CJK_RANGE : cset := Eval vm_compute in CsRange (uc "一") (uc "龥").

Definition zh_shape (z : str) : Prop :=
  2 <= length z /\ length z <= 30 /\ forallb (cset_mem CJK_RANGE) z = true.

Definition en_shape (e : str) : Prop :=
  token_text e /\ single_spaced false e = true.

Definition abbr_shape (a : str) : Prop :=
  2 <= length a /\ length a <= 11
  /\ (exists c rest, a = c :: rest /\ cset_mem cs_alpha c = true)
  /\ forallb (cset_mem cs_word) a = true.

Definition pair_shape (r : term) : Prop :=
  zh_shape (zh_canonical r) /\ en_shape (en_canonical r)
  /\ ((first_mention_style r = ZH_EN_ABBR /\ abbr_shape (abbr r))
      \/ (first_mention_style r = ZH_EN /\ abbr r = []))
  /\ variant r = [].

(** A hit of [scan] on the second of the pages [typo_page], [hyphen_page]. *)
Definition example_hit : hit :=
  Eval vm_compute in mkHit 2 hyphen_variant typo_row (u "先做C-T檢查").

(** A page with one pair, and the row [parse_pdf_pairs_with_location] gives
    for it. *)
Definition example_pair_page : str := Eval vm_compute in u "先做電腦斷層(CT)檢查".
Definition example_placed : term * place * str :=
  Eval vm_compute in
  (mkTerm (u "CT") (u "先做電腦斷層") [] ZH_EN [],
   mkPlace 1 0 example_pair_page, PDF_SOURCE).



(* ================================================================== *)
(** * Properties *)

(** ** Facts about characters and strings *)

Lemma char_eqb_refl (c : char) : char_eqb c c = true.
Proof. apply N.eqb_refl. Qed.

Lemma char_eqb_eq (a b : char) : char_eqb a b = true <-> a = b.
Proof. apply N.eqb_eq. Qed.

Lemma is_cjk_not_space (c : char) : is_cjk c = true -> isspace c = false.
Proof.
  unfold is_cjk, isspace, in_range, char_eqb. intros H.
  assert (Hc : (0x3400 <= c)%N).
  { repeat (apply orb_true_iff in H; destruct H as [H | H]);
      apply andb_true_iff in H; destruct H as [H _]; apply N.leb_le in H; lia. }
  repeat (apply orb_false_iff; split);
    try (apply andb_false_iff; right; apply N.leb_gt; lia);
    apply N.eqb_neq; lia.
Qed.

Lemma lstrip_id (s : str) :
  match s with [] => true | c :: _ => negb (isspace c) end = true -> lstrip s = s.
Proof.
  destruct s as [| c s]; simpl; [reflexivity |].
  destruct (isspace c); simpl; [discriminate | reflexivity].
Qed.

Lemma strip_no_space (s : str) :
  (forall x, In x s -> isspace x = false) -> strip s = s.
Proof.
  intros H. unfold strip, rstrip.
  assert (Hhd : forall t, (forall x, In x t -> isspace x = false) -> lstrip t = t).
  { intros t Ht. apply lstrip_id. destruct t as [| c t]; [reflexivity |].
    rewrite (Ht c); simpl; auto. }
  rewrite (Hhd s H). rewrite Hhd.
  - apply rev_involutive.
  - intros x Hx. apply H. now apply in_rev.
Qed.

Lemma strip_cjk (T : str) : forallb is_cjk T = true -> strip T = T.
Proof.
  intros H. apply strip_no_space. intros x Hx.
  apply is_cjk_not_space. rewrite forallb_forall in H. now apply H.
Qed.


(** ** Facts about the matcher *)

Section RegexFacts.

Variable case_equiv : char -> char -> bool.
Variable ic : bool.

Lemma rep_inv (A : Type) (p : cset) (s : str) :
  forall lo hi i (k : str -> nat -> option A) res,
    rep p lo hi s i k = Some res ->
    exists n, lo <= n /\ n <= length s /\ k (skipn n s) (i + n) = Some res.
Proof.
  induction s as [| x s IH]; intros lo hi i k res; simpl.
  - destruct (Nat.eqb_spec lo 0); [| discriminate]. intros H.
    exists 0. rewrite Nat.add_0_r. repeat split; auto; lia.
  - assert (Hstop : (if Nat.eqb lo 0 then k (x :: s) i else None) = Some res ->
                    exists n, lo <= n /\ n <= S (length s) /\
                              k (skipn n (x :: s)) (i + n) = Some res).
    { destruct (Nat.eqb_spec lo 0); [| discriminate]. intros H.
      exists 0. rewrite Nat.add_0_r. repeat split; auto; lia. }
    destruct (cset_mem p x && may_take hi); [| exact Hstop].
    destruct (rep p (pred lo) (dec_hi hi) s (S i) k) as [r |] eqn:E; [| exact Hstop].
    intros H. inversion H; subst r. apply IH in E. destruct E as (n & Hlo & Hn & Hk).
    exists (S n). simpl. replace (i + S n) with (S i + n) by lia.
    repeat split; auto; lia.
Qed.

Lemma mtch_inv (A : Type) (r : regex) :
  forall s i cs (k : str -> nat -> caps -> option A) res,
    mtch case_equiv ic r s i cs k = Some res ->
    exists n cs', min_len r <= n /\ n <= length s /\
                  k (skipn n s) (i + n) cs' = Some res.
Proof.
  induction r as [| c | p | p lo hi | r1 IH1 r2 IH2 | r1 IH1 r2 IH2 | g r IH];
    intros s i cs k res; simpl.
  - intros H. exists 0, cs. rewrite Nat.add_0_r. repeat split; auto; lia.
  - destruct s as [| x s]; [discriminate |].
    destruct (lit_match case_equiv ic c x); [| discriminate]. intros H.
    exists 1, cs. simpl. replace (i + 1) with (S i) by lia. repeat split; auto; lia.
  - destruct s as [| x s]; [discriminate |].
    destruct (cset_mem p x); [| discriminate]. intros H.
    exists 1, cs. simpl. replace (i + 1) with (S i) by lia. repeat split; auto; lia.
  - intros H. apply rep_inv in H. destruct H as (n & Hlo & Hn & Hk).
    exists n, cs. auto.
  - intros H. apply IH1 in H. destruct H as (n1 & cs1 & Hm1 & Hn1 & H).
    apply IH2 in H. destruct H as (n2 & cs2 & Hm2 & Hn2 & H).
    rewrite length_skipn in Hn2. rewrite skipn_skipn in H.
    exists (n2 + n1), cs2.
    replace (i + (n2 + n1)) with (i + n1 + n2) by lia.
    split; [lia | split; [lia | exact H]].
  - destruct (mtch case_equiv ic r1 s i cs k) as [x |] eqn:E.
    + intros H. inversion H; subst x. apply IH1 in E.
      destruct E as (n & cs' & Hm & Hn & Hk). exists n, cs'. repeat split; auto; lia.
    + intros H. apply IH2 in H.
      destruct H as (n & cs' & Hm & Hn & Hk). exists n, cs'. repeat split; auto; lia.
  - intros H. apply IH in H. destruct H as (n & cs' & Hm & Hn & Hk).
    exists n, ((g, (i, i + n)) :: cs'). auto.
Qed.

Lemma match_at_inv (ma : bool) (r : regex) (s : str) (i : nat) (m : rmatch) :
  match_at case_equiv ic ma r s i = Some m ->
  m_start m = i /\ i + min_len r <= m_end m /\ m_end m <= i + length s
  /\ (ma = true -> i < m_end m).
Proof.
  unfold match_at. intros H. apply mtch_inv in H.
  destruct H as (n & cs' & Hm & Hn & Hk).
  destruct ma; simpl in Hk.
  - destruct (Nat.eqb_spec (i + n) i); [discriminate |].
    inversion Hk; subst m; simpl. repeat split; auto; lia.
  - inversion Hk; subst m; simpl. repeat split; auto; try lia; discriminate.
Qed.

Lemma match_at_short (ma : bool) (r : regex) (s : str) (i : nat) :
  length s < min_len r -> match_at case_equiv ic ma r s i = None.
Proof.
  intros Hlen. destruct (match_at case_equiv ic ma r s i) as [m |] eqn:E; auto.
  apply match_at_inv in E. lia.
Qed.

(** A text shorter than any match of the pattern has no hit. *)
Lemma finditer_from_short (r : regex) (s : str) :
  forall i skip, length s < min_len r -> finditer_from case_equiv ic r s i skip = [].
Proof.
  induction s as [| x s IH]; intros i skip Hlen.
  - destruct skip; simpl; [| reflexivity].
    now rewrite match_at_short.
  - destruct skip; simpl.
    + rewrite match_at_short by assumption. apply IH. simpl in Hlen. lia.
    + apply IH. simpl in Hlen. lia.
Qed.

(** Passing over the characters of the previous match. *)
Lemma finditer_from_skip (r : regex) (a b : str) :
  forall i, finditer_from case_equiv ic r (a ++ b) i (length a)
            = finditer_from case_equiv ic r b (i + length a) 0.
Proof.
  induction a as [| x a IH]; intros i; simpl.
  - now rewrite Nat.add_0_r.
  - rewrite IH. f_equal. lia.
Qed.

End RegexFacts.

(** ** The fuzzy token pattern on CJK tokens *)

Section FuzzyPattern.

Variable case_equiv : char -> char -> bool.

(** A greedy unbounded repetition takes a whole run of the class when the
    rest of the pattern then succeeds. *)
Lemma rep_run (A : Type) (p : cset) (w s' : str) :
  forall lo i (k : str -> nat -> option A) res,
    forallb (cset_mem p) w = true ->
    match s' with [] => true | x :: _ => negb (cset_mem p x) end = true ->
    lo <= length w ->
    k s' (i + length w) = Some res ->
    rep p lo None (w ++ s') i k = Some res.
Proof.
  induction w as [| x w IH]; intros lo i k res Hw Hs Hlo Hk; simpl in *.
  - rewrite Nat.add_0_r in Hk. assert (lo = 0) as -> by lia.
    destruct s' as [| y s']; simpl; [exact Hk |].
    apply negb_true_iff in Hs. rewrite Hs. exact Hk.
  - apply andb_true_iff in Hw. destruct Hw as [Hx Hw]. rewrite Hx. simpl.
    rewrite (IH (pred lo) (S i) k res Hw Hs); [reflexivity | lia |].
    now replace (S i + length w) with (i + S (length w)) by lia.
Qed.

Lemma spaced_head (c : char) (T s : str) :
  spaced (c :: T) s -> exists s', s = c :: s'.
Proof. intros H. inversion H; subst; eauto. Qed.

Lemma spaced_refl (T : str) : spaced T T.
Proof.
  induction T as [| c T IH]; [constructor |].
  destruct T as [| d T]; [constructor |].
  apply (spaced_cons c []); auto.
Qed.

Lemma spaced_nonempty (T s : str) : spaced T s -> T <> [] -> s <> [].
Proof. intros H; inversion H; subst; congruence. Qed.

Lemma cjk_piece_cjk (c : char) :
  is_cjk c = true -> cjk_piece c = Cat (Lit c) (star CsSpace).
Proof.
  intros H. unfold cjk_piece. now rewrite (is_cjk_not_space _ H), H.
Qed.

Lemma cjk_piece_min_len (c : char) : 1 <= min_len (cjk_piece c).
Proof.
  unfold cjk_piece.
  destruct (isspace c); [simpl; lia |].
  destruct (is_cjk c); [simpl; lia |].
  destruct (char_eqb c hyphen); simpl; lia.
Qed.

Lemma join_pieces_min_len (T : str) : length T <= min_len (join (map cjk_piece T)).
Proof.
  induction T as [| c T IH]; simpl; [lia |].
  pose proof (cjk_piece_min_len c). lia.
Qed.

(** On a spaced copy of an all-CJK token the pieces consume the whole text
    without backtracking. *)
Lemma mtch_spaced (A : Type) (T s : str) :
  spaced T s ->
  forallb is_cjk T = true ->
  forall i cs (k : str -> nat -> caps -> option A) res,
    k [] (i + length s) cs = Some res ->
    mtch case_equiv true (join (map cjk_piece T)) s i cs k = Some res.
Proof.
  induction 1 as [| c | c d T w s Hw Hsp IH]; intros Hcjk i cs k res Hk.
  - simpl in *. now rewrite Nat.add_0_r in Hk.
  - simpl in Hcjk. apply andb_true_iff in Hcjk. destruct Hcjk as [Hc _].
    simpl. rewrite (cjk_piece_cjk _ Hc). simpl.
    unfold lit_match. rewrite char_eqb_refl. simpl.
    now replace (S i) with (i + 1) by lia.
  - change (forallb is_cjk (c :: d :: T))
      with (is_cjk c && forallb is_cjk (d :: T)) in Hcjk.
    apply andb_true_iff in Hcjk. destruct Hcjk as [Hc Hrest].
    change (map cjk_piece (c :: d :: T))
      with (cjk_piece c :: map cjk_piece (d :: T)).
    change (join (cjk_piece c :: map cjk_piece (d :: T)))
      with (Cat (cjk_piece c) (join (map cjk_piece (d :: T)))).
    rewrite (cjk_piece_cjk _ Hc).
    cbn [mtch star]. unfold lit_match. rewrite char_eqb_refl. cbn [orb].
    destruct (spaced_head Hsp) as (s' & ->).
    apply rep_run.
    + exact Hw.
    + simpl in Hrest. apply andb_true_iff in Hrest. destruct Hrest as [Hd _].
      cbn [cset_mem]. now rewrite (is_cjk_not_space _ Hd).
    + lia.
    + apply IH; [exact Hrest |].
      rewrite <- Hk. f_equal. simpl. rewrite length_app. simpl. lia.
Qed.

(** C1: for a token [T] of CJK characters only, the compiled fuzzy pattern
    (flag [re.I]) finds [T] itself, finds every copy of [T] with whitespace
    inserted between neighbouring characters (the hit being the whole text),
    and finds nothing in [T] with one character deleted. *)
Theorem cjk_fuzzy_pattern_cjk_token (T : str) :
  forallb is_cjk T = true ->
  finditer case_equiv true (cjk_fuzzy_pattern T) T = [mkMatch 0 (length T) []]
  /\ (forall s, spaced T s ->
        finditer case_equiv true (cjk_fuzzy_pattern T) s = [mkMatch 0 (length s) []])
  /\ (forall a c b, T = a ++ c :: b ->
        finditer case_equiv true (cjk_fuzzy_pattern T) (a ++ b) = []).
Proof.
  intros Hcjk.
  assert (Hsp : forall s, spaced T s ->
            finditer case_equiv true (cjk_fuzzy_pattern T) s = [mkMatch 0 (length s) []]).
  { intros s Hs. unfold finditer, cjk_fuzzy_pattern. rewrite (strip_cjk _ Hcjk).
    assert (Hm : match_at case_equiv true false (join (map cjk_piece T)) s 0
                 = Some (mkMatch 0 (length s) [])).
    { unfold match_at. apply mtch_spaced; auto. }
    destruct s as [| x s].
    - inversion Hs; subst. reflexivity.
    - cbn [finditer_from]. rewrite Hm. cbn [m_end length Nat.ltb Nat.leb].
      f_equal. replace (S (length s) - 0 - 1) with (length s) by lia.
      pose proof (finditer_from_skip case_equiv true (join (map cjk_piece T)) s [] 1) as Hskip.
      rewrite app_nil_r in Hskip. rewrite Hskip.
      apply finditer_from_short. simpl.
      assert (T <> []) by (intros ->; inversion Hs).
      pose proof (join_pieces_min_len T). destruct T; [congruence | simpl in *; lia]. }
  split; [apply Hsp, spaced_refl |]. split; [exact Hsp |].
  intros a c b ->. unfold finditer, cjk_fuzzy_pattern. rewrite (strip_cjk _ Hcjk).
  apply finditer_from_short.
  pose proof (join_pieces_min_len (a ++ c :: b)) as Hlen.
  rewrite !length_app in *. simpl in *. lia.
Qed.

End FuzzyPattern.

(** ** Splitting a variant cell *)

Section SplitVariants.

Variable case_equiv : char -> char -> bool.





End SplitVariants.

(** ** A page whose text extraction raises *)

Section ExtractionFailure.

Variable case_equiv : char -> char -> bool.
Variable py_lower : str -> str.
Variable upper_nonascii : char -> str.

Lemma scan_from_app (a b : list extraction) (pats : list (regex * str * term)) :
  forall pno,
    scan_from case_equiv pno (a ++ b) pats
    = scan_from case_equiv pno a pats ++ scan_from case_equiv (pno + length a) b pats.
Proof.
  induction a as [| p a IH]; intros pno; simpl.
  - now rewrite Nat.add_0_r.
  - rewrite IH, <- app_assoc. do 3 f_equal. lia.
Qed.

Lemma pages_text_from_app (opts : ocr_options) (ocr : nat -> option str)
    (a b : list extraction) :
  forall pno,
    pages_text_from case_equiv opts ocr pno (a ++ b)
    = pages_text_from case_equiv opts ocr pno a
      ++ pages_text_from case_equiv opts ocr (pno + length a) b.
Proof.
  induction a as [| p a IH]; intros pno; simpl.
  - now rewrite Nat.add_0_r.
  - rewrite IH. do 3 f_equal. lia.
Qed.

Lemma plus_pages_app (opts : plus_options) (ocr : nat -> option str)
    (term_df : list term) (a b : list extraction) :
  forall st pno,
    plus_pages case_equiv py_lower upper_nonascii opts ocr term_df st pno (a ++ b)
    = plus_pages case_equiv py_lower upper_nonascii opts ocr term_df
        (plus_pages case_equiv py_lower upper_nonascii opts ocr term_df st pno a)
        (pno + length a) b.
Proof.
  induction a as [| p a IH]; intros st pno; simpl.
  - now rewrite Nat.add_0_r.
  - rewrite IH. f_equal. lia.
Qed.

(** C9: a page on which [extract_text] raises is scanned as a page whose
    text is the empty string.  The scan is a total function, so nothing is
    propagated; the hits are those of the same document with an empty page
    in that place, and the hits of the pages before and after do not depend
    on the failing page.  The same holds for the page texts and the whole
    scan of the tools with OCR fallback. *)
Theorem extraction_failure_scans_as_empty_page
    (before after : list extraction) (pats : list (regex * str * term))
    (oopts : ocr_options) (popts : plus_options) (ocr : nat -> option str)
    (term_df : list term) :
  extract_or_empty ExtractRaises = []
  /\ scan case_equiv (before ++ ExtractRaises :: after) pats
     = scan case_equiv (before ++ ExtractReturns (Some []) :: after) pats
  /\ scan case_equiv (before ++ ExtractRaises :: after) pats
     = scan_from case_equiv 1 before pats
       ++ page_hits case_equiv (S (length before)) [] pats
       ++ scan_from case_equiv (S (S (length before))) after pats
  /\ pages_text case_equiv oopts ocr (before ++ ExtractRaises :: after)
     = pages_text case_equiv oopts ocr (before ++ ExtractReturns (Some []) :: after)
  /\ plus_scan case_equiv py_lower upper_nonascii popts ocr term_df
       (before ++ ExtractRaises :: after)
     = plus_scan case_equiv py_lower upper_nonascii popts ocr term_df
         (before ++ ExtractReturns (Some []) :: after).
Proof.
  split; [reflexivity |]. split; [| split; [| split]].
  - unfold scan. now rewrite !scan_from_app.
  - unfold scan. rewrite scan_from_app. reflexivity.
  - unfold pages_text. now rewrite !pages_text_from_app.
  - unfold plus_scan. now rewrite !plus_pages_app.
Qed.

End ExtractionFailure.

(** ** The pair check *)

Lemma str_eqb_eq (a b : str) : str_eqb a b = true <-> a = b.
Proof.
  revert b. induction a as [| x a IH]; intros [| y b]; simpl;
    try (split; [discriminate | discriminate]); [tauto |].
  rewrite andb_true_iff, char_eqb_eq, IH. split.
  - intros [-> ->]. reflexivity.
  - intros H. inversion H. auto.
Qed.

Lemma str_eqb_refl (a : str) : str_eqb a a = true.
Proof. now apply str_eqb_eq. Qed.

Lemma str_in_In (x : str) (l : list str) : str_in x l = true <-> In x l.
Proof.
  unfold str_in. rewrite existsb_exists. split.
  - intros (y & Hy & He). apply str_eqb_eq in He. now subst.
  - intros H. exists x. split; [exact H | apply str_eqb_refl].
Qed.

Lemma nonempty_true (s : str) : nonempty s = true <-> s <> [].
Proof. destruct s; simpl; split; congruence. Qed.

Section PairCheck.

Variable case_equiv : char -> char -> bool.
Variable window : Z.

Lemma in_locate (pats : list (regex * term)) (text : str) (s e : nat) (row : term) :
  In (s, e, row) (locate case_equiv pats text) <->
  exists rx m, In (rx, row) pats /\ In m (finditer case_equiv true rx text)
               /\ s = m_start m /\ e = m_end m.
Proof.
  unfold locate. rewrite in_flat_map. split.
  - intros ([rx row'] & Hp & Hin). apply in_map_iff in Hin.
    destruct Hin as (m & Heq & Hm). inversion Heq; subst. eauto 8.
  - intros (rx & m & Hp & Hm & -> & ->). exists (rx, row). split; [exact Hp |].
    apply in_map_iff. eauto.
Qed.

Lemma in_zh_pats (term_df : list term) (rx : regex) (row : term) :
  In (rx, row) (zh_pats term_df) <->
  In row term_df /\ strip (zh_canonical row) <> []
  /\ rx = cjk_pat (strip (zh_canonical row)).
Proof.
  unfold zh_pats. rewrite in_flat_map. split.
  - intros (r & Hr & Hin).
    destruct (nonempty (strip (zh_canonical r))) eqn:E; simpl in Hin; [| contradiction].
    destruct Hin as [Heq | []]. inversion Heq; subst.
    apply nonempty_true in E. auto.
  - intros (Hr & Hne & ->). exists row. split; [exact Hr |].
    apply nonempty_true in Hne. rewrite Hne. now left.
Qed.

Lemma in_en_pats (term_df : list term) (rx : regex) (row : term) :
  In (rx, row) (en_pats term_df) <->
  In row term_df /\ strip (en_canonical row) <> []
  /\ rx = en_pattern (strip (en_canonical row)).
Proof.
  unfold en_pats. rewrite in_flat_map. split.
  - intros (r & Hr & Hin).
    destruct (nonempty (strip (en_canonical r))) eqn:E; simpl in Hin; [| contradiction].
    destruct Hin as [Heq | []]. inversion Heq; subst.
    apply nonempty_true in E. auto.
  - intros (Hr & Hne & ->). exists row. split; [exact Hr |].
    apply nonempty_true in Hne. rewrite Hne. now left.
Qed.

Lemma in_zh_pats_super (termbase : list term) (rx : regex) (row : term) :
  In (rx, row) (zh_pats_super termbase) <->
  In row termbase /\ strip (zh_canonical row) <> []
  /\ rx = cjk_pat (zh_canonical row).
Proof.
  unfold zh_pats_super. rewrite in_flat_map. split.
  - intros (r & Hr & Hin).
    destruct (nonempty (strip (zh_canonical r))) eqn:E; simpl in Hin; [| contradiction].
    destruct Hin as [Heq | []]. inversion Heq; subst.
    apply nonempty_true in E. auto.
  - intros (Hr & Hne & ->). exists row. split; [exact Hr |].
    apply nonempty_true in Hne. rewrite Hne. now left.
Qed.

Lemma near_spec (zs es : nat) :
  near window zs es = true <-> (Z.abs (Z.of_nat zs - Z.of_nat es) <= window)%Z.
Proof. unfold near. apply Z.leb_le. Qed.

(** The inner loop finds a located Chinese term exactly when one of the
    located Chinese terms starts within the window and carries the expected
    Chinese text. *)
Lemma found_pair_spec (expected_zh : str) (es : nat) (zh_hits : list located) :
  found_pair window expected_zh es zh_hits = true <->
  exists zs ze zrow, In (zs, ze, zrow) zh_hits
                     /\ (Z.abs (Z.of_nat zs - Z.of_nat es) <= window)%Z
                     /\ zh_canonical zrow = expected_zh.
Proof.
  induction zh_hits as [| [[zs ze] zrow] rest IH]; simpl.
  - split; [discriminate | intros (? & ? & ? & [] & _)].
  - destruct (near window zs es) eqn:En;
      [destruct (str_eqb (zh_canonical zrow) expected_zh) eqn:Ez |].
    + split; [intros _ | reflexivity].
      exists zs, ze, zrow. apply near_spec in En. apply str_eqb_eq in Ez. auto.
    + rewrite IH. split.
      * intros (a & b & c & Hin & H). exists a, b, c. auto.
      * intros (a & b & c & [Heq | Hin] & Hn & Hz); [| eauto 6].
        inversion Heq as [[H1 H2 H3]]. rewrite <- H3 in Hz.
        apply str_eqb_eq in Hz. congruence.
    + rewrite IH. split.
      * intros (a & b & c & Hin & H). exists a, b, c. auto.
      * intros (a & b & c & [Heq | Hin] & Hn & Hz); [| eauto 6].
        inversion Heq as [[H1 H2 H3]]. rewrite <- H1 in Hn.
        apply near_spec in Hn. congruence.
Qed.

Lemma check_pair_loop_spec (pno : nat) (norm : str) (used_ocr : bool)
    (zh_hits en_hits : list located) :
  forall acc,
    check_pair_loop window pno norm used_ocr zh_hits en_hits acc
    = acc ++ flat_map (pair_issue_for window pno norm used_ocr zh_hits) en_hits.
Proof.
  induction en_hits as [| h rest IH]; intros acc; simpl.
  - now rewrite app_nil_r.
  - rewrite IH. now rewrite app_assoc.
Qed.

End PairCheck.

Section PairCheckClaim.

Variable case_equiv : char -> char -> bool.
Variable window : Z.

(** C2: on one page, for a located occurrence [(es, ee, erow)] of the
    English term of a record of the table (so a record whose English term is
    not blank), the pair check appends exactly one MISSING_OR_WRONG_ZH record
    when no located Chinese term that starts within [window] of [es] carries
    the Chinese text expected for [erow], and nothing otherwise; located
    Chinese terms of other texts do not count.  The located Chinese terms are
    the hits of the fuzzy patterns of the records whose Chinese term is not
    blank, and the page's records are those of its located English terms, in
    order. *)
Theorem pair_check_emits_iff_expected_zh_not_near
    (term_df : list term) (pno : nat) (norm : str) (used_ocr : bool)
    (es ee : nat) (erow : term) :
  In (es, ee, erow) (locate case_equiv (en_pats term_df) norm) ->
  let zh_hits := locate case_equiv (zh_pats term_df) norm in
  let new := pair_issue_for window pno norm used_ocr zh_hits (es, ee, erow) in
  let record :=
    mkIssue MISSING_OR_WRONG_ZH pno (en_canonical erow) (zh_canonical erow) None
      (window_context window norm es ee) used_ocr in
  let expected_near :=
    exists zrow m,
      In zrow term_df /\ strip (zh_canonical zrow) <> []
      /\ In m (finditer case_equiv true (cjk_pat (strip (zh_canonical zrow))) norm)
      /\ (Z.abs (Z.of_nat (m_start m) - Z.of_nat es) <= window)%Z
      /\ zh_canonical zrow = zh_canonical erow in
  (In erow term_df /\ strip (en_canonical erow) <> [])
  /\ (new = [record] <-> ~ expected_near)
  /\ (new = [] <-> expected_near)
  /\ ((forall zs ze zrow, In (zs, ze, zrow) zh_hits ->
         zh_canonical zrow <> zh_canonical erow) -> new = [record])
  /\ (forall acc,
        check_pair_loop window pno norm used_ocr zh_hits
          (locate case_equiv (en_pats term_df) norm) acc
        = acc ++ flat_map (pair_issue_for window pno norm used_ocr zh_hits)
                   (locate case_equiv (en_pats term_df) norm)).
Proof.
  intros Hen zh_hits new record expected_near.
  assert (Hfound : found_pair window (zh_canonical erow) es zh_hits = true
                   <-> expected_near).
  { rewrite found_pair_spec. unfold expected_near, zh_hits. split.
    - intros (zs & ze & zrow & Hin & Hn & Hz).
      apply in_locate in Hin. destruct Hin as (rx & m & Hp & Hm & -> & ->).
      apply in_zh_pats in Hp. destruct Hp as (Hr & Hne & ->).
      exists zrow, m. auto.
    - intros (zrow & m & Hr & Hne & Hm & Hn & Hz).
      exists (m_start m), (m_end m), zrow. split; [| auto].
      apply in_locate. exists (cjk_pat (strip (zh_canonical zrow))), m.
      split; [apply in_zh_pats; auto | auto]. }
  assert (Hnew : new = if found_pair window (zh_canonical erow) es zh_hits
                       then [] else [record]) by reflexivity.
  split; [| split; [| split; [| split]]].
  - apply in_locate in Hen. destruct Hen as (rx & m & Hp & _).
    apply in_en_pats in Hp. tauto.
  - rewrite Hnew. destruct (found_pair window (zh_canonical erow) es zh_hits).
    + split; [discriminate |]. intros Hno. exfalso. apply Hno. now apply Hfound.
    + split; [| reflexivity]. intros _ Hex. apply Hfound in Hex. discriminate.
  - rewrite Hnew. destruct (found_pair window (zh_canonical erow) es zh_hits).
    + split; [| reflexivity]. intros _. now apply Hfound.
    + split; [discriminate |]. intros Hex. apply Hfound in Hex. discriminate.
  - intros Hother. rewrite Hnew.
    destruct (found_pair window (zh_canonical erow) es zh_hits) eqn:E; [| reflexivity].
    apply found_pair_spec in E. destruct E as (zs & ze & zrow & Hin & _ & Hz).
    exfalso. exact (Hother zs ze zrow Hin Hz).
  - intros acc. apply check_pair_loop_spec.
Qed.

(** The same check in [app_streamlit_super.py], whose patterns are built
    from the stored fields. *)
Lemma super_pair_check_emits_iff_expected_zh_not_near
    (termbase : list term) (pno : nat) (text : str) (es ee : nat) (erow : term) :
  let zh_hits := locate case_equiv (zh_pats_super termbase) text in
  let new := pair_issue_for window pno text false zh_hits (es, ee, erow) in
  let expected_near :=
    exists zrow m,
      In zrow termbase /\ strip (zh_canonical zrow) <> []
      /\ In m (finditer case_equiv true (cjk_pat (zh_canonical zrow)) text)
      /\ (Z.abs (Z.of_nat (m_start m) - Z.of_nat es) <= window)%Z
      /\ zh_canonical zrow = zh_canonical erow in
  (length new = 1 <-> ~ expected_near) /\ (length new = 0 <-> expected_near).
Proof.
  intros zh_hits new expected_near.
  assert (Hfound : found_pair window (zh_canonical erow) es zh_hits = true
                   <-> expected_near).
  { rewrite found_pair_spec. unfold expected_near, zh_hits. split.
    - intros (zs & ze & zrow & Hin & Hn & Hz).
      apply in_locate in Hin. destruct Hin as (rx & m & Hp & Hm & -> & ->).
      apply in_zh_pats_super in Hp. destruct Hp as (Hr & Hne & ->).
      exists zrow, m. auto.
    - intros (zrow & m & Hr & Hne & Hm & Hn & Hz).
      exists (m_start m), (m_end m), zrow. split; [| auto].
      apply in_locate. exists (cjk_pat (zh_canonical zrow)), m.
      split; [apply in_zh_pats_super; auto | auto]. }
  unfold new, pair_issue_for.
  destruct (found_pair window (zh_canonical erow) es zh_hits); simpl.
  - split; split; try discriminate; try reflexivity.
    + intros Hno. exfalso. apply Hno. now apply Hfound.
    + intros _. now apply Hfound.
  - split; split; try discriminate; try reflexivity.
    + intros _ Hex. apply Hfound in Hex. discriminate.
    + intros Hex. apply Hfound in Hex. discriminate.
Qed.

Lemma super_pair_issues_from_spec (termbase : list term) (pages_text : list str) :
  forall pno acc,
    super_pair_issues_from case_equiv window termbase pno pages_text acc
    = acc ++ concat
        (map (fun '(n, text) =>
                flat_map (pair_issue_for window n text false
                            (locate case_equiv (zh_pats_super termbase) text))
                         (locate case_equiv (en_pats_super termbase) text))
             (combine (seq pno (length pages_text)) pages_text)).
Proof.
  induction pages_text as [| text rest IH]; intros pno acc; simpl.
  - now rewrite app_nil_r.
  - rewrite IH, check_pair_loop_spec. now rewrite app_assoc.
Qed.

End PairCheckClaim.

(** ** The first-mention check *)

Section FirstMention.

Variable case_equiv : char -> char -> bool.
Variable py_lower : str -> str.
Variable upper_nonascii : char -> str.
Variable window : Z.

Local Abbreviation first_mention_for' :=
  (first_mention_for py_lower upper_nonascii window).
Local Abbreviation check_first_loop' :=
  (check_first_loop py_lower upper_nonascii window).
Local Abbreviation hit_key := (fun h : located => py_lower (en_canonical (snd h))).

Lemma has_zh_near_found_pair (expected_zh : str) (es : nat) (zh_hits : list located) :
  has_zh_near window expected_zh es zh_hits = found_pair window expected_zh es zh_hits.
Proof.
  induction zh_hits as [| [[zs ze] zrow] rest IH]; simpl; [reflexivity |].
  rewrite IH. destruct (near window zs es); simpl; [| reflexivity].
  now destruct (str_eqb (zh_canonical zrow) expected_zh).
Qed.

(** A style that begins with "ZH(" still does after [upper()]. *)
Lemma startswith_upper_ZH (fmt : str) :
  startswith fmt ZH_paren = true ->
  startswith (py_upper upper_nonascii fmt) ZH_paren = true.
Proof.
  unfold ZH_paren. intros H.
  destruct fmt as [| a [| b [| c rest]]]; simpl in H;
    rewrite ?andb_false_r in H; try discriminate.
  apply andb_true_iff in H. destruct H as [Ha H].
  apply andb_true_iff in H. destruct H as [Hb H].
  apply andb_true_iff in H. destruct H as [Hc _].
  apply char_eqb_eq in Ha, Hb, Hc. subst a b c.
  change (py_upper upper_nonascii (0x5a :: 0x48 :: 0x28 :: rest)%N)
    with (0x5a :: 0x48 :: 0x28 :: py_upper upper_nonascii rest)%N.
  reflexivity.
Qed.

Lemma first_mention_for_seen (pno : nat) (norm : str) (used_ocr : bool)
    (zh_hits : list located) (seen : list str) (h : located) :
  In (hit_key h) seen ->
  first_mention_for' pno norm used_ocr zh_hits seen h = (seen, []).
Proof.
  destruct h as [[es ee] erow]. cbn [snd]. intros Hin.
  apply str_in_In in Hin. unfold first_mention_for. now rewrite Hin.
Qed.

Lemma first_mention_for_new (pno : nat) (norm : str) (used_ocr : bool)
    (zh_hits : list located) (seen : list str) (es ee : nat) (erow : term) :
  ~ In (py_lower (en_canonical erow)) seen ->
  first_mention_for' pno norm used_ocr zh_hits seen (es, ee, erow)
  = (py_lower (en_canonical erow) :: seen,
     if startswith (py_upper upper_nonascii (first_mention_style erow)) ZH_paren
        && negb (found_pair window (zh_canonical erow) es zh_hits)
     then [mkIssue FIRST_MENTION_MISSING_ZH pno (en_canonical erow)
             (zh_canonical erow) (Some (abbr erow))
             (window_context window norm es ee) used_ocr]
     else []).
Proof.
  intros Hnot. unfold first_mention_for.
  destruct (str_in (py_lower (en_canonical erow)) seen) eqn:E.
  - apply str_in_In in E. contradiction.
  - cbn [negb]. rewrite has_zh_near_found_pair.
    destruct (startswith (py_upper upper_nonascii (first_mention_style erow)) ZH_paren);
      cbn [andb]; [| reflexivity].
    now destruct (found_pair window (zh_canonical erow) es zh_hits).
Qed.

Lemma first_mention_for_fst (pno : nat) (norm : str) (used_ocr : bool)
    (zh_hits : list located) (seen : list str) (h : located) (k : str) :
  In k (fst (first_mention_for' pno norm used_ocr zh_hits seen h))
  <-> In k seen \/ k = hit_key h.
Proof.
  destruct h as [[es ee] erow]. cbn [snd].
  destruct (in_dec str_eq_dec (py_lower (en_canonical erow)) seen) as [Hin | Hnot].
  - rewrite (first_mention_for_seen pno norm used_ocr zh_hits seen (es, ee, erow) Hin).
    simpl. split; [auto | intros [H | ->]; auto].
  - rewrite first_mention_for_new by assumption. simpl.
    split; intros [H | H]; auto.
Qed.

Lemma check_first_loop_cons (pno : nat) (norm : str) (used_ocr : bool)
    (zh_hits : list located) (h : located) (rest : list located)
    (seen : list str) (acc : list issue) :
  check_first_loop' pno norm used_ocr zh_hits (h :: rest) seen acc
  = check_first_loop' pno norm used_ocr zh_hits rest
      (fst (first_mention_for' pno norm used_ocr zh_hits seen h))
      (acc ++ snd (first_mention_for' pno norm used_ocr zh_hits seen h)).
Proof.
  cbn [check_first_loop].
  now destruct (first_mention_for' pno norm used_ocr zh_hits seen h).
Qed.

Lemma check_first_loop_app (pno : nat) (norm : str) (used_ocr : bool)
    (zh_hits : list located) (pre post : list located) :
  forall seen acc,
    check_first_loop' pno norm used_ocr zh_hits (pre ++ post) seen acc
    = check_first_loop' pno norm used_ocr zh_hits post
        (fst (check_first_loop' pno norm used_ocr zh_hits pre seen acc))
        (snd (check_first_loop' pno norm used_ocr zh_hits pre seen acc)).
Proof.
  induction pre as [| h pre IH]; intros seen acc.
  - reflexivity.
  - rewrite <- app_comm_cons, !check_first_loop_cons. apply IH.
Qed.

(** After the loop, the seen-set holds the keys it held before and the
    keys of the hits gone through. *)
Lemma check_first_loop_seen (pno : nat) (norm : str) (used_ocr : bool)
    (zh_hits : list located) (hits : list located) :
  forall seen acc k,
    In k (fst (check_first_loop' pno norm used_ocr zh_hits hits seen acc))
    <-> In k seen \/ In k (map hit_key hits).
Proof.
  induction hits as [| h hits IH]; intros seen acc k.
  - simpl. tauto.
  - rewrite check_first_loop_cons, IH, first_mention_for_fst. simpl.
    split; intros H; intuition auto.
Qed.

(** The first-mention check of [app_streamlit_plus.py] on the located
    English terms [pre ++ h :: post] of a page, [seen0] being the seen-set
    left by the pages before: the key of [h] is in the seen-set when [h] is
    reached exactly if it was seen on an earlier page or belongs to a hit of
    [pre]; in that case [h] adds no record; otherwise, when the style of
    its record begins with "ZH(", it adds one FIRST_MENTION_MISSING_ZH
    record exactly if no located Chinese term within the window carries the
    expected Chinese text. *)
Lemma plus_first_mention_spec (pno : nat) (norm : str) (used_ocr : bool)
    (zh_hits pre post : list located) (es ee : nat) (erow : term)
    (seen0 : list str) (acc : list issue) :
  let key := py_lower (en_canonical erow) in
  let before := check_first_loop' pno norm used_ocr zh_hits pre seen0 acc in
  let step := first_mention_for' pno norm used_ocr zh_hits (fst before) (es, ee, erow) in
  let record :=
    mkIssue FIRST_MENTION_MISSING_ZH pno (en_canonical erow) (zh_canonical erow)
      (Some (abbr erow)) (window_context window norm es ee) used_ocr in
  let expected_near :=
    exists zs ze zrow, In (zs, ze, zrow) zh_hits
                       /\ (Z.abs (Z.of_nat zs - Z.of_nat es) <= window)%Z
                       /\ zh_canonical zrow = zh_canonical erow in
  check_first_loop' pno norm used_ocr zh_hits (pre ++ (es, ee, erow) :: post) seen0 acc
  = check_first_loop' pno norm used_ocr zh_hits post (fst step) (snd before ++ snd step)
  /\ (In key (fst before) <-> In key seen0 \/ In key (map hit_key pre))
  /\ (In key (fst before) -> snd step = [])
  /\ (~ In key (fst before) ->
      startswith (first_mention_style erow) ZH_paren = true ->
      (snd step = [record] <-> ~ expected_near)
      /\ (snd step = [] <-> expected_near)).
Proof.
  intros key before step record expected_near.
  split; [| split; [| split]].
  - rewrite check_first_loop_app, check_first_loop_cons. reflexivity.
  - apply check_first_loop_seen.
  - intros Hin. unfold step.
    now rewrite (first_mention_for_seen pno norm used_ocr zh_hits (fst before)
                   (es, ee, erow) Hin).
  - intros Hnot Hstyle. unfold step. rewrite first_mention_for_new by exact Hnot.
    rewrite (startswith_upper_ZH _ Hstyle). cbn [snd andb].
    pose proof (found_pair_spec window (zh_canonical erow) es zh_hits) as Hf.
    fold expected_near in Hf.
    destruct (found_pair window (zh_canonical erow) es zh_hits); cbn [negb].
    + split; split; try discriminate; try reflexivity.
      * intros Hno. exfalso. apply Hno. now apply Hf.
      * intros _. now apply Hf.
    + split; split; try discriminate; try reflexivity.
      * intros _ Hex. apply Hf in Hex. discriminate.
      * intros Hex. apply Hf in Hex. discriminate.
Qed.

(** The two checks of a page do not feed each other. *)
Lemma plus_page_checks_independent (opts : plus_options) (ocr : nat -> option str)
    (term_df : list term) (st : plus_state) (pno : nat) (page : extraction)
    (b : bool) (other : list issue) :
  check_first opts = true ->
  first_mentions
    (plus_page case_equiv py_lower upper_nonascii
       (mkPlusOptions (plus_ocr opts) b true (plus_window opts)) ocr term_df
       (mkPlusState (known_hits st) other (first_mentions st) (seen_terms st))
       pno page)
  = first_mentions (plus_page case_equiv py_lower upper_nonascii opts ocr term_df st pno page).
Proof.
  intros Hf. unfold plus_page. cbn [plus_ocr check_pair check_first plus_window
    known_hits pair_issues first_mentions seen_terms].
  rewrite Hf, !orb_true_r.
  destruct (page_text case_equiv (plus_ocr opts) ocr pno page) as [norm used_ocr].
  destruct (check_first_loop _ _ _ _ _ _ _ _ _ _) as [seen firsts].
  reflexivity.
Qed.

End FirstMention.

(** ** The first-mention check of [app_streamlit_super.py] *)

Section SuperFirstMention.

Variable case_equiv : char -> char -> bool.
Variable py_lower : str -> str.
Variable upper_nonascii : char -> str.
Variable window : Z.
Variable termbase : list term.

Lemma super_first_mention_for_raises (pno : nat) (text : str)
    (zh_hits : list located) (seen : list str) (row : term) (m : rmatch) :
  super_first_mention_for py_lower upper_nonascii window pno text zh_hits seen row m
  = Raise TypeError.
Proof. reflexivity. Qed.

Lemma super_first_matches_spec (pno : nat) (text : str) (zh_hits : list located)
    (row : term) (ms : list rmatch) (seen : list str) (acc : list issue) :
  super_first_matches py_lower upper_nonascii window pno text zh_hits row ms seen acc
  = match ms with [] => Ok (seen, acc) | _ :: _ => Raise TypeError end.
Proof. destruct ms; reflexivity. Qed.

Lemma super_first_pats_spec (pno : nat) (text : str) (zh_hits : list located)
    (pats : list (regex * term)) :
  forall seen acc,
    super_first_pats case_equiv py_lower upper_nonascii window pno text zh_hits
      pats seen acc
    = match locate case_equiv pats text with
      | [] => Ok (seen, acc)
      | _ :: _ => Raise TypeError
      end.
Proof.
  induction pats as [| [rx row] pats IH]; intros seen acc; [reflexivity |].
  cbn [super_first_pats]. rewrite super_first_matches_spec.
  unfold locate. cbn [flat_map]. fold (locate case_equiv pats text).
  destruct (finditer case_equiv true rx text) as [| m ms]; cbn [bind map app fst snd].
  - apply IH.
  - reflexivity.
Qed.

(** Section 4 of [app_streamlit_super.py] raises [TypeError] as soon as an
    English term of the table is located on a page, and yields no record
    otherwise. *)
Lemma super_first_mentions_from_spec (pages_text : list str) :
  forall pno seen acc,
    super_first_mentions_from case_equiv py_lower upper_nonascii window termbase
      pno pages_text seen acc
    = if forallb (fun text =>
                    match locate case_equiv (en_pats_super termbase) text with
                    | [] => true
                    | _ :: _ => false
                    end) pages_text
      then Ok acc else Raise TypeError.
Proof.
  induction pages_text as [| text rest IH]; intros pno seen acc; [reflexivity |].
  cbn [super_first_mentions_from forallb]. rewrite super_first_pats_spec.
  destruct (locate case_equiv (en_pats_super termbase) text); cbn [bind fst snd andb].
  - apply IH.
  - reflexivity.
Qed.

Lemma super_first_mentions_never_reports (pages_text : list str) (l : list issue) :
  super_first_mentions case_equiv py_lower upper_nonascii window termbase pages_text
  = Ok l -> l = [].
Proof.
  unfold super_first_mentions. rewrite super_first_mentions_from_spec.
  destruct (forallb _ pages_text); [| discriminate]. intros H. now inversion H.
Qed.

End SuperFirstMention.

(** ** Dropping duplicate keys *)

Lemma triple_eqb_eq (a b : triple) : triple_eqb a b = true <-> a = b.
Proof.
  destruct a as [[a1 a2] a3], b as [[b1 b2] b3]. unfold triple_eqb.
  rewrite !andb_true_iff, !str_eqb_eq. split.
  - intros [[-> ->] ->]. reflexivity.
  - intros H. inversion H. auto.
Qed.

Lemma triple_in_spec (k : triple) (seen : list triple) :
  existsb (triple_eqb k) seen = true <-> In k seen.
Proof.
  rewrite existsb_exists. split.
  - intros (x & Hx & He). apply triple_eqb_eq in He. now subst.
  - intros H. exists k. split; [exact H | now apply triple_eqb_eq].
Qed.

Section DropDuplicates.

Variable A : Type.
Variable key : A -> triple.

Lemma drop_duplicates_from_in (rows : list A) :
  forall seen r,
    In r (drop_duplicates_from key seen rows) -> In r rows /\ ~ In (key r) seen.
Proof.
  induction rows as [| x rows IH]; intros seen r; simpl; [tauto |].
  destruct (existsb (triple_eqb (key x)) seen) eqn:E.
  - intros H. apply IH in H. tauto.
  - intros [-> | H].
    + split; [now left |]. intros Hin. apply triple_in_spec in Hin. congruence.
    + apply IH in H. destruct H as [H1 H2]. split; [now right |].
      intros Hin. apply H2. now right.
Qed.

Lemma drop_duplicates_from_nodup (rows : list A) :
  forall seen, NoDup (map key (drop_duplicates_from key seen rows)).
Proof.
  induction rows as [| x rows IH]; intros seen; simpl; [constructor |].
  destruct (existsb (triple_eqb (key x)) seen) eqn:E; [apply IH |].
  simpl. constructor; [| apply IH].
  intros Hin. apply in_map_iff in Hin. destruct Hin as (r & Hk & Hr).
  apply drop_duplicates_from_in in Hr. destruct Hr as [_ Hr].
  apply Hr. rewrite Hk. now left.
Qed.

(** The row kept for a key is the first row that carries it. *)
Lemma drop_duplicates_from_first (rows : list A) :
  forall seen r,
    In r rows -> ~ In (key r) seen ->
    exists pre r' post,
      rows = pre ++ r' :: post /\ key r' = key r
      /\ (forall x, In x pre -> key x <> key r)
      /\ In r' (drop_duplicates_from key seen rows).
Proof.
  induction rows as [| x rows IH]; intros seen r Hin Hseen; [contradiction |].
  simpl. destruct (triple_eqb (key x) (key r)) eqn:Ek.
  - apply triple_eqb_eq in Ek. exists [], x, rows.
    split; [reflexivity |]. split; [exact Ek |]. split; [intros ? [] |].
    destruct (existsb (triple_eqb (key x)) seen) eqn:E.
    + apply triple_in_spec in E. rewrite Ek in E. contradiction.
    + now left.
  - assert (Hne : key x <> key r).
    { intros Heq. apply triple_eqb_eq in Heq. congruence. }
    destruct Hin as [-> | Hin]; [congruence |].
    destruct (existsb (triple_eqb (key x)) seen) eqn:E.
    + destruct (IH seen r Hin Hseen) as (pre & r' & post & -> & Hk & Hpre & Hr').
      exists (x :: pre), r', post. repeat split; auto.
      intros y [-> | Hy]; auto.
    + destruct (IH (key x :: seen) r Hin) as (pre & r' & post & -> & Hk & Hpre & Hr').
      { intros [Heq | H]; [congruence | contradiction]. }
      exists (x :: pre), r', post. repeat split; auto.
      * intros y [-> | Hy]; auto.
      * now right.
Qed.

Lemma drop_duplicates_nodup_id (rows : list A) :
  forall seen,
    NoDup (map key rows) -> (forall r, In r rows -> ~ In (key r) seen) ->
    drop_duplicates_from key seen rows = rows.
Proof.
  induction rows as [| x rows IH]; intros seen Hnd Hseen; [reflexivity |].
  simpl. inversion Hnd as [| k ks Hx Hnd']; subst.
  destruct (existsb (triple_eqb (key x)) seen) eqn:E.
  - apply triple_in_spec in E. exfalso. apply (Hseen x); [now left | exact E].
  - f_equal. apply IH; [exact Hnd' |].
    intros r Hr [Heq | Hin].
    + apply Hx. rewrite Heq. now apply in_map.
    + apply (Hseen r); [now right | exact Hin].
Qed.

End DropDuplicates.

(** ** The bilingual pair extractor *)

Lemma first_occurrence_in_left (X K : Type) (key : X -> K) (a b pre post : list X)
    (r r' : X) :
  a ++ b = pre ++ r' :: post -> In r a ->
  (forall x, In x pre -> key x <> key r) -> In r' a.
Proof.
  revert pre. induction a as [| t a IH]; intros pre Heq Hr Hpre; [contradiction |].
  destruct pre as [| p pre]; simpl in Heq; inversion Heq; subst.
  - now left.
  - destruct Hr as [-> | Hr].
    + exfalso. apply (Hpre r); [now left | reflexivity].
    + right. apply (IH pre); auto. intros x Hx. apply Hpre. now right.
Qed.

Section PairExtractor.

Variable case_equiv : char -> char -> bool.

Local Abbreviation row1 :=
  (fun text m => mkTerm (en_of case_equiv text m) (zh_of text m) (abbr_of text m)
                   ZH_EN_ABBR []).
Local Abbreviation rowk :=
  (fun text m => mkTerm (en_of case_equiv text m) (zh_of text m) [] ZH_EN []).

Lemma in_rows_abbr (text : str) (pat : regex) (r : term) :
  In r (rows_abbr case_equiv text pat) <->
  exists m, In m (finditer case_equiv false pat text) /\ r = row1 text m.
Proof.
  unfold rows_abbr. rewrite in_map_iff. split; intros (m & H1 & H2); eauto.
Qed.

Lemma in_rows_plain (text : str) (pat : regex) (r : term) :
  In r (rows_plain case_equiv text pat) <->
  exists m, In m (finditer case_equiv false pat text) /\ r = rowk text m.
Proof.
  unfold rows_plain. rewrite in_map_iff. split; intros (m & H1 & H2); eauto.
Qed.

(** Deduplicating the rows of pattern 1 followed by rows of the other
    patterns: keys are unique, every row of pattern 1 survives as it is,
    every other row is represented by a row of its key, and nothing else
    appears. *)
Lemma tagged_rows_spec (text : str) (others : list term) :
  let tagged := rows_abbr case_equiv text pat1 in
  let rows := drop_duplicates term_key (tagged ++ others) in
  NoDup (map term_key rows)
  /\ (forall r, In r tagged -> In r rows)
  /\ (forall r, In r others -> exists r', In r' rows /\ term_key r' = term_key r)
  /\ (forall r, In r rows -> In r tagged \/ In r others).
Proof.
  intros tagged rows. split; [| split; [| split]].
  - apply drop_duplicates_from_nodup.
  - intros r Hr.
    destruct (@drop_duplicates_from_first term term_key (tagged ++ others) [] r)
      as (pre & r' & post & Heq & Hk & Hpre & Hr'); [apply in_or_app; auto | auto |].
    pose proof (@first_occurrence_in_left _ _ term_key _ _ _ _ _ _ Heq Hr Hpre) as Hin'.
    apply in_rows_abbr in Hr. destruct Hr as (m & Hm & ->).
    apply in_rows_abbr in Hin'. destruct Hin' as (m' & Hm' & ->).
    unfold term_key in Hk. cbn [en_canonical zh_canonical abbr] in Hk.
    injection Hk as H1 H2 H3.
    unfold rows, drop_duplicates. rewrite H1, H2, H3 in Hr'. exact Hr'.
  - intros r Hr.
    destruct (@drop_duplicates_from_first term term_key (tagged ++ others) [] r)
      as (pre & r' & post & Heq & Hk & Hpre & Hr'); [apply in_or_app; auto | auto |].
    exists r'. auto.
  - intros r Hr. apply drop_duplicates_from_in in Hr. destruct Hr as [Hr _].
    now apply in_app_or.
Qed.

Lemma drop_duplicates_from_tag (X : Type) (tag : X) (rows : list term) :
  forall seen,
    drop_duplicates_from (fun r : term * X => term_key (fst r)) seen
      (map (fun t => (t, tag)) rows)
    = map (fun t => (t, tag)) (drop_duplicates_from term_key seen rows).
Proof.
  induction rows as [| r rows IH]; intros seen; simpl; [reflexivity |].
  destruct (existsb (triple_eqb (term_key r)) seen); simpl; now rewrite IH.
Qed.

(** C5: the example text yields exactly the pair (Stroke, 腦中風, CVA) tagged
    "ZH(EN;ABBR)", with either extractor.  For every text, the result has one
    row per (English, Chinese, abbreviation); each match of pattern 1 is in
    it as a row tagged "ZH(EN;ABBR)"; each match of another pattern is
    represented by a row of its key; and every row of the result is the row
    of a match of pattern 1, tagged "ZH(EN;ABBR)", or the row of a match of
    another pattern, tagged "ZH(EN)" and without abbreviation. *)
Theorem parse_pdf_pairs_tags_and_dedups (text : str) :
  parse_pdf_pairs case_equiv stroke_text = [stroke_pair]
  /\ parse_pdf_pairs_extract case_equiv stroke_text = [(stroke_pair, PDF_SOURCE)]
  /\ (let rows := parse_pdf_pairs case_equiv text in
      NoDup (map term_key rows)
      /\ (forall m, In m (finditer case_equiv false pat1 text) -> In (row1 text m) rows)
      /\ (forall m pat, In pat [pat2; pat3] ->
            In m (finditer case_equiv false pat text) ->
            exists r, In r rows /\ term_key r = term_key (rowk text m))
      /\ (forall r, In r rows ->
            (exists m, In m (finditer case_equiv false pat1 text) /\ r = row1 text m)
            \/ (exists m pat, In pat [pat2; pat3]
                              /\ In m (finditer case_equiv false pat text)
                              /\ r = rowk text m)))
  /\ (let rows := map fst (parse_pdf_pairs_extract case_equiv text) in
      NoDup (map term_key rows)
      /\ (forall m, In m (finditer case_equiv false pat1 text) -> In (row1 text m) rows)
      /\ (forall m pat, In pat [pat2; pat3; pat4; pat5] ->
            In m (finditer case_equiv false pat text) ->
            exists r, In r rows /\ term_key r = term_key (rowk text m))
      /\ (forall r, In r rows ->
            (exists m, In m (finditer case_equiv false pat1 text) /\ r = row1 text m)
            \/ (exists m pat, In pat [pat2; pat3; pat4; pat5]
                              /\ In m (finditer case_equiv false pat text)
                              /\ r = rowk text m))).
Proof.
  split; [vm_compute; reflexivity |]. split; [vm_compute; reflexivity |]. split.
  - intros rows.
    destruct (tagged_rows_spec text
                (rows_plain case_equiv text pat2 ++ rows_plain case_equiv text pat3))
      as (Hnd & Htag & Hoth & Hall).
    split; [exact Hnd |]. split; [| split].
    + intros m Hm. apply Htag. apply in_rows_abbr. eauto.
    + intros m pat Hpat Hm. apply Hoth.
      simpl in Hpat. rewrite !in_app_iff, !in_rows_plain.
      destruct Hpat as [<- | [<- | []]]; eauto.
    + intros r Hr. apply Hall in Hr. destruct Hr as [Hr | Hr].
      * left. now apply in_rows_abbr.
      * right. rewrite !in_app_iff, !in_rows_plain in Hr.
        destruct Hr as [(m & Hm & ->) | (m & Hm & ->)].
        -- exists m, pat2. simpl. auto.
        -- exists m, pat3. simpl. auto.
  - intros rows.
    assert (Hrows : rows = drop_duplicates term_key
                      (rows_abbr case_equiv text pat1
                       ++ (rows_plain case_equiv text pat2
                           ++ rows_plain case_equiv text pat3
                           ++ rows_plain case_equiv text pat4
                           ++ rows_plain case_equiv text pat5))).
    { unfold rows, parse_pdf_pairs_extract, drop_duplicates.
      rewrite drop_duplicates_from_tag, map_map. cbn [fst]. apply map_id. }
    rewrite Hrows.
    destruct (tagged_rows_spec text
                (rows_plain case_equiv text pat2 ++ rows_plain case_equiv text pat3
                 ++ rows_plain case_equiv text pat4 ++ rows_plain case_equiv text pat5))
      as (Hnd & Htag & Hoth & Hall).
    split; [exact Hnd |]. split; [| split].
    + intros m Hm. apply Htag. apply in_rows_abbr. eauto.
    + intros m pat Hpat Hm. apply Hoth.
      simpl in Hpat. rewrite !in_app_iff, !in_rows_plain.
      destruct Hpat as [<- | [<- | [<- | [<- | []]]]]; eauto 6.
    + intros r Hr. apply Hall in Hr. destruct Hr as [Hr | Hr].
      * left. now apply in_rows_abbr.
      * right. rewrite !in_app_iff, !in_rows_plain in Hr.
        destruct Hr as [(m & Hm & ->) | [(m & Hm & ->) | [(m & Hm & ->) | (m & Hm & ->)]]].
        -- exists m, pat2. simpl. auto.
        -- exists m, pat3. simpl. auto.
        -- exists m, pat4. simpl. auto.
        -- exists m, pat5. simpl. auto 6.
Qed.

End PairExtractor.

(** ** Frames: reading and writing columns *)

Lemma filter_map_same (X : Type) (p : X -> bool) (f : X -> X) (l : list X) :
  (forall x, p (f x) = p x) -> filter p (map f l) = map f (filter p l).
Proof.
  intros H. induction l as [| x l IH]; simpl; [reflexivity |].
  rewrite H. destruct (p x); simpl; now rewrite IH.
Qed.

Lemma filter_none (X : Type) (p : X -> bool) (l : list X) :
  existsb p l = false -> filter p l = [].
Proof.
  induction l as [| x l IH]; simpl; [reflexivity |].
  destruct (p x); simpl; [discriminate | exact IH].
Qed.

Lemma filter_some (X : Type) (p : X -> bool) (l : list X) :
  existsb p l = true -> filter p l <> [].
Proof.
  induction l as [| x l IH]; simpl; [discriminate |].
  destruct (p x); simpl; [discriminate | exact IH].
Qed.

Lemma named_refl (c : str) (vals : list cell) : named c (c, vals) = true.
Proof. apply str_eqb_refl. Qed.

Lemma named_other (c c' : str) (col : column) :
  c' <> c -> named c col = true -> named c' col = false.
Proof.
  unfold named. intros Hne H. apply str_eqb_eq in H.
  destruct (str_eqb (fst col) c') eqn:E; [| reflexivity].
  apply str_eqb_eq in E. congruence.
Qed.

Lemma getitem_missing (c : str) (df : DataFrame) :
  has_column c df = false -> getitem c df = Raise KeyError.
Proof. unfold has_column, getitem. intros H. now rewrite (filter_none _ _ H). Qed.

Lemma getitem_present (c : str) (df : DataFrame) :
  has_column c df = true -> getitem c df <> Raise AttributeError ->
  exists col, filter (named c) (df_columns df) = [col] /\ getitem c df = Ok (snd col).
Proof.
  unfold has_column, getitem. intros H Hna. apply filter_some in H.
  destruct (filter (named c) (df_columns df)) as [| col [| col2 rest]];
    [congruence | eauto | congruence].
Qed.

Lemma getitem_setitem_same (c : str) (vals : list cell) (df : DataFrame) :
  getitem c df <> Raise AttributeError ->
  getitem c (setitem c vals df) = Ok vals.
Proof.
  intros Hna. unfold setitem. destruct (has_column c df) eqn:Eh.
  - destruct (getitem_present _ _ Eh Hna) as (col & Hf & _).
    unfold getitem. cbn [df_columns].
    replace (filter (named c)
               (map (fun col0 => if named c col0 then (c, vals) else col0) (df_columns df)))
      with (map (fun col0 : column => if named c col0 then (c, vals) else col0)
                (filter (named c) (df_columns df))).
    + rewrite Hf. simpl.
      assert (Hc : named c col = true).
      { assert (Hin : In col (filter (named c) (df_columns df))) by (rewrite Hf; now left).
        apply filter_In in Hin. tauto. }
      now rewrite Hc.
    + symmetry. apply filter_map_same. intros x.
      destruct (named c x) eqn:E; [apply named_refl | exact E].
  - unfold getitem. cbn [df_columns]. rewrite filter_app.
    unfold has_column in Eh. rewrite (filter_none _ _ Eh). simpl.
    now rewrite named_refl.
Qed.

Lemma getitem_setitem_other (c c' : str) (vals : list cell) (df : DataFrame) :
  c' <> c -> getitem c' (setitem c vals df) = getitem c' df.
Proof.
  intros Hne. unfold setitem, getitem. destruct (has_column c df); cbn [df_columns].
  - replace (filter (named c')
               (map (fun col0 => if named c col0 then (c, vals) else col0) (df_columns df)))
      with (filter (named c') (df_columns df)); [reflexivity |].
    induction (df_columns df) as [| x l IH]; simpl; [reflexivity |].
    destruct (named c x) eqn:E.
    + rewrite (named_other _ Hne E).
      assert (Hf : named c' (c, vals) = false)
        by (apply (named_other _ Hne); apply named_refl).
      rewrite Hf. exact IH.
    + destruct (named c' x); now rewrite IH.
  - rewrite filter_app. simpl.
    assert (Hf : named c' (c, vals) = false)
      by (apply (named_other _ Hne); apply named_refl).
    rewrite Hf. now rewrite app_nil_r.
Qed.

Lemma index_setitem (c : str) (vals : list cell) (df : DataFrame) :
  df_index (setitem c vals df) = df_index df.
Proof. unfold setitem. now destruct (has_column c df). Qed.

Lemma getitem_take_rows (c : str) (mask : list bool) (df : DataFrame) :
  getitem c (take_rows mask df)
  = match getitem c df with
    | Ok vals => Ok (filter_mask mask vals)
    | Raise e => Raise e
    end.
Proof.
  unfold getitem, take_rows. cbn [df_columns].
  rewrite (@filter_map_same column (named c)
             (fun col => (fst col, filter_mask mask (snd col)))); [| reflexivity].
  destruct (filter (named c) (df_columns df)) as [| col [| col2 rest]]; reflexivity.
Qed.

(** ** [strip] is idempotent *)

Lemma lstrip_idem (s : str) : lstrip (lstrip s) = lstrip s.
Proof.
  induction s as [| c s IH]; simpl; [reflexivity |].
  destruct (isspace c) eqn:E; [exact IH |]. simpl. now rewrite E.
Qed.

Lemma rstrip_idem (s : str) : rstrip (rstrip s) = rstrip s.
Proof. unfold rstrip. now rewrite rev_involutive, lstrip_idem. Qed.

Lemma lstrip_app_nonspace (a : str) (c : char) :
  isspace c = false -> exists a', lstrip (a ++ [c]) = a' ++ [c].
Proof.
  intros Hc. induction a as [| x a IH]; simpl.
  - rewrite Hc. now exists [].
  - destruct (isspace x); [exact IH |]. now exists (x :: a).
Qed.

Lemma lstrip_head (s : str) :
  match lstrip s with [] => true | c :: _ => negb (isspace c) end = true.
Proof.
  induction s as [| c s IH]; simpl; [reflexivity |].
  destruct (isspace c) eqn:E; [exact IH |]. simpl. now rewrite E.
Qed.

Lemma lstrip_rstrip_lstrip (s : str) : lstrip (rstrip (lstrip s)) = rstrip (lstrip s).
Proof.
  apply lstrip_id. pose proof (lstrip_head s) as Hh.
  destruct (lstrip s) as [| c t]; [reflexivity |].
  apply negb_true_iff in Hh. unfold rstrip. simpl.
  destruct (@lstrip_app_nonspace (rev t) c Hh) as (a' & ->).
  rewrite rev_app_distr. simpl. now rewrite Hh.
Qed.

Lemma strip_idem (s : str) : strip (strip s) = strip s.
Proof.
  unfold strip. now rewrite lstrip_rstrip_lstrip, rstrip_idem.
Qed.

Lemma strip_ZH_EN_ABBR : strip ZH_EN_ABBR = ZH_EN_ABBR.
Proof. reflexivity. Qed.

(** ** [standardize_master] computes the normal form *)

Lemma standardize_column_spec (df : DataFrame) (c : str) :
  getitem c df <> Raise AttributeError ->
  exists df',
    standardize_column df c = Ok df'
    /\ df_index df' = df_index df
    /\ getitem c df' = Ok (cleaned df c)
    /\ (forall c', c' <> c -> getitem c' df' = getitem c' df).
Proof.
  intros Hna. unfold standardize_column, cleaned.
  destruct (has_column c df) eqn:Eh.
  - destruct (getitem_present _ _ Eh Hna) as (col & _ & Hg). rewrite Hg. cbn [bind].
    eexists. split; [reflexivity |]. split; [apply index_setitem |].
    split; [now apply getitem_setitem_same |].
    intros c' Hne. now apply getitem_setitem_other.
  - pose proof (getitem_missing _ _ Eh) as Hg. rewrite Hg.
    assert (Hg1 : getitem c (setitem_scalar c (CStr []) df)
                  = Ok (repeat (CStr []) (length (df_index df)))).
    { unfold setitem_scalar. apply getitem_setitem_same. congruence. }
    rewrite Hg1. cbn [bind].
    eexists. split; [reflexivity |].
    split; [unfold setitem_scalar; now rewrite !index_setitem |].
    split.
    + apply getitem_setitem_same. rewrite Hg1. discriminate.
    + intros c' Hne. unfold setitem_scalar.
      now rewrite !getitem_setitem_other by exact Hne.
Qed.

Lemma cleaned_ext (df df' : DataFrame) (c : str) :
  getitem c df' = getitem c df -> df_index df' = df_index df ->
  cleaned df' c = cleaned df c.
Proof. unfold cleaned. now intros -> ->. Qed.

Lemma standardize_columns_spec (cols : list str) :
  forall df,
    NoDup cols ->
    (forall c, In c cols -> getitem c df <> Raise AttributeError) ->
    exists df',
      standardize_columns cols df = Ok df'
      /\ df_index df' = df_index df
      /\ (forall c, In c cols -> getitem c df' = Ok (cleaned df c))
      /\ (forall c, ~ In c cols -> getitem c df' = getitem c df).
Proof.
  induction cols as [| c rest IH]; intros df Hnd Hna.
  - exists df. simpl. repeat split; auto. intros c [].
  - inversion Hnd as [| x xs Hc Hnd']; subst.
    destruct (@standardize_column_spec df c (Hna c (or_introl eq_refl)))
      as (df1 & Hs1 & Hi1 & Hg1 & Ho1).
    assert (Hne : forall c', In c' rest -> c' <> c) by (intros c' Hin ->; contradiction).
    destruct (IH df1 Hnd') as (df' & Hs & Hi & Hg & Ho).
    { intros c' Hin. rewrite (Ho1 c' (Hne c' Hin)). apply Hna. now right. }
    exists df'. cbn [standardize_columns]. rewrite Hs1. cbn [bind].
    split; [exact Hs |]. split; [congruence |]. split.
    + intros c' [<- | Hin].
      * rewrite (Ho c Hc). exact Hg1.
      * rewrite (Hg c' Hin). f_equal. apply cleaned_ext; auto.
    + intros c' Hnot. rewrite Ho by (intros Hin; apply Hnot; now right).
      apply Ho1. intros ->. apply Hnot. now left.
Qed.

Lemma required_cols_nodup : NoDup REQUIRED_COLS.
Proof.
  unfold REQUIRED_COLS.
  repeat (constructor; [simpl; intros H;
    repeat (destruct H as [H | H]; [apply str_eqb_eq in H; discriminate H |]);
    exact H |]).
  constructor.
Qed.

Lemma required_cols_distinct (c c' : str) :
  In c REQUIRED_COLS -> In c' REQUIRED_COLS -> str_eqb c c' = false -> c <> c'.
Proof. intros _ _ H Heq. apply str_eqb_eq in Heq. congruence. Qed.

(** On a frame that is not empty and repeats no canonical column name,
    [standardize_master] returns the normal form. *)
Lemma standardize_master_normal_form (df : DataFrame) :
  df_empty df = false -> unambiguous df ->
  standardize_master (Some df) = Ok (normal_form df).
Proof.
  intros Hne Hun. unfold standardize_master. rewrite Hne.
  destruct (@standardize_columns_spec REQUIRED_COLS df required_cols_nodup Hun)
    as (df1 & Hs1 & Hi1 & Hg1 & _).
  rewrite Hs1. cbn [bind].
  assert (Hen : getitem COL_EN df1 = Ok (cleaned df COL_EN)) by (apply Hg1; simpl; auto).
  assert (Hzh : getitem COL_ZH df1 = Ok (cleaned df COL_ZH)) by (apply Hg1; simpl; auto).
  assert (Hab : getitem COL_ABBR df1 = Ok (cleaned df COL_ABBR)) by (apply Hg1; simpl; auto).
  assert (Hst : getitem COL_STYLE df1 = Ok (cleaned df COL_STYLE)) by (apply Hg1; simpl; auto 6).
  assert (Hva : getitem COL_VARIANT df1 = Ok (cleaned df COL_VARIANT))
    by (apply Hg1; simpl; auto 6).
  unfold fill_blank. rewrite Hst. cbn [bind].
  fold default_style. fold (styles df).
  set (df2 := setitem COL_STYLE (styles df) df1).
  assert (Hst2 : getitem COL_STYLE df2 = Ok (styles df)).
  { apply getitem_setitem_same. rewrite Hst. discriminate. }
  assert (Hoth : forall c, str_eqb c COL_STYLE = false -> getitem c df2 = getitem c df1).
  { intros c Hc. apply getitem_setitem_other. intros Heq.
    apply str_eqb_eq in Heq. congruence. }
  unfold df_drop_duplicates.
  rewrite (Hoth COL_EN eq_refl), (Hoth COL_ZH eq_refl), (Hoth COL_ABBR eq_refl).
  rewrite Hen, Hzh, Hab. cbn [bind].
  fold (keys_of df). fold (kept df).
  unfold df_select, REQUIRED_COLS. cbn [select_columns].
  rewrite !getitem_take_rows.
  rewrite (Hoth COL_EN eq_refl), (Hoth COL_ZH eq_refl), (Hoth COL_ABBR eq_refl),
    (Hoth COL_VARIANT eq_refl), Hst2, Hen, Hzh, Hab, Hva.
  cbn [bind]. unfold normal_form, take_rows. cbn [df_index].
  unfold df2. now rewrite index_setitem, Hi1.
Qed.

Lemma standardize_master_empty (df : DataFrame) :
  df_empty df = true -> standardize_master (Some df) = Ok (empty_frame REQUIRED_COLS).
Proof. intros H. unfold standardize_master. now rewrite H. Qed.

(** ** Masks *)

Lemma cell_eqb_eq (a b : cell) : cell_eqb a b = true <-> a = b.
Proof.
  destruct a as [x | | x], b as [y | | y]; simpl;
    try (split; intros H; discriminate H).
  - rewrite str_eqb_eq. split; [intros -> | intros H; inversion H]; reflexivity.
  - tauto.
  - rewrite str_eqb_eq. split; [intros -> | intros H; inversion H]; reflexivity.
Qed.

Lemma key3_eqb_eq (a b : key3) : key3_eqb a b = true <-> a = b.
Proof.
  destruct a as [[a1 a2] a3], b as [[b1 b2] b3]. unfold key3_eqb.
  rewrite !andb_true_iff, !cell_eqb_eq. split.
  - intros [[-> ->] ->]. reflexivity.
  - intros H. inversion H. auto.
Qed.

Lemma key3_in_spec (k : key3) (seen : list key3) :
  existsb (key3_eqb k) seen = true <-> In k seen.
Proof.
  rewrite existsb_exists. split.
  - intros (x & Hx & He). apply key3_eqb_eq in He. now subst.
  - intros H. exists k. split; [exact H | now apply key3_eqb_eq].
Qed.

Lemma filter_mask_map (X Y : Type) (f : X -> Y) (m : list bool) :
  forall v, filter_mask m (map f v) = map f (filter_mask m v).
Proof.
  induction m as [| b m IH]; intros [| x v]; simpl; try reflexivity;
    destruct b; simpl; now rewrite ?IH.
Qed.

Lemma filter_mask_nil (X : Type) (m : list bool) : filter_mask m (@nil X) = [].
Proof. destruct m as [| [|] m]; reflexivity. Qed.

Lemma zip3_nil_2 (a c : list cell) : zip3 a [] c = [].
Proof. now destruct a. Qed.

Lemma zip3_nil_3 (a b : list cell) : zip3 a b [] = [].
Proof. destruct a; [reflexivity |]. now destruct b. Qed.

Lemma zip3_filter_mask (m : list bool) :
  forall a b c,
    zip3 (filter_mask m a) (filter_mask m b) (filter_mask m c)
    = filter_mask m (zip3 a b c).
Proof.
  induction m as [| t m IH]; intros a b c; [reflexivity |].
  destruct t, a as [| x a], b as [| y b], c as [| z c]; simpl;
    rewrite ?filter_mask_nil, ?zip3_nil_2, ?zip3_nil_3, ?IH; reflexivity.
Qed.

Lemma filter_mask_all (X : Type) (v : list X) :
  forall n, length v <= n -> filter_mask (repeat true n) v = v.
Proof.
  induction v as [| x v IH]; intros n Hn.
  - apply filter_mask_nil.
  - destruct n as [| n]; simpl in *; [lia |]. rewrite IH; [reflexivity | lia].
Qed.

Lemma filter_mask_length (X Y : Type) (m : list bool) :
  forall (v : list X) (w : list Y),
    length v = length w -> length (filter_mask m v) = length (filter_mask m w).
Proof.
  induction m as [| t m IH]; intros [| x v] [| y w] H; simpl in *;
    try reflexivity; try discriminate.
  - now destruct t.
  - destruct t; simpl; [f_equal |]; apply IH; lia.
Qed.

Lemma first_mask_length (keys : list key3) :
  forall seen, length (first_mask seen keys) = length keys.
Proof.
  induction keys as [| k keys IH]; intros seen; simpl; [reflexivity |].
  destruct (existsb (key3_eqb k) seen); simpl; now rewrite IH.
Qed.

(** Filtering with the mask of first occurrences leaves only first
    occurrences. *)
Lemma first_mask_filtered (keys : list key3) :
  forall seen,
    first_mask seen (filter_mask (first_mask seen keys) keys)
    = repeat true (length (filter_mask (first_mask seen keys) keys)).
Proof.
  induction keys as [| k keys IH]; intros seen; simpl; [reflexivity |].
  destruct (existsb (key3_eqb k) seen) eqn:E; simpl.
  - apply IH.
  - rewrite E. f_equal. apply IH.
Qed.

Lemma first_mask_in (keys : list key3) :
  forall seen k,
    In k (filter_mask (first_mask seen keys) keys) -> In k keys /\ ~ In k seen.
Proof.
  induction keys as [| x keys IH]; intros seen k; simpl; [tauto |].
  destruct (existsb (key3_eqb x) seen) eqn:E; simpl.
  - intros H. apply IH in H. tauto.
  - intros [-> | H].
    + split; [now left |]. intros Hin. apply key3_in_spec in Hin. congruence.
    + apply IH in H. destruct H as [H1 H2]. split; [now right |].
      intros Hin. apply H2. now right.
Qed.

Lemma first_mask_nodup (keys : list key3) :
  forall seen, NoDup (filter_mask (first_mask seen keys) keys).
Proof.
  induction keys as [| x keys IH]; intros seen; simpl; [constructor |].
  destruct (existsb (key3_eqb x) seen) eqn:E; simpl; [apply IH |].
  constructor; [| apply IH].
  intros Hin. apply first_mask_in in Hin. destruct Hin as [_ Hin]. apply Hin. now left.
Qed.

Lemma first_mask_complete (keys : list key3) :
  forall seen k,
    In k keys -> ~ In k seen -> In k (filter_mask (first_mask seen keys) keys).
Proof.
  induction keys as [| x keys IH]; intros seen k Hin Hseen; simpl; [contradiction |].
  destruct (existsb (key3_eqb x) seen) eqn:E; simpl.
  - apply key3_in_spec in E. destruct Hin as [-> | Hin]; [contradiction |].
    now apply IH.
  - destruct (key3_eqb k x) eqn:Ek.
    + apply key3_eqb_eq in Ek. now left.
    + right. destruct Hin as [-> | Hin].
      * assert (key3_eqb k k = true) by now apply key3_eqb_eq. congruence.
      * apply IH; [exact Hin |]. intros [-> | H]; [| contradiction].
        assert (key3_eqb k k = true) by now apply key3_eqb_eq. congruence.
Qed.

(** Row [i] is kept exactly when no earlier row has its key. *)
Lemma first_mask_nth (keys : list key3) :
  forall seen i d,
    i < length keys ->
    (nth i (first_mask seen keys) false = true <->
     ~ In (nth i keys d) seen /\ forall j, j < i -> nth j keys d <> nth i keys d).
Proof.
  induction keys as [| x keys IH]; intros seen i d Hi; simpl in Hi; [lia |].
  simpl. destruct i as [| i].
  - destruct (existsb (key3_eqb x) seen) eqn:E; simpl.
    + apply key3_in_spec in E. split; [discriminate | tauto].
    + split; [| reflexivity]. intros _. split; [| intros j Hj; lia].
      intros Hin. apply key3_in_spec in Hin. congruence.
  - assert (Hi' : i < length keys) by lia.
    destruct (existsb (key3_eqb x) seen) eqn:E; simpl.
    + rewrite (IH seen i d Hi'). apply key3_in_spec in E. split.
      * intros [H1 H2]. split; [exact H1 |]. intros [| j] Hj.
        -- intros Heq. apply H1. now rewrite <- Heq.
        -- apply H2. lia.
      * intros [H1 H2]. split; [exact H1 |]. intros j Hj. apply (H2 (S j)). lia.
    + rewrite (IH (x :: seen) i d Hi'). split.
      * intros [H1 H2]. split; [intros Hin; apply H1; now right |].
        intros [| j] Hj.
        -- intros Heq. apply H1. left. exact Heq.
        -- apply H2. lia.
      * intros [H1 H2]. split.
        -- intros [Heq | Hin]; [| contradiction].
           apply (H2 0); [lia | exact Heq].
        -- intros j Hj. apply (H2 (S j)). lia.
Qed.

(** ** Normal forms are fixed points *)

Lemma clean_column_map (vals : list cell) : clean_column vals = map clean_cell vals.
Proof. reflexivity. Qed.

Lemma clean_cell_idem (v : cell) : clean_cell (clean_cell v) = clean_cell v.
Proof.
  destruct v as [s | | r]; unfold clean_cell; simpl; now rewrite strip_idem.
Qed.

Lemma default_style_idem (v : cell) : default_style (default_style v) = default_style v.
Proof.
  unfold default_style. destruct (cell_eqb v (CStr [])) eqn:E; [reflexivity |].
  now rewrite E.
Qed.

Lemma clean_default_style (v : cell) :
  clean_cell (default_style (clean_cell v)) = default_style (clean_cell v).
Proof.
  unfold default_style. destruct (cell_eqb (clean_cell v) (CStr [])); [reflexivity |].
  apply clean_cell_idem.
Qed.

Lemma cleaned_clean (df : DataFrame) (c : str) :
  clean_column (cleaned df c) = cleaned df c.
Proof.
  unfold cleaned, clean_column. rewrite map_map.
  apply map_ext. intros v. apply clean_cell_idem.
Qed.

Lemma styles_clean (df : DataFrame) : clean_column (styles df) = styles df.
Proof.
  unfold styles, cleaned, clean_column. rewrite !map_map.
  apply map_ext. intros v. apply clean_default_style.
Qed.

Lemma styles_default (df : DataFrame) : map default_style (styles df) = styles df.
Proof.
  unfold styles. rewrite map_map. apply map_ext. intros v. apply default_style_idem.
Qed.

Lemma getitem_in (c : str) (df : DataFrame) (vals : list cell) :
  getitem c df = Ok vals -> exists col, In col (df_columns df) /\ snd col = vals.
Proof.
  unfold getitem.
  destruct (filter (named c) (df_columns df)) as [| col [| col2 rest]] eqn:E;
    try discriminate.
  intros H. inversion H. exists col. split; [| reflexivity].
  assert (Hin : In col (filter (named c) (df_columns df))) by (rewrite E; now left).
  apply filter_In in Hin. tauto.
Qed.

Lemma cleaned_length (df : DataFrame) (c : str) :
  wf_frame df -> length (cleaned df c) = length (df_index df).
Proof.
  intros Hwf. unfold cleaned, clean_column. rewrite length_map.
  destruct (getitem c df) as [vals | e] eqn:E.
  - apply getitem_in in E. destruct E as (col & Hin & <-).
    unfold wf_frame in Hwf. rewrite Forall_forall in Hwf. now apply Hwf.
  - apply repeat_length.
Qed.

Lemma zip3_length (a b c : list cell) (n : nat) :
  length a = n -> length b = n -> length c = n -> length (zip3 a b c) = n.
Proof.
  revert b c n. induction a as [| x a IH]; intros [| y b] [| z c] n Ha Hb Hc;
    simpl in *; try congruence.
  destruct n; [discriminate |]. f_equal. apply IH; congruence.
Qed.

Lemma keys_of_length (df : DataFrame) :
  wf_frame df -> length (keys_of df) = length (df_index df).
Proof.
  intros Hwf. unfold keys_of. apply zip3_length; now apply cleaned_length.
Qed.

Section ExplicitFrame.

Variables (idx : list Z) (a b c d e : list cell).

Let frame : DataFrame :=
  mkDF idx [(COL_EN, a); (COL_ZH, b); (COL_ABBR, c); (COL_STYLE, d); (COL_VARIANT, e)].

Lemma getitem_frame :
  getitem COL_EN frame = Ok a /\ getitem COL_ZH frame = Ok b
  /\ getitem COL_ABBR frame = Ok c /\ getitem COL_STYLE frame = Ok d
  /\ getitem COL_VARIANT frame = Ok e.
Proof. repeat split; reflexivity. Qed.

Lemma frame_unambiguous : unambiguous frame.
Proof.
  destruct getitem_frame as (H1 & H2 & H3 & H4 & H5).
  intros x Hx. unfold REQUIRED_COLS in Hx. simpl in Hx.
  destruct Hx as [<- | [<- | [<- | [<- | [<- | []]]]]]; congruence.
Qed.

End ExplicitFrame.

Lemma normal_form_not_empty (df : DataFrame) :
  wf_frame df -> df_empty df = false -> df_empty (normal_form df) = false.
Proof.
  intros Hwf Hne. unfold df_empty in *. apply orb_false_iff in Hne.
  destruct Hne as [Hn _]. apply orb_false_iff. split; [| reflexivity].
  unfold normal_form. cbn [df_index]. unfold kept.
  pose proof (keys_of_length Hwf) as Hk.
  destruct (df_index df) as [| i idx]; [discriminate |].
  destruct (keys_of df) as [| k ks]; [discriminate |]. reflexivity.
Qed.

Lemma normal_form_fixed (df : DataFrame) :
  wf_frame df -> normal_form (normal_form df) = normal_form df.
Proof.
  intros Hwf. set (m := kept df).
  destruct (getitem_frame (filter_mask m (df_index df))
              (filter_mask m (cleaned df COL_EN)) (filter_mask m (cleaned df COL_ZH))
              (filter_mask m (cleaned df COL_ABBR)) (filter_mask m (styles df))
              (filter_mask m (cleaned df COL_VARIANT)))
    as (Hen & Hzh & Hab & Hst & Hva).
  fold (normal_form df) in Hen, Hzh, Hab, Hst, Hva.
  assert (Hc : forall c v, getitem c (normal_form df) = Ok (filter_mask m v) ->
               clean_column v = v ->
               cleaned (normal_form df) c = filter_mask m v).
  { intros c v Hg Hv. unfold cleaned. rewrite Hg.
    unfold clean_column. rewrite <- filter_mask_map. f_equal. exact Hv. }
  pose proof (Hc _ _ Hen (cleaned_clean df COL_EN)) as Cen.
  pose proof (Hc _ _ Hzh (cleaned_clean df COL_ZH)) as Czh.
  pose proof (Hc _ _ Hab (cleaned_clean df COL_ABBR)) as Cab.
  pose proof (Hc _ _ Hst (styles_clean df)) as Cst.
  pose proof (Hc _ _ Hva (cleaned_clean df COL_VARIANT)) as Cva.
  assert (Hkeys : keys_of (normal_form df) = filter_mask m (keys_of df)).
  { unfold keys_of at 1. rewrite Cen, Czh, Cab. apply zip3_filter_mask. }
  assert (Hkept : kept (normal_form df)
                  = repeat true (length (filter_mask m (keys_of df)))).
  { unfold kept at 1. rewrite Hkeys. apply first_mask_filtered. }
  assert (Hlen : forall (X : Type) (v : list X),
             length v = length (df_index df) ->
             filter_mask (kept (normal_form df)) (filter_mask m v) = filter_mask m v).
  { intros X v Hv. rewrite Hkept. apply filter_mask_all.
    rewrite (@filter_mask_length X key3 m v (keys_of df)); [lia |].
    now rewrite keys_of_length. }
  assert (Hstyles : styles (normal_form df) = filter_mask m (styles df)).
  { unfold styles at 1. rewrite Cst, <- filter_mask_map. now rewrite styles_default. }
  unfold normal_form at 1. rewrite Cen, Czh, Cab, Cva, Hstyles.
  cbn [df_index normal_form]. fold m.
  rewrite !Hlen; try (now apply cleaned_length); try reflexivity.
  unfold styles. rewrite length_map. now apply cleaned_length.
Qed.

(** ** A repeated canonical column name *)

Lemma standardize_column_ambiguous (df : DataFrame) (c : str) :
  getitem c df = Raise AttributeError ->
  standardize_column df c = Raise AttributeError.
Proof.
  intros H. unfold standardize_column. destruct (has_column c df) eqn:E.
  - now rewrite H.
  - rewrite (getitem_missing _ _ E) in H. discriminate.
Qed.

Lemma standardize_columns_ambiguous (cols : list str) :
  forall df c,
    In c cols -> getitem c df = Raise AttributeError ->
    exists e, standardize_columns cols df = Raise e.
Proof.
  induction cols as [| c0 rest IH]; intros df c Hin Hc; [contradiction |].
  cbn [standardize_columns].
  destruct (getitem c0 df) as [vals | e] eqn:E0.
  - destruct (@standardize_column_spec df c0) as (df1 & Hs & _ & _ & Ho);
      [rewrite E0; discriminate |].
    rewrite Hs. cbn [bind].
    destruct Hin as [-> | Hin]; [congruence |].
    apply (IH df1 c Hin). rewrite Ho; [exact Hc |]. intros ->. congruence.
  - destruct e; try (destruct (@standardize_column_spec df c0) as (df1 & Hs & _ & _ & Ho);
      [rewrite E0; discriminate |]; rewrite Hs; cbn [bind];
      destruct Hin as [-> | Hin]; [congruence |];
      apply (IH df1 c Hin); rewrite Ho; [exact Hc |]; intros ->; congruence).
    rewrite (@standardize_column_ambiguous df c0 E0). eexists. reflexivity.
Qed.

Lemma standardize_master_ok_unambiguous (df d : DataFrame) :
  df_empty df = false -> standardize_master (Some df) = Ok d -> unambiguous df.
Proof.
  intros Hne Hok c Hc Hg. unfold standardize_master in Hok. rewrite Hne in Hok.
  destruct (@standardize_columns_ambiguous REQUIRED_COLS df c Hc Hg) as (e & He).
  rewrite He in Hok. discriminate.
Qed.

(** What [standardize_master] returns, when it returns. *)
Lemma standardize_master_result (df d : DataFrame) :
  standardize_master (Some df) = Ok d ->
  (df_empty df = true /\ d = empty_frame REQUIRED_COLS)
  \/ (df_empty df = false /\ unambiguous df /\ d = normal_form df).
Proof.
  intros Hok. destruct (df_empty df) eqn:Ee.
  - left. rewrite (@standardize_master_empty df Ee) in Hok. now inversion Hok.
  - right. pose proof (@standardize_master_ok_unambiguous df d Ee Hok) as Hun.
    rewrite (@standardize_master_normal_form df Ee Hun) in Hok. now inversion Hok.
Qed.

(** ** Idempotence *)

(** C6: normalising a normalised table gives the same table: for every
    table on which [standardize_master] returns (its columns as long as its
    index), a second application returns the same frame; and it does return
    on every table that is absent, empty, or repeats no canonical column
    name. *)
Theorem standardize_master_idempotent (df : option DataFrame) :
  (forall f, df = Some f -> wf_frame f) ->
  (forall d1, standardize_master df = Ok d1 -> standardize_master (Some d1) = Ok d1)
  /\ ((forall f, df = Some f -> df_empty f = false -> unambiguous f) ->
      exists d1, standardize_master df = Ok d1).
Proof.
  intros Hwf. split.
  - intros d1 Hok.
    assert (Hempty : standardize_master (Some (empty_frame REQUIRED_COLS))
                     = Ok (empty_frame REQUIRED_COLS)) by reflexivity.
    destruct df as [f |]; [| simpl in Hok; inversion Hok; exact Hempty].
    specialize (Hwf f eq_refl).
    destruct (@standardize_master_result f d1 Hok) as [[_ ->] | (Hne & Hun & ->)];
      [exact Hempty |].
    rewrite standardize_master_normal_form.
    + now rewrite normal_form_fixed.
    + now apply normal_form_not_empty.
    + apply frame_unambiguous.
  - intros Hun. destruct df as [f |]; [| eexists; reflexivity].
    destruct (df_empty f) eqn:Ee.
    + eexists. now apply standardize_master_empty.
    + eexists. apply standardize_master_normal_form; auto.
Qed.

(** ** Uniqueness of the key and first occurrences *)

Lemma zip3_nth (a b c : list cell) (n : nat) :
  length a = n -> length b = n -> length c = n ->
  zip3 a b c = map (fun i => (nth i a CNaN, nth i b CNaN, nth i c CNaN)) (seq 0 n).
Proof.
  revert b c n. induction a as [| x a IH]; intros [| y b] [| z c] n Ha Hb Hc;
    simpl in *; subst n; try discriminate; [reflexivity |].
  simpl. f_equal. rewrite <- seq_shift, map_map. apply IH; congruence.
Qed.

Section ExplicitFrameRows.

Variables (idx : list Z) (a b c d e : list cell).

Lemma df_rows_keys :
  length a = length idx -> length b = length idx -> length c = length idx ->
  map row_key
      (df_rows (mkDF idx [(COL_EN, a); (COL_ZH, b); (COL_ABBR, c);
                          (COL_STYLE, d); (COL_VARIANT, e)]))
  = zip3 a b c.
Proof.
  intros Ha Hb Hc. unfold df_rows. cbn [df_index df_columns].
  rewrite map_map. rewrite (zip3_nth a b c Ha Hb Hc). reflexivity.
Qed.

End ExplicitFrameRows.

Lemma normal_form_keys (df : DataFrame) :
  table_keys (normal_form df) = Ok (filter_mask (kept df) (keys_of df)).
Proof.
  unfold table_keys.
  destruct (getitem_frame (filter_mask (kept df) (df_index df))
              (filter_mask (kept df) (cleaned df COL_EN))
              (filter_mask (kept df) (cleaned df COL_ZH))
              (filter_mask (kept df) (cleaned df COL_ABBR))
              (filter_mask (kept df) (styles df))
              (filter_mask (kept df) (cleaned df COL_VARIANT)))
    as (Hen & Hzh & Hab & _).
  fold (normal_form df) in Hen, Hzh, Hab. rewrite Hen, Hzh, Hab. cbn [bind].
  f_equal. apply zip3_filter_mask.
Qed.

Lemma normal_form_rows_keys (df : DataFrame) :
  wf_frame df ->
  map row_key (df_rows (normal_form df)) = filter_mask (kept df) (keys_of df).
Proof.
  intros Hwf. unfold normal_form. rewrite df_rows_keys.
  - apply zip3_filter_mask.
  - apply filter_mask_length. now apply cleaned_length.
  - apply filter_mask_length. now apply cleaned_length.
  - apply filter_mask_length. now apply cleaned_length.
Qed.

(** C7: a normalised table has one row per (English, Chinese, abbreviation).
    On a table that is not empty the result is the cleaned table restricted
    to the rows whose key no earlier row carries: row [i] is kept exactly
    when it is the first occurrence of its key, so of the rows sharing a key
    exactly one is kept, the first, and every key of the input is in the
    result.  What [write_master_to_ws] sends to the sheet and what the
    callers save locally are the rows of a normalised table under the
    header, hence with unique keys too. *)
Theorem standardize_master_unique_keys_first_kept (df d : DataFrame) :
  wf_frame df ->
  standardize_master (Some df) = Ok d ->
  (exists keys, table_keys d = Ok keys /\ NoDup keys
                /\ map row_key (df_rows d) = keys)
  /\ (df_empty df = false ->
      d = normal_form df
      /\ table_keys d = Ok (filter_mask (kept df) (keys_of df))
      /\ df_index d = filter_mask (kept df) (df_index df)
      /\ (forall i, i < length (df_index df) ->
            (nth i (kept df) false = true <->
             forall j, j < i ->
                       nth j (keys_of df) (CNaN, CNaN, CNaN)
                       <> nth i (keys_of df) (CNaN, CNaN, CNaN)))
      /\ (forall k, In k (keys_of df) ->
            In k (filter_mask (kept df) (keys_of df))))
  /\ (forall values, write_master_to_ws df = Ok values ->
        exists header rows, values = header :: rows /\ NoDup (map row_key rows))
  /\ (forall values, save_combined df = Ok values ->
        exists header rows, values = header :: rows /\ NoDup (map row_key rows)).
Proof.
  intros Hwf Hok.
  assert (Hkeys : exists keys, table_keys d = Ok keys /\ NoDup keys
                               /\ map row_key (df_rows d) = keys).
  { destruct (@standardize_master_result df d Hok) as [[_ ->] | (Hne & Hun & ->)].
    - exists []. repeat split; constructor.
    - exists (filter_mask (kept df) (keys_of df)).
      split; [apply normal_form_keys |]. split; [apply first_mask_nodup |].
      now apply normal_form_rows_keys. }
  split; [exact Hkeys |]. split; [| split].
  - intros Hne.
    destruct (@standardize_master_result df d Hok) as [[He _] | (_ & Hun & ->)];
      [congruence |].
    split; [reflexivity |]. split; [apply normal_form_keys |]. split; [reflexivity |].
    split.
    + intros i Hi. unfold kept.
      rewrite (@first_mask_nth (keys_of df) [] i (CNaN, CNaN, CNaN))
        by (now rewrite keys_of_length).
      split; [tauto | intros H; split; [intros [] | exact H]].
    + intros k Hk. apply first_mask_complete; auto.
  - intros values Hw. unfold write_master_to_ws in Hw. rewrite Hok in Hw.
    cbn [bind] in Hw. inversion Hw. destruct Hkeys as (keys & _ & Hnd & Hrows).
    eexists _, _. split; [reflexivity |]. now rewrite Hrows.
  - intros values Hw. unfold save_combined in Hw. rewrite Hok in Hw.
    cbn [bind] in Hw. inversion Hw. destruct Hkeys as (keys & _ & Hnd & Hrows).
    eexists _, _. split; [reflexivity |]. now rewrite Hrows.
Qed.

(** ** The diff engine *)

Lemma filter_filter_andb (X : Type) (f g : X -> bool) (l : list X) :
  filter f (filter g l) = filter (fun x => g x && f x) l.
Proof.
  induction l as [| x l IH]; simpl; [reflexivity |].
  destruct (g x); simpl; [destruct (f x) |]; now rewrite IH.
Qed.

Lemma merge_left_new_items (left right : list triple) :
  map fst (filter is_left_only (merge_left left right))
  = filter (fun x => negb (existsb (triple_eqb x) right)) left.
Proof.
  unfold merge_left. induction left as [| l left IH]; [reflexivity |].
  cbn [flat_map filter]. rewrite filter_app, map_app, IH. clear IH.
  destruct (existsb (triple_eqb l) right) eqn:E; cbn [negb].
  - pose proof (filter_some _ _ E) as Hne.
    destruct (filter (triple_eqb l) right) as [| r rs]; [congruence |].
    replace (filter is_left_only (map (fun _ : triple => (l, both)) (r :: rs)))
      with (@nil (triple * merge_indicator)); [reflexivity |].
    generalize (r :: rs). intros xs. induction xs; simpl; auto.
  - now rewrite (filter_none _ _ E).
Qed.

Lemma merge_inner_list_prod (key : triple -> str) (left right : list triple) :
  merge_inner key left right
  = filter (fun p => str_eqb (key (fst p)) (key (snd p))) (list_prod left right).
Proof.
  unfold merge_inner. induction left as [| l left IH]; simpl; [reflexivity |].
  rewrite filter_app, IH. f_equal.
  clear. induction right as [| r right IH]; simpl; [reflexivity |].
  destruct (str_eqb (key l) (key r)); simpl; now rewrite IH.
Qed.

Lemma first_where_some (A : Type) (cond : A -> bool) (rows : list A) (x : A) :
  In x rows -> cond x = true -> exists r, first_where cond rows = Some r.
Proof.
  intros Hin Hc. unfold first_where.
  assert (H : In x (filter cond rows)) by (apply filter_In; auto).
  destruct (filter cond rows) as [| r rs]; [contradiction | eauto].
Qed.

(** C4: the new items are the extracted rows whose (English, Chinese,
    abbreviation) is in no row of the table, each once and in order; the
    conflicts are one English-same record per pair of an extracted row and a
    table row with the same English and another Chinese, then one
    Chinese-same record per pair with the same Chinese and another English;
    the variant with locations reports the same new items and the same
    conflicts; and on the table {(A, 甲, "")} with the extracted pairs
    (A, 甲, "") and (A, 乙, "") the only new item is (A, 乙, "") and the only
    conflict pairs 乙 (extracted) with 甲 (stored). *)
Theorem detect_differences_spec
    (extracted termbase : list triple)
    (located_rows : list (triple * location)) (stored : list (triple * str)) :
  let result := detect_differences extracted termbase in
  fst result = filter (fun x => negb (existsb (triple_eqb x) termbase)) extracted
  /\ (forall x, In x (fst result) <-> In x extracted /\ ~ In x termbase)
  /\ snd result
     = map en_conflict_of (filter same_en_other_zh (list_prod extracted termbase))
       ++ map zh_conflict_of (filter same_zh_other_en (list_prod extracted termbase))
  /\ (let located := detect_differences_with_location located_rows stored in
      let plain := detect_differences (map fst located_rows) (map fst stored) in
      fst located = fst plain /\ map lc_conflict (snd located) = snd plain)
  /\ detect_differences diff_example_extracted diff_example_table
     = diff_example_result.
Proof.
  intros result.
  assert (Hnew : fst result
                 = filter (fun x => negb (existsb (triple_eqb x) termbase)) extracted).
  { apply merge_left_new_items. }
  split; [exact Hnew |]. split; [| split; [| split]].
  - intros x. rewrite Hnew, filter_In, negb_true_iff. split.
    + intros [Hin Hex]. split; [exact Hin |]. intros Ht.
      apply triple_in_spec in Ht. congruence.
    + intros [Hin Hnot]. split; [exact Hin |].
      destruct (existsb (triple_eqb x) termbase) eqn:E; [| reflexivity].
      apply triple_in_spec in E. contradiction.
  - unfold result, detect_differences. cbn [snd].
    rewrite !merge_inner_list_prod, !filter_filter_andb. reflexivity.
  - cbn zeta. split; [reflexivity |].
    unfold detect_differences_with_location, detect_differences. cbn [snd].
    rewrite map_app. f_equal.
    + set (cs := filter zh_differs _).
      assert (Hcs : forall p, In p cs -> In (fst p) (map fst located_rows)).
      { intros p Hp. unfold cs in Hp. apply filter_In in Hp. destruct Hp as [Hp _].
        unfold merge_inner in Hp. apply in_flat_map in Hp.
        destruct Hp as (l & Hl & Hp). apply in_map_iff in Hp.
        destruct Hp as (r & <- & _). exact Hl. }
      induction cs as [| p cs IH]; [reflexivity |].
      cbn [flat_map map]. rewrite map_app, IH by (intros q Hq; apply Hcs; now right).
      f_equal.
      assert (Hp : In (fst p) (map fst located_rows)) by (apply Hcs; now left).
      apply in_map_iff in Hp. destruct Hp as (x & Hx & Hin).
      destruct (@first_where_some _
                  (fun x0 : triple * location =>
                     str_eqb (t_en (fst x0)) (t_en (fst p))
                     && str_eqb (t_zh (fst x0)) (t_zh (fst p)))
                  located_rows x Hin) as (r & ->).
      { rewrite Hx, !str_eqb_refl. reflexivity. }
      reflexivity.
    + set (cs := filter en_differs _).
      assert (Hcs : forall p, In p cs -> In (fst p) (map fst located_rows)).
      { intros p Hp. unfold cs in Hp. apply filter_In in Hp. destruct Hp as [Hp _].
        unfold merge_inner in Hp. apply in_flat_map in Hp.
        destruct Hp as (l & Hl & Hp). apply in_map_iff in Hp.
        destruct Hp as (r & <- & _). exact Hl. }
      induction cs as [| p cs IH]; [reflexivity |].
      cbn [flat_map map]. rewrite map_app, IH by (intros q Hq; apply Hcs; now right).
      f_equal.
      assert (Hp : In (fst p) (map fst located_rows)) by (apply Hcs; now left).
      apply in_map_iff in Hp. destruct Hp as (x & Hx & Hin).
      destruct (@first_where_some _
                  (fun x0 : triple * location =>
                     str_eqb (t_zh (fst x0)) (t_zh (fst p))
                     && str_eqb (t_en (fst x0)) (t_en (fst p)))
                  located_rows x Hin) as (r & ->).
      { rewrite Hx, !str_eqb_refl. reflexivity. }
      reflexivity.
  - reflexivity.
Qed.

(** ** Unknown-term candidates without the similarity backend *)

Section UnknownTerms.

Variable case_equiv : char -> char -> bool.
Variable py_lower : str -> str.
Variable score : Type.
Variable score_zero : score.
Variable score_ge : score -> Z -> bool.
Variable round1 : score -> score.
Variable extractOne : str -> list str -> option (str * score).
Variable master_df : list term.
Variables zh_thresh en_thresh : Z.

Lemma py_set_In (x : str) (l : list str) : In x (py_set l) <-> In x l.
Proof. unfold py_set. apply nodup_In. Qed.

Lemma known_ens_spec (k : str) :
  In k (known_ens py_lower master_df) <->
  exists row, In row master_df
              /\ (k = py_lower (en_canonical row) \/ k = py_lower (abbr row)).
Proof.
  unfold known_ens. rewrite py_set_In, in_app_iff, !in_map_iff. split.
  - intros [(r & <- & Hr) | (r & <- & Hr)]; eauto.
  - intros (r & Hr & [-> | ->]); eauto.
Qed.

Lemma known_zhs_spec (k : str) :
  In k (known_zhs master_df) <-> exists row, In row master_df /\ k = zh_canonical row.
Proof.
  unfold known_zhs. rewrite py_set_In, in_map_iff. split.
  - intros (r & <- & Hr). eauto.
  - intros (r & Hr & ->). eauto.
Qed.

(** C8: with the similarity backend unavailable ([HAVE_RF] false), the
    English candidates are exactly the stripped tokens of [en_tokens] that
    are not empty, whose lower-case form is not a known English term or
    abbreviation, and that are at least 4 characters long (so none of length
    3 or less); the Chinese candidates are exactly the n-grams of
    [cjk_tokens] that are not known Chinese terms.  Each comes without
    suggestion and with score 0 ([round(0, 1)] in [app_streamlit_super.py]).
    Both tools keep the same candidates. *)
Theorem unknown_candidates_without_backend (full_text : str) (ngram : nat) :
  let en_auto := en_cands_auto_plus case_equiv py_lower score_zero score_ge round1
                   extractOne false master_df en_thresh full_text in
  let en_super := en_cands_super case_equiv py_lower score_zero score_ge round1
                    extractOne false master_df en_thresh full_text in
  let zh_auto := zh_cands_auto_plus score_zero score_ge round1 extractOne false
                   master_df zh_thresh full_text ngram in
  let zh_super := zh_cands_super score_zero score_ge round1 extractOne false
                    master_df zh_thresh full_text ngram in
  (forall c, In c en_auto <->
     exists tok, In tok (en_tokens case_equiv full_text)
                 /\ strip tok <> []
                 /\ ~ In (py_lower (strip tok)) (known_ens py_lower master_df)
                 /\ 4 <= length (strip tok)
                 /\ c = mkCandidate UNKNOWN_EN (strip tok) [] score_zero)
  /\ (forall c, In c en_auto -> 4 <= length (c_candidate c))
  /\ (forall c, In c en_super <->
        exists tok, In tok (en_tokens case_equiv full_text)
                    /\ strip tok <> []
                    /\ ~ In (py_lower (strip tok)) (known_ens py_lower master_df)
                    /\ 4 <= length (strip tok)
                    /\ c = mkCandidate UNKNOWN_EN (strip tok) [] (round1 score_zero))
  /\ (forall c, In c zh_auto <->
        exists gram, In gram (cjk_tokens is_cjk_basic full_text ngram ngram)
                     /\ ~ In gram (known_zhs master_df)
                     /\ c = mkCandidate UNKNOWN_ZH gram [] score_zero)
  /\ (forall c, In c zh_super <->
        exists gram, In gram (cjk_tokens is_cjk full_text ngram ngram)
                     /\ ~ In gram (known_zhs master_df)
                     /\ c = mkCandidate UNKNOWN_ZH gram [] (round1 score_zero)).
Proof.
  intros en_auto en_super zh_auto zh_super.
  assert (Hen : forall c, In c en_auto <->
     exists tok, In tok (en_tokens case_equiv full_text)
                 /\ strip tok <> []
                 /\ ~ In (py_lower (strip tok)) (known_ens py_lower master_df)
                 /\ 4 <= length (strip tok)
                 /\ c = mkCandidate UNKNOWN_EN (strip tok) [] score_zero).
  { intros c. unfold en_auto, en_cands_auto_plus. rewrite in_flat_map.
    split.
    - intros (tok & Htok & Hc). rewrite py_set_In in Htok. exists tok.
      unfold en_candidate_auto_plus in Hc. cbn [andb] in Hc.
      destruct (nonempty (strip tok)) eqn:En; cbn [negb] in Hc; [| contradiction].
      destruct (str_in (py_lower (strip tok)) (known_ens py_lower master_df)) eqn:Ek;
        [contradiction |].
      destruct (Nat.leb 4 (length (strip tok))) eqn:El; [| contradiction].
      destruct Hc as [<- | []].
      split; [exact Htok |]. split; [now apply nonempty_true |].
      split; [intros Hin; apply str_in_In in Hin; congruence |].
      split; [now apply Nat.leb_le | reflexivity].
    - intros (tok & Htok & Hne & Hk & Hl & ->). exists tok.
      split; [now apply py_set_In |].
      unfold en_candidate_auto_plus. cbn [andb].
      apply nonempty_true in Hne. rewrite Hne. cbn [negb].
      destruct (str_in (py_lower (strip tok)) (known_ens py_lower master_df)) eqn:Ek;
        [apply str_in_In in Ek; contradiction |].
      apply Nat.leb_le in Hl. rewrite Hl. now left. }
  split; [exact Hen |]. split; [| split; [| split]].
  - intros c Hc. apply Hen in Hc. destruct Hc as (tok & _ & _ & _ & Hl & ->). exact Hl.
  - intros c. unfold en_super, en_cands_super. rewrite in_flat_map. split.
    + intros (tok & Htok & Hc). rewrite py_set_In in Htok. exists tok.
      unfold en_candidate_super in Hc. cbn [andb negb orb] in Hc.
      destruct (nonempty (strip tok)) eqn:En; cbn [negb orb] in Hc; [| contradiction].
      destruct (str_in (py_lower (strip tok)) (known_ens py_lower master_df)) eqn:Ek;
        [contradiction |].
      destruct (Nat.ltb (length (strip tok)) 4) eqn:El; [contradiction |].
      rewrite orb_true_r in Hc. destruct Hc as [<- | []].
      split; [exact Htok |]. split; [now apply nonempty_true |].
      split; [intros Hin; apply str_in_In in Hin; congruence |].
      split; [apply Nat.ltb_ge in El; exact El | reflexivity].
    + intros (tok & Htok & Hne & Hk & Hl & ->). exists tok.
      split; [now apply py_set_In |].
      unfold en_candidate_super. cbn [andb negb].
      apply nonempty_true in Hne. rewrite Hne. cbn [negb orb].
      destruct (str_in (py_lower (strip tok)) (known_ens py_lower master_df)) eqn:Ek;
        [apply str_in_In in Ek; contradiction |].
      assert (El : Nat.ltb (length (strip tok)) 4 = false) by now apply Nat.ltb_ge.
      rewrite El, orb_true_r. now left.
  - intros c. unfold zh_auto, zh_cands_auto_plus. rewrite in_flat_map. split.
    + intros (gram & Hg & Hc). rewrite py_set_In in Hg. exists gram.
      unfold zh_candidate_auto_plus in Hc. cbn [andb] in Hc.
      destruct (str_in gram (known_zhs master_df)) eqn:Ek; [contradiction |].
      destruct Hc as [<- | []]. split; [exact Hg |].
      split; [intros Hin; apply str_in_In in Hin; congruence | reflexivity].
    + intros (gram & Hg & Hk & ->). exists gram. split; [now apply py_set_In |].
      unfold zh_candidate_auto_plus. cbn [andb].
      destruct (str_in gram (known_zhs master_df)) eqn:Ek;
        [apply str_in_In in Ek; contradiction | now left].
  - intros c. unfold zh_super, zh_cands_super. rewrite in_flat_map. split.
    + intros (gram & Hg & Hc). rewrite py_set_In in Hg. exists gram.
      unfold zh_candidate_super in Hc. cbn [andb negb] in Hc.
      destruct (str_in gram (known_zhs master_df)) eqn:Ek; [contradiction |].
      rewrite orb_true_r in Hc. destruct Hc as [<- | []]. split; [exact Hg |].
      split; [intros Hin; apply str_in_In in Hin; congruence | reflexivity].
    + intros (gram & Hg & Hk & ->). exists gram. split; [now apply py_set_In |].
      unfold zh_candidate_super. cbn [andb negb].
      destruct (str_in gram (known_zhs master_df)) eqn:Ek;
        [apply str_in_In in Ek; contradiction |].
      rewrite orb_true_r. now left.
Qed.

End UnknownTerms.

(** ** The two-loop variant of [standardize_master] *)

Lemma named_replaced (c c' : str) (vals : list cell) (col : column) :
  named c' (if named c col then (c, vals) else col) = named c' col.
Proof.
  destruct (named c col) eqn:En; [| reflexivity].
  unfold named in *. cbn [fst]. apply str_eqb_eq in En. now rewrite En.
Qed.

Lemma has_column_setitem (c c' : str) (vals : list cell) (df : DataFrame) :
  c <> c' -> has_column c' (setitem c vals df) = has_column c' df.
Proof.
  intros Hne. unfold setitem, has_column.
  destruct (existsb (named c) (df_columns df)); cbn [df_columns].
  - induction (df_columns df) as [| col cols IH]; [reflexivity |].
    cbn [map existsb]. now rewrite IH, named_replaced.
  - rewrite existsb_app. cbn [existsb]. unfold named at 2. cbn [fst].
    destruct (str_eqb c c') eqn:E1; [| now rewrite !orb_false_r].
    apply str_eqb_eq in E1. contradiction.
Qed.

Lemma setitem_scalar_new (c : str) (v : cell) (df : DataFrame) :
  has_column c df = false ->
  setitem_scalar c v df
  = mkDF (df_index df) (df_columns df ++ [(c, repeat v (length (df_index df)))]).
Proof. intros H. unfold setitem_scalar, setitem. now rewrite H. Qed.

Lemma fmap_clean_add (df : DataFrame) (c c' : str) :
  c <> c' ->
  clean_in_place (add_missing_column df c') c
  = (d <- clean_in_place df c ;; Ok (add_missing_column d c')).
Proof.
  intros Hne. unfold add_missing_column, clean_in_place.
  destruct (has_column c' df) eqn:Ec'.
  - destruct (getitem c df) as [vals | e]; cbn [bind]; [| reflexivity].
    now rewrite (has_column_setitem _ _ Hne), Ec'.
  - assert (Hnamed : named c (c', repeat (CStr []) (length (df_index df))) = false).
    { unfold named. cbn. destruct (str_eqb c' c) eqn:E; [| reflexivity].
      apply str_eqb_eq in E. congruence. }
    rewrite (@setitem_scalar_new c' (CStr []) df Ec').
    assert (Hget : getitem c (mkDF (df_index df)
                     (df_columns df ++ [(c', repeat (CStr []) (length (df_index df)))]))
                   = getitem c df).
    { unfold getitem. cbn [df_columns].
      rewrite filter_app. cbn [filter]. rewrite Hnamed. now rewrite app_nil_r. }
    rewrite Hget. destruct (getitem c df) as [vals | e] eqn:Eg; cbn [bind]; [| reflexivity].
    f_equal. rewrite (has_column_setitem _ _ Hne), Ec'.
    rewrite (@setitem_scalar_new c' (CStr []) (setitem c (clean_column vals) df))
      by now rewrite (has_column_setitem _ _ Hne).
    assert (Hc : has_column c df = true).
    { destruct (has_column c df) eqn:Ec; [reflexivity |].
      rewrite (getitem_missing _ _ Ec) in Eg. discriminate. }
    unfold setitem. rewrite Hc.
    unfold has_column. cbn [df_columns df_index]. rewrite existsb_app. cbn [existsb].
    fold (has_column c df). rewrite Hc. cbn [orb].
    rewrite map_app. cbn [map]. now rewrite Hnamed.
Qed.

Lemma clean_add_missing_columns (cols : list str) (c : str) :
  ~ In c cols ->
  forall df,
    clean_in_place (add_missing_columns cols df) c
    = (d <- clean_in_place df c ;; Ok (add_missing_columns cols d)).
Proof.
  unfold add_missing_columns.
  induction cols as [| c' cols IH]; intros Hnin df; cbn [fold_left].
  - destruct (clean_in_place df c); reflexivity.
  - rewrite IH by (intros H; apply Hnin; now right).
    rewrite fmap_clean_add by (intros ->; apply Hnin; now left).
    destruct (clean_in_place df c); reflexivity.
Qed.

Lemma standardize_column_two_steps (df : DataFrame) (c : str) :
  standardize_column df c = clean_in_place (add_missing_column df c) c.
Proof. reflexivity. Qed.

Lemma clean_columns_add_missing (cols : list str) :
  NoDup cols ->
  forall df,
    clean_columns cols (add_missing_columns cols df) = standardize_columns cols df.
Proof.
  induction cols as [| c cols IH]; intros Hnd df; [reflexivity |].
  inversion Hnd as [| ? ? Hnin Hnd']; subst.
  cbn [clean_columns standardize_columns].
  unfold add_missing_columns at 1. cbn [fold_left].
  fold (add_missing_columns cols (add_missing_column df c)).
  rewrite (@clean_add_missing_columns cols c Hnin).
  rewrite standardize_column_two_steps.
  destruct (clean_in_place (add_missing_column df c) c) as [d | e]; cbn [bind];
    [| reflexivity].
  now apply IH.
Qed.

(** The one-loop function of [app_streamlit_super.py] and the two-loop
    function of [app_streamlit_auto_plus.py] and [app_streamlit_gsheets.py]
    agree on every input, errors included. *)
Lemma standardize_master_auto_plus_eq (df : option DataFrame) :
  standardize_master_auto_plus df = standardize_master df.
Proof.
  destruct df as [df |]; [| reflexivity].
  unfold standardize_master_auto_plus, standardize_master.
  destruct (df_empty df); [reflexivity |].
  now rewrite (@clean_columns_add_missing REQUIRED_COLS required_cols_nodup).
Qed.

(** ** The tools on the examples *)

(** C3, on [app_streamlit_super.py]: with the table holding the single
    record (CT, 電腦斷層, style "ZH(EN;ABBR)") and a document whose only page
    reads "CT", the first-mention check of [app_streamlit_plus.py] reports
    the first mention of CT, as the pair check of both tools does, while
    section 4 of [app_streamlit_super.py] raises [TypeError] on reading
    [row[1]["en_canonical"]] and reports nothing. *)
Theorem super_first_mentions_raises_on_located_term :
  super_first_mentions ascii_case_equiv ascii_lower no_upper 80 [ct_row] [ct_text]
  = Raise TypeError
  /\ first_mentions
       (plus_scan ascii_case_equiv ascii_lower no_upper ct_options (fun _ => None)
          [ct_row] [ExtractReturns (Some ct_text)])
     = [mkIssue FIRST_MENTION_MISSING_ZH 1 ct_text ct_zh (Some []) ct_text false]
  /\ super_pair_issues ascii_case_equiv 80 [ct_row] [ct_text]
     = [mkIssue MISSING_OR_WRONG_ZH 1 ct_text ct_zh None ct_text false].
Proof. repeat split; vm_compute; reflexivity. Qed.

Lemma cjk_fuzzy_pattern_cjk_token_witness :
  forallb is_cjk ct_zh = true
  /\ finditer ascii_case_equiv true (cjk_fuzzy_pattern ct_zh) ct_zh
     = [mkMatch 0 (length ct_zh) []]
  /\ (forall s, spaced ct_zh s ->
        finditer ascii_case_equiv true (cjk_fuzzy_pattern ct_zh) s
        = [mkMatch 0 (length s) []])
  /\ (forall a c b, ct_zh = a ++ c :: b ->
        finditer ascii_case_equiv true (cjk_fuzzy_pattern ct_zh) (a ++ b) = []).
Proof.
  split; [reflexivity |].
  apply (@cjk_fuzzy_pattern_cjk_token ascii_case_equiv ct_zh). reflexivity.
Defined.

Lemma pair_check_emits_witness :
  In (0, 2, ct_row) (locate ascii_case_equiv (en_pats [ct_row]) ct_text)
  /\ pair_issue_for 80 1 ct_text false
       (locate ascii_case_equiv (zh_pats [ct_row]) ct_text) (0, 2, ct_row)
     = [mkIssue MISSING_OR_WRONG_ZH 1 ct_text ct_zh None
          (window_context 80 ct_text 0 2) false].
Proof.
  assert (H : In (0, 2, ct_row) (locate ascii_case_equiv (en_pats [ct_row]) ct_text))
    by (vm_compute; auto).
  split; [exact H |].
  destruct (@pair_check_emits_iff_expected_zh_not_near ascii_case_equiv 80
              [ct_row] 1 ct_text false 0 2 ct_row H) as (_ & _ & _ & Hother & _).
  apply Hother. intros zs ze zrow Hin. vm_compute in Hin. contradiction.
Defined.

Lemma example_frame_wf : wf_frame example_frame.
Proof. repeat constructor. Qed.

Lemma example_frame_unambiguous : unambiguous example_frame.
Proof.
  intros c Hc. unfold REQUIRED_COLS in Hc. simpl in Hc.
  destruct Hc as [<- | [<- | [<- | [<- | [<- | []]]]]]; vm_compute; discriminate.
Qed.

Lemma standardize_master_idempotent_witness :
  exists d1, standardize_master (Some example_frame) = Ok d1
             /\ standardize_master (Some d1) = Ok d1.
Proof.
  destruct (@standardize_master_idempotent (Some example_frame)) as [Hidem Htotal].
  - intros f Hf. inversion Hf. apply example_frame_wf.
  - destruct Htotal as (d1 & Hd1).
    + intros f Hf _. inversion Hf. apply example_frame_unambiguous.
    + exists d1. split; [exact Hd1 | now apply Hidem].
Defined.

Lemma standardize_master_unique_keys_witness :
  exists d keys,
    standardize_master (Some example_frame) = Ok d
    /\ table_keys d = Ok keys /\ NoDup keys
    /\ df_index d = [0; 2]%Z.
Proof.
  assert (Hok : standardize_master (Some example_frame)
                = Ok (normal_form example_frame))
    by (apply standardize_master_normal_form;
        [reflexivity | apply example_frame_unambiguous]).
  destruct (@standardize_master_unique_keys_first_kept example_frame
              (normal_form example_frame) example_frame_wf Hok)
    as ((keys & Hk & Hnd & _) & _).
  exists (normal_form example_frame), keys.
  split; [exact Hok |]. split; [exact Hk |]. split; [exact Hnd |]. reflexivity.
Defined.

(** ** Patterns [p+]: the hits are the maximal runs of [p] *)

Section ClassRuns.

Variable case_equiv : char -> char -> bool.
Variable ic : bool.
Variable p : cset.

(** [starts_outside s]: [s] is empty or starts outside [p]. *)
Local Abbreviation starts_outside s :=
  (match s with [] => true | x :: _ => negb (cset_mem p x) end = true).

Lemma match_plus_outside (s : str) (i : nat) :
  starts_outside s -> match_at case_equiv ic false (plus p) s i = None.
Proof.
  unfold match_at, plus. cbn [mtch]. destruct s as [| x s]; intros H; simpl.
  - reflexivity.
  - apply negb_true_iff in H. now rewrite H.
Qed.

Lemma match_plus_run (w s' : str) (i : nat) :
  w <> [] -> forallb (cset_mem p) w = true -> starts_outside s' ->
  match_at case_equiv ic false (plus p) (w ++ s') i
  = Some (mkMatch i (i + length w) []).
Proof.
  intros Hne Hw Hs. unfold match_at, plus. cbn [mtch].
  apply rep_run; auto.
  destruct w; [congruence | simpl; lia].
Qed.

Lemma finditer_plus_run (w s' : str) (i : nat) :
  w <> [] -> forallb (cset_mem p) w = true -> starts_outside s' ->
  finditer_from case_equiv ic (plus p) (w ++ s') i 0
  = mkMatch i (i + length w) [] :: finditer_from case_equiv ic (plus p) s' (i + length w) 0.
Proof.
  intros Hne Hw Hs. destruct w as [| x w]; [congruence |].
  change ((x :: w) ++ s') with (x :: (w ++ s')).
  cbn [finditer_from].
  change (x :: (w ++ s')) with ((x :: w) ++ s').
  rewrite (@match_plus_run (x :: w) s' i Hne Hw Hs). cbn [m_end].
  assert (Hlt : Nat.ltb i (i + length (x :: w)) = true)
    by (apply Nat.ltb_lt; simpl; lia).
  rewrite Hlt. f_equal.
  replace (i + length (x :: w) - i - 1) with (length w) by (simpl; lia).
  rewrite finditer_from_skip. f_equal. simpl. lia.
Qed.

Lemma finditer_plus_outside (x : char) (s : str) (i : nat) :
  cset_mem p x = false ->
  finditer_from case_equiv ic (plus p) (x :: s) i 0
  = finditer_from case_equiv ic (plus p) s (S i) 0.
Proof.
  intros Hx. cbn [finditer_from]. rewrite match_plus_outside; [reflexivity |].
  simpl. now rewrite Hx.
Qed.

Lemma finditer_plus_nil (i : nat) :
  finditer_from case_equiv ic (plus p) [] i 0 = [].
Proof. reflexivity. Qed.

(** A text starts with a maximal run of [p] (possibly empty). *)
Lemma run_split (s : str) :
  exists w s', s = w ++ s' /\ forallb (cset_mem p) w = true /\ starts_outside s'.
Proof.
  induction s as [| x s IH].
  - exists [], []. auto.
  - destruct (cset_mem p x) eqn:Hx.
    + destruct IH as (w & s' & -> & Hw & Hs).
      exists (x :: w), s'. simpl. rewrite Hx. auto.
    + exists [], (x :: s). simpl. rewrite Hx. auto.
Qed.

Variable repl : str.

Lemma squeeze_in_run (w s' : str) :
  forallb (cset_mem p) w = true ->
  squeeze p repl true (w ++ s') = squeeze p repl true s'.
Proof.
  induction w as [| x w IH]; intros Hw; simpl in *; [reflexivity |].
  apply andb_true_iff in Hw. destruct Hw as [Hx Hw]. rewrite Hx. auto.
Qed.

Lemma squeeze_true_outside (s' : str) :
  starts_outside s' -> squeeze p repl true s' = squeeze p repl false s'.
Proof.
  destruct s' as [| x s']; intros H; simpl; [reflexivity |].
  apply negb_true_iff in H. now rewrite H.
Qed.

Lemma squeeze_run (w s' : str) :
  w <> [] -> forallb (cset_mem p) w = true -> starts_outside s' ->
  squeeze p repl false (w ++ s') = repl ++ squeeze p repl false s'.
Proof.
  intros Hne Hw Hs. destruct w as [| x w]; [congruence |].
  simpl in *. apply andb_true_iff in Hw. destruct Hw as [Hx Hw]. rewrite Hx.
  now rewrite squeeze_in_run, squeeze_true_outside.
Qed.

(** [re.sub] with a pattern [p+]. *)
Lemma sub_loop_plus (n : nat) :
  forall t pre pending,
    length t <= n ->
    sub_loop repl (pre ++ pending ++ t) (length pre)
      (finditer_from case_equiv ic (plus p) t (length pre + length pending) 0)
    = pending ++ squeeze p repl false t.
Proof.
  induction n as [| n IH]; intros t pre pending Hlen.
  - destruct t; [| simpl in Hlen; lia].
    rewrite finditer_plus_nil. cbn [sub_loop squeeze].
    rewrite !app_nil_r. rewrite skipn_app, skipn_all, Nat.sub_diag. reflexivity.
  - destruct t as [| x t].
    + rewrite finditer_plus_nil. cbn [sub_loop squeeze].
      rewrite !app_nil_r. rewrite skipn_app, skipn_all, Nat.sub_diag. reflexivity.
    + destruct (cset_mem p x) eqn:Hx.
      * destruct (run_split (x :: t)) as (w & s' & Heq & Hw & Hs).
        assert (Hne : w <> []).
        { intros ->. simpl in Heq. subst s'. simpl in Hs. rewrite Hx in Hs. discriminate. }
        rewrite Heq.
        rewrite (@finditer_plus_run w s' _ Hne Hw Hs), (@squeeze_run w s' Hne Hw Hs).
        cbn [sub_loop m_start m_end].
        assert (Hslice : slice (pre ++ pending ++ w ++ s') (length pre)
                           (length pre + length pending) = pending).
        { unfold slice. rewrite skipn_app, skipn_all, Nat.sub_diag. simpl.
          replace (length pre + length pending - length pre) with (length pending) by lia.
          rewrite firstn_app, firstn_all, Nat.sub_diag. simpl. now rewrite app_nil_r. }
        rewrite Hslice. f_equal. f_equal.
        pose proof (IH s' (pre ++ pending ++ w) []) as H.
        rewrite !length_app in H. simpl in H. rewrite Nat.add_0_r in H.
        rewrite <- !app_assoc in H. rewrite !Nat.add_assoc in H. apply H.
        assert (length (x :: t) = length (w ++ s')) by now rewrite Heq.
        rewrite length_app in *. simpl in *. destruct w; [congruence | simpl in *; lia].
      * rewrite (@finditer_plus_outside x t _ Hx). cbn [squeeze]. rewrite Hx.
        pose proof (IH t pre (pending ++ [x])) as H.
        rewrite !length_app in H. simpl in H.
        rewrite <- !app_assoc in H. simpl in H.
        replace (S (length pre + length pending))
          with (length pre + (length pending + 1)) by lia.
        apply H. simpl in Hlen. lia.
Qed.

Lemma re_sub_plus (t : str) :
  re_sub case_equiv ic (plus p) repl t = squeeze p repl false t.
Proof.
  unfold re_sub, finditer.
  pose proof (@sub_loop_plus (length t) t [] [] (Nat.le_refl _)) as H.
  simpl in H. exact H.
Qed.

(** [re.split] with a pattern [p+]. *)
Lemma split_runs_in_run (w s' : str) :
  forallb (cset_mem p) w = true ->
  split_runs p true [] (w ++ s') = split_runs p true [] s'.
Proof.
  induction w as [| x w IH]; intros Hw; simpl in *; [reflexivity |].
  apply andb_true_iff in Hw. destruct Hw as [Hx Hw]. rewrite Hx. auto.
Qed.

Lemma split_runs_true_outside (cur s' : str) :
  starts_outside s' -> split_runs p true cur s' = split_runs p false cur s'.
Proof.
  destruct s' as [| x s']; intros H; simpl; [reflexivity |].
  apply negb_true_iff in H. now rewrite H.
Qed.

Lemma split_runs_run (cur w s' : str) :
  w <> [] -> forallb (cset_mem p) w = true -> starts_outside s' ->
  split_runs p false cur (w ++ s') = rev cur :: split_runs p false [] s'.
Proof.
  intros Hne Hw Hs. destruct w as [| x w]; [congruence |].
  simpl in *. apply andb_true_iff in Hw. destruct Hw as [Hx Hw]. rewrite Hx.
  now rewrite split_runs_in_run, split_runs_true_outside.
Qed.

Lemma split_loop_plus (n : nat) :
  forall t pre pending,
    length t <= n ->
    split_loop (pre ++ pending ++ t) (length pre)
      (finditer_from case_equiv ic (plus p) t (length pre + length pending) 0)
    = split_runs p false (rev pending) t.
Proof.
  induction n as [| n IH]; intros t pre pending Hlen.
  - destruct t; [| simpl in Hlen; lia].
    rewrite finditer_plus_nil. cbn [split_loop split_runs].
    rewrite !app_nil_r. rewrite skipn_app, skipn_all, Nat.sub_diag, rev_involutive.
    reflexivity.
  - destruct t as [| x t].
    + rewrite finditer_plus_nil. cbn [split_loop split_runs].
      rewrite !app_nil_r. rewrite skipn_app, skipn_all, Nat.sub_diag, rev_involutive.
      reflexivity.
    + destruct (cset_mem p x) eqn:Hx.
      * destruct (run_split (x :: t)) as (w & s' & Heq & Hw & Hs).
        assert (Hne : w <> []).
        { intros ->. simpl in Heq. subst s'. simpl in Hs. rewrite Hx in Hs. discriminate. }
        rewrite Heq.
        rewrite (@finditer_plus_run w s' _ Hne Hw Hs), (@split_runs_run _ w s' Hne Hw Hs).
        cbn [split_loop m_start m_end]. rewrite rev_involutive.
        assert (Hslice : slice (pre ++ pending ++ w ++ s') (length pre)
                           (length pre + length pending) = pending).
        { unfold slice. rewrite skipn_app, skipn_all, Nat.sub_diag. simpl.
          replace (length pre + length pending - length pre) with (length pending) by lia.
          rewrite firstn_app, firstn_all, Nat.sub_diag. simpl. now rewrite app_nil_r. }
        rewrite Hslice. f_equal.
        pose proof (IH s' (pre ++ pending ++ w) []) as H.
        rewrite !length_app in H. simpl in H. rewrite Nat.add_0_r in H.
        rewrite <- !app_assoc in H. rewrite !Nat.add_assoc in H. apply H.
        assert (length (x :: t) = length (w ++ s')) by now rewrite Heq.
        rewrite length_app in *. simpl in *. destruct w; [congruence | simpl in *; lia].
      * rewrite (@finditer_plus_outside x t _ Hx). cbn [split_runs]. rewrite Hx.
        pose proof (IH t pre (pending ++ [x])) as H.
        rewrite !length_app in H. simpl in H.
        rewrite <- !app_assoc in H. simpl in H.
        replace (S (length pre + length pending))
          with (length pre + (length pending + 1)) by lia.
        rewrite H by (simpl in Hlen; lia).
        now rewrite rev_app_distr.
Qed.

Lemma re_split_plus (t : str) :
  re_split case_equiv ic (plus p) t = split_runs p false [] t.
Proof.
  unfold re_split, finditer.
  pose proof (@split_loop_plus (length t) t [] [] (Nat.le_refl _)) as H.
  simpl in H. exact H.
Qed.

End ClassRuns.

(** ** The text normaliser *)

Section NormalizeText.

Variable case_equiv : char -> char -> bool.

Lemma in_replace1 (old : char) (new s : str) (x : char) :
  In x (replace1 old new s) -> (In x s /\ x <> old) \/ In x new.
Proof.
  unfold replace1. intros H. apply in_flat_map in H. destruct H as (c & Hc & Hx).
  destruct (char_eqb c old) eqn:E.
  - now right.
  - left. destruct Hx as [<- | []]. split; [exact Hc |].
    intros ->. now rewrite char_eqb_refl in E.
Qed.

Lemma replace1_absent (old : char) (new s : str) :
  ~ In old s -> replace1 old new s = s.
Proof.
  unfold replace1. induction s as [| c s IH]; intros H; simpl; [reflexivity |].
  destruct (char_eqb c old) eqn:E.
  - apply char_eqb_eq in E. subst c. exfalso. apply H. now left.
  - simpl. f_equal. apply IH. intros Hin. apply H. now right.
Qed.

Lemma length_replace1 (old : char) (new s : str) :
  length new <= 1 -> length (replace1 old new s) <= length s.
Proof.
  intros Hn. unfold replace1. induction s as [| c s IH]; simpl; [lia |].
  rewrite length_app. destruct (char_eqb c old); simpl; lia.
Qed.

Lemma rewritten_spec (c : char) :
  rewritten c = true <-> In c FULLWIDTH_PUNCT \/ In c ZERO_WIDTH.
Proof.
  unfold rewritten. rewrite orb_true_iff, !existsb_exists.
  split; (intros [H | H]; [left | right]).
  - destruct H as (x & Hx & E). apply char_eqb_eq in E. now subst.
  - destruct H as (x & Hx & E). apply char_eqb_eq in E. now subst.
  - exists c. split; [exact H | apply char_eqb_refl].
  - exists c. split; [exact H | apply char_eqb_refl].
Qed.

(** What is left after the replacements: characters of the text that are
    not rewritten, and the ASCII marks written for the full-width ones. *)
Lemma in_unify_chars (s : str) (x : char) :
  In x (unify_chars s) -> rewritten x = false.
Proof.
  unfold unify_chars, ZERO_WIDTH. cbn [fold_left]. intros H.
  repeat (apply in_replace1 in H;
          destruct H as [[H ?] | H]; [| simpl in H; try contradiction]).
  - destruct (rewritten x) eqn:E; [| reflexivity].
    apply rewritten_spec in E. unfold FULLWIDTH_PUNCT, ZERO_WIDTH in E. simpl in E.
    vm_compute in H0, H1, H2, H3, H4, H5, H6, H7, H8, H9, H10.
    intuition congruence.
  - destruct H as [<- | []]; reflexivity.
  - destruct H as [<- | []]; reflexivity.
  - destruct H as [<- | []]; reflexivity.
  - destruct H as [<- | []]; reflexivity.
  - destruct H as [<- | []]; reflexivity.
  - destruct H as [<- | []]; reflexivity.
Qed.

Lemma unify_chars_fixed (s : str) :
  forallb (fun c => negb (rewritten c)) s = true -> unify_chars s = s.
Proof.
  intros H. rewrite forallb_forall in H.
  assert (Hout : forall c, rewritten c = true -> ~ In c s).
  { intros c Hc Hin. apply H in Hin. rewrite Hc in Hin. discriminate. }
  unfold unify_chars, ZERO_WIDTH. cbn [fold_left].
  repeat (rewrite (@replace1_absent _ _ s) by (apply Hout; reflexivity)).
  reflexivity.
Qed.

Lemma length_unify_chars (s : str) : length (unify_chars s) <= length s.
Proof.
  unfold unify_chars, ZERO_WIDTH. cbn [fold_left].
  repeat (etransitivity; [apply length_replace1; simpl; lia |]). lia.
Qed.

Lemma normalize_text_squeeze (s : str) :
  normalize_text case_equiv s
  = match s with
    | [] => []
    | _ => squeeze CsSpace [space] false (unify_chars s)
    end.
Proof.
  destruct s as [| c s]; [reflexivity |].
  unfold normalize_text, ws_run. rewrite re_sub_plus. reflexivity.
Qed.

Lemma in_squeeze (p : cset) (repl : str) (s : str) :
  forall b x, In x (squeeze p repl b s) -> In x s \/ In x repl.
Proof.
  induction s as [| c s IH]; intros b x H; simpl in *; [contradiction |].
  destruct (cset_mem p c).
  - destruct b.
    + apply IH in H. tauto.
    + apply in_app_or in H. destruct H as [H | H]; [tauto |]. apply IH in H. tauto.
  - destruct H as [-> | H]; [tauto |]. apply IH in H. tauto.
Qed.

Lemma length_squeeze (p : cset) (repl : str) (s : str) :
  length repl <= 1 -> forall b, length (squeeze p repl b s) <= length s.
Proof.
  intros Hr. induction s as [| c s IH]; intros b; simpl; [lia |].
  destruct (cset_mem p c).
  - destruct b.
    + specialize (IH true). lia.
    + rewrite length_app. specialize (IH true). lia.
  - simpl. specialize (IH false). lia.
Qed.

Lemma single_spaced_squeeze (s : str) :
  forall b, single_spaced b (squeeze CsSpace [space] b s) = true.
Proof.
  induction s as [| c s IH]; intros b; [reflexivity |].
  cbn [squeeze cset_mem]. destruct (isspace c) eqn:Hc.
  - destruct b; [apply IH |].
    cbn [app single_spaced]. change (isspace space) with true.
    cbn iota. rewrite char_eqb_refl. cbn [negb andb]. apply IH.
  - cbn [single_spaced]. rewrite Hc. apply IH.
Qed.

Lemma squeeze_single_spaced (s : str) :
  forall b, single_spaced b s = true -> squeeze CsSpace [space] b s = s.
Proof.
  induction s as [| c s IH]; intros b H; [reflexivity |].
  cbn [squeeze cset_mem single_spaced] in *. destruct (isspace c) eqn:Hc.
  - apply andb_true_iff in H. destruct H as [H Hs].
    apply andb_true_iff in H. destruct H as [Hsp Hb].
    apply negb_true_iff in Hb. subst b. apply char_eqb_eq in Hsp. subst c.
    cbn [app]. f_equal. now apply IH.
  - f_equal. now apply IH.
Qed.

Lemma normalize_text_normal (s : str) :
  normal_text (normalize_text case_equiv s) = true.
Proof.
  rewrite normalize_text_squeeze. destruct s as [| c s]; [reflexivity |].
  unfold normal_text. apply andb_true_iff. split.
  - apply forallb_forall. intros x Hx. apply in_squeeze in Hx.
    destruct Hx as [Hx | [<- | []]]; [| reflexivity].
    apply in_unify_chars in Hx. now rewrite Hx.
  - apply single_spaced_squeeze.
Qed.

Lemma normalize_text_fixed (s : str) :
  normal_text s = true -> normalize_text case_equiv s = s.
Proof.
  unfold normal_text. intros H. apply andb_true_iff in H. destruct H as [Hc Hs].
  rewrite normalize_text_squeeze. destruct s as [| c s]; [reflexivity |].
  rewrite (unify_chars_fixed _ Hc). now apply squeeze_single_spaced.
Qed.

(** [normalize_text] is idempotent: a normalised text is left as it is. *)
Theorem normalize_text_idempotent (s : str) :
  normalize_text case_equiv (normalize_text case_equiv s) = normalize_text case_equiv s.
Proof. apply normalize_text_fixed, normalize_text_normal. Qed.

(** The result of [normalize_text] holds none of the full-width marks and
    zero-width characters the function rewrites, its only blanks are single
    ASCII spaces, and it is never longer than the text; the texts the
    function leaves unchanged are exactly the texts of that form. *)
Theorem normalize_text_normal_form (s : str) :
  normal_text (normalize_text case_equiv s) = true
  /\ length (normalize_text case_equiv s) <= length s
  /\ (normalize_text case_equiv s = s <-> normal_text s = true).
Proof.
  split; [apply normalize_text_normal |]. split.
  - rewrite normalize_text_squeeze. destruct s as [| c s]; [simpl; lia |].
    etransitivity; [apply length_squeeze; simpl; lia | apply length_unify_chars].
  - split.
    + intros H. rewrite <- H. apply normalize_text_normal.
    + apply normalize_text_fixed.
Qed.

End NormalizeText.

(** ** Variant cells *)

Section VariantCells.

Variable case_equiv : char -> char -> bool.

Local Abbreviation p := variant_delims.

Lemma split_variants_runs (s : str) :
  split_variants case_equiv (CStr s)
  = filter nonempty (split_runs p false [] (strip s)).
Proof. unfold split_variants. now rewrite re_split_plus. Qed.

Lemma split_runs_outside (a : str) :
  forall cur s,
    delimiter_free a = true ->
    split_runs p false cur (a ++ s) = split_runs p false (rev a ++ cur) s.
Proof.
  induction a as [| x a IH]; intros cur s Ha; [reflexivity |].
  unfold delimiter_free in Ha. cbn [forallb] in Ha.
  apply andb_true_iff in Ha. destruct Ha as [Hx Ha].
  apply negb_true_iff in Hx. unfold is_delim in Hx.
  cbn [app split_runs]. rewrite Hx. rewrite (IH (x :: cur) s Ha).
  cbn [rev]. now rewrite <- app_assoc.
Qed.

Lemma split_runs_pieces (s : str) :
  forall b cur v,
    delimiter_free cur = true ->
    In v (split_runs p b cur s) -> delimiter_free v = true.
Proof.
  assert (Hrev : forall cur, delimiter_free cur = true -> delimiter_free (rev cur) = true).
  { intros cur H. unfold delimiter_free in *. rewrite forallb_forall in *.
    intros x Hx. apply H. now apply in_rev. }
  induction s as [| x s IH]; intros b cur v Hcur Hv; cbn [split_runs] in Hv.
  - destruct Hv as [<- | []]. now apply Hrev.
  - destruct (cset_mem p x) eqn:Hx.
    + destruct b.
      * now apply (IH true [] v).
      * destruct Hv as [<- | Hv]; [now apply Hrev | now apply (IH true [] v)].
    + apply (IH false (x :: cur) v); [| exact Hv].
      unfold delimiter_free in *. cbn [forallb]. unfold is_delim at 1.
      now rewrite Hx, Hcur.
Qed.

Lemma split_runs_concat (s : str) :
  forall b cur,
    (b = true -> cur = []) ->
    concat (split_runs p b cur s)
    = rev cur ++ filter (fun c => negb (is_delim c)) s.
Proof.
  induction s as [| x s IH]; intros b cur Hb; cbn [split_runs filter].
  - simpl. now rewrite !app_nil_r.
  - unfold is_delim at 1. destruct (cset_mem p x) eqn:Hx; cbn [negb].
    + destruct b.
      * rewrite (Hb eq_refl). now rewrite IH.
      * cbn [concat]. now rewrite IH.
    + rewrite IH by discriminate. cbn [rev]. now rewrite <- app_assoc.
Qed.

Lemma concat_filter_nonempty (l : list str) : concat (filter nonempty l) = concat l.
Proof.
  induction l as [| v l IH]; [reflexivity |].
  destruct v; simpl; [exact IH | now rewrite IH].
Qed.

Lemma split_runs_last (cur last : str) :
  delimiter_free last = true ->
  split_runs p false cur last = [rev cur ++ last].
Proof.
  intros H. rewrite <- (app_nil_r last) at 1.
  rewrite split_runs_outside by exact H. cbn [split_runs].
  now rewrite rev_app_distr, rev_involutive.
Qed.

Lemma variant_word_starts_outside (v rest : str) :
  variant_word v = true ->
  match v ++ rest with [] => true | x :: _ => negb (cset_mem p x) end = true.
Proof.
  unfold variant_word, delimiter_free. intros H. apply andb_true_iff in H.
  destruct H as [Hne Hd]. destruct v as [| x v]; [discriminate |].
  cbn [forallb] in Hd. apply andb_true_iff in Hd. now destruct Hd.
Qed.

Lemma join_variants_starts_outside (parts : list (str * str)) (last : str) :
  Forall (fun pd => variant_word (fst pd) = true) parts ->
  variant_word last = true ->
  match join_variants parts last with
  | [] => true
  | x :: _ => negb (cset_mem p x)
  end = true.
Proof.
  intros Hp Hl. destruct parts as [| [v d] rest]; cbn [join_variants].
  - rewrite <- (app_nil_r last). now apply variant_word_starts_outside.
  - inversion Hp; subst. now apply variant_word_starts_outside.
Qed.

Lemma split_runs_join (parts : list (str * str)) (last : str) :
  Forall (fun pd => variant_word (fst pd) = true /\ delimiter_run (snd pd) = true) parts ->
  variant_word last = true ->
  split_runs p false [] (join_variants parts last) = map fst parts ++ [last].
Proof.
  intros Hp Hl. induction parts as [| [v d] rest IH]; cbn [join_variants map app].
  - apply andb_true_iff in Hl. destruct Hl as [_ Hl].
    now rewrite (@split_runs_last [] last Hl).
  - inversion Hp as [| ? ? [Hv Hd] Hrest]; subst. cbn [fst snd] in *.
    pose proof Hv as Hv'. apply andb_true_iff in Hv'. destruct Hv' as [_ Hfree].
    apply andb_true_iff in Hd. destruct Hd as [Hdne Hdrun].
    rewrite (@split_runs_outside v [] _ Hfree). rewrite app_nil_r.
    rewrite (@split_runs_run p (rev v) d (join_variants rest last)).
    + rewrite rev_involutive. f_equal. now apply IH.
    + destruct d; [discriminate | discriminate].
    + exact Hdrun.
    + apply join_variants_starts_outside; [| exact Hl].
      eapply Forall_impl; [| exact Hrest]. intros a [Ha _]. exact Ha.
Qed.

Lemma filter_nonempty_words (l : list str) :
  Forall (fun v => variant_word v = true) l -> filter nonempty l = l.
Proof.
  induction 1 as [| v l Hv _ IH]; [reflexivity |].
  cbn [filter]. apply andb_true_iff in Hv. destruct Hv as [Hne _].
  now rewrite Hne, IH.
Qed.

(** Splitting a cell written with [join_variants] gives the variants back:
    however many delimiters stand between two variants, of whichever kind. *)
Theorem split_variants_join_variants (parts : list (str * str)) (last : str) :
  Forall (fun pd => variant_word (fst pd) = true /\ delimiter_run (snd pd) = true) parts ->
  variant_word last = true ->
  strip (join_variants parts last) = join_variants parts last ->
  split_variants case_equiv (CStr (join_variants parts last)) = map fst parts ++ [last].
Proof.
  intros Hp Hl Hs. rewrite split_variants_runs, Hs, (@split_runs_join parts last Hp Hl).
  apply filter_nonempty_words. apply Forall_app. split.
  - apply Forall_map. eapply Forall_impl; [| exact Hp]. intros a [Ha _]. exact Ha.
  - now constructor.
Qed.

(** Every variant [split_variants] returns is free of delimiters, and the
    variants of a cell, put end to end, are the stripped cell without its
    delimiters: splitting loses nothing else. *)
Theorem split_variants_loses_delimiters_only (s : str) :
  Forall (fun v => delimiter_free v = true) (split_variants case_equiv (CStr s))
  /\ concat (split_variants case_equiv (CStr s))
     = filter (fun c => negb (is_delim c)) (strip s).
Proof.
  rewrite split_variants_runs. split.
  - apply Forall_forall. intros v Hv. apply filter_In in Hv. destruct Hv as [Hv _].
    now apply (@split_runs_pieces (strip s) false [] v).
  - rewrite concat_filter_nonempty. now rewrite split_runs_concat.
Qed.

End VariantCells.

(** ** The matcher finds a match whenever there is one *)

Section Completeness.

Variable case_equiv : char -> char -> bool.
Variable ic : bool.

Lemma rep_complete (A : Type) (p : cset) (w s : str) (k : str -> nat -> option A) :
  forall lo hi i,
    forallb (cset_mem p) w = true -> lo <= length w -> within hi (length w) ->
    k s (i + length w) <> None ->
    rep p lo hi (w ++ s) i k <> None.
Proof.
  induction w as [| x w IH]; intros lo hi i Hw Hlo Hhi Hk.
  - simpl in *. assert (lo = 0) as -> by lia. rewrite Nat.add_0_r in Hk.
    destruct s as [| y s]; simpl; [exact Hk |].
    destruct (cset_mem p y && may_take hi); [| exact Hk].
    destruct (rep p 0 (dec_hi hi) s (S i) k); [discriminate | exact Hk].
  - cbn [app rep]. cbn [forallb] in Hw. apply andb_true_iff in Hw.
    destruct Hw as [Hx Hw]. rewrite Hx.
    assert (Hmay : may_take hi = true).
    { destruct hi as [[| h] |]; simpl in *; [lia | reflexivity | reflexivity]. }
    rewrite Hmay. cbn [andb].
    assert (Hrec : rep p (pred lo) (dec_hi hi) (w ++ s) (S i) k <> None).
    { apply IH; auto.
      - simpl in Hlo. lia.
      - destruct hi as [h |]; simpl in *; [lia | exact I].
      - now replace (S i + length w) with (i + length (x :: w)) by (simpl; lia). }
    destruct (rep p (pred lo) (dec_hi hi) (w ++ s) (S i) k); [discriminate | congruence].
Qed.

Lemma mtch_complete (A : Type) (r : regex) (w : str) :
  lang case_equiv ic r w ->
  forall s i cs (k : str -> nat -> caps -> option A),
    (forall cs', k s (i + length w) cs' <> None) ->
    mtch case_equiv ic r (w ++ s) i cs k <> None.
Proof.
  induction 1 as [| c x Hx | q x Hx | q lo hi w Hw Hlo Hhi
                  | r1 r2 w1 w2 H1 IH1 H2 IH2 | r1 r2 w H1 IH1 | r1 r2 w H2 IH2
                  | g r w H IH]; intros s i cs k Hk; cbn [mtch].
  - simpl in *. rewrite Nat.add_0_r in Hk. apply Hk.
  - cbn [app]. rewrite Hx. simpl in Hk. replace (S i) with (i + 1) by lia. apply Hk.
  - cbn [app]. rewrite Hx. simpl in Hk. replace (S i) with (i + 1) by lia. apply Hk.
  - apply rep_complete; auto.
  - rewrite <- app_assoc. apply IH1. intros cs'. apply IH2. intros cs''.
    rewrite <- Nat.add_assoc, <- length_app. apply Hk.
  - specialize (IH1 s i cs k Hk).
    destruct (mtch case_equiv ic r1 (w ++ s) i cs k); [discriminate | congruence].
  - destruct (mtch case_equiv ic r1 (w ++ s) i cs k); [discriminate |].
    now apply IH2.
  - apply IH. intros cs'. apply Hk.
Qed.

Lemma match_at_complete (r : regex) (w s : str) (i : nat) :
  lang case_equiv ic r w ->
  match_at case_equiv ic false r (w ++ s) i <> None.
Proof.
  intros H. unfold match_at. apply mtch_complete; [exact H |].
  intros cs'. discriminate.
Qed.

Lemma finditer_from_found (r : regex) (a s : str) :
  forall i,
    match_at case_equiv ic false r s (i + length a) <> None ->
    finditer_from case_equiv ic r (a ++ s) i 0 <> [].
Proof.
  assert (Hhere : forall t i, match_at case_equiv ic false r t i <> None ->
                              finditer_from case_equiv ic r t i 0 <> []).
  { intros t i H. destruct t as [| x t]; cbn [finditer_from];
      destruct (match_at case_equiv ic false r _ i) as [m |]; try congruence;
      destruct (Nat.ltb i (m_end m)); discriminate. }
  induction a as [| x a IH]; intros i H.
  - simpl in *. rewrite Nat.add_0_r in H. now apply Hhere.
  - cbn [app finditer_from].
    destruct (match_at case_equiv ic false r (x :: a ++ s) i) as [m |].
    + destruct (Nat.ltb i (m_end m)); discriminate.
    + apply IH. now replace (S i + length a) with (i + length (x :: a)) by (simpl; lia).
Qed.

(** A text that holds a word of the pattern has a hit. *)
Lemma finditer_found (r : regex) (a w b : str) :
  lang case_equiv ic r w -> finditer case_equiv ic r (a ++ w ++ b) <> [].
Proof.
  intros H. unfold finditer. apply finditer_from_found. now apply match_at_complete.
Qed.

End Completeness.

(** ** Occurrences of variants and of canonical terms are found *)

Section Detection.

Variable case_equiv : char -> char -> bool.

Lemma lit_match_refl (ic : bool) (c : char) : lit_match case_equiv ic c c = true.
Proof. unfold lit_match. now rewrite char_eqb_refl. Qed.

Lemma lang_star_space (w : str) :
  forallb isspace w = true -> lang case_equiv true (star CsSpace) w.
Proof. intros H. apply lang_rep; [exact H | lia | exact I]. Qed.

Lemma lang_hyphen_piece (w1 w2 : str) (x : char) :
  forallb isspace w1 = true -> lit_match case_equiv true hyphen x = true ->
  forallb isspace w2 = true ->
  lang case_equiv true (Cat (star CsSpace) (Cat (Lit hyphen) (star CsSpace)))
    (w1 ++ x :: w2).
Proof.
  intros H1 Hx H2. apply lang_cat; [now apply lang_star_space |].
  change (x :: w2) with ([x] ++ w2). apply lang_cat; [now apply lang_lit |].
  now apply lang_star_space.
Qed.

Lemma fuzzy_spelling_lang (T s : str) :
  fuzzy_spelling case_equiv T s -> lang case_equiv true (join (map cjk_piece T)) s.
Proof.
  induction 1 as [| c T w s Hc Hne Hw _ IH | c x T w s Hc Hj Hx Hw _ IH
                  | c x T w1 w2 s Hc Hj Hh H1 Hx H2 _ IH | c x T s Hc Hj Hh Hx _ IH];
    cbn [map join fold_right].
  - constructor.
  - apply lang_cat; [| exact IH]. unfold cjk_piece. rewrite Hc.
    apply lang_rep; [exact Hw | | exact I]. destruct w; [congruence | simpl; lia].
  - change (x :: w ++ s) with ((x :: w) ++ s). apply lang_cat; [| exact IH].
    unfold cjk_piece. rewrite Hc, Hj. change (x :: w) with ([x] ++ w).
    apply lang_cat; [now apply lang_lit | now apply lang_star_space].
  - replace (w1 ++ x :: w2 ++ s) with ((w1 ++ x :: w2) ++ s)
      by (rewrite <- app_assoc; reflexivity).
    apply lang_cat; [| exact IH]. unfold cjk_piece. rewrite Hc, Hj, Hh.
    now apply lang_hyphen_piece.
  - change (x :: s) with ([x] ++ s). apply lang_cat; [| exact IH].
    unfold cjk_piece. rewrite Hc, Hj, Hh. now apply lang_lit.
Qed.

Lemma fuzzy_spelling_refl (T : str) : fuzzy_spelling case_equiv T T.
Proof.
  induction T as [| c T IH]; [constructor |].
  destruct (isspace c) eqn:Hc.
  - change (c :: T) with ([c] ++ T) at 2. apply fuzzy_blank; auto.
    + discriminate.
    + simpl. now rewrite Hc.
  - destruct (is_cjk c) eqn:Hj.
    + change (c :: T) with (c :: [] ++ T) at 2.
      apply fuzzy_cjk; auto using lit_match_refl.
    + destruct (char_eqb c hyphen) eqn:Hh.
      * change (c :: T) with ([] ++ c :: [] ++ T) at 2.
        apply fuzzy_hyphen; auto. apply char_eqb_eq in Hh. subst c.
        apply lit_match_refl.
      * apply fuzzy_char; auto using lit_match_refl.
Qed.

Lemma en_spelling_lang (T s : str) :
  en_spelling case_equiv T s -> lang case_equiv true (en_pattern T) s.
Proof.
  unfold en_pattern.
  induction 1 as [| c x T w1 w2 s Hh H1 Hx H2 _ IH | c x T s Hh Hx _ IH];
    cbn [map join fold_right].
  - constructor.
  - replace (w1 ++ x :: w2 ++ s) with ((w1 ++ x :: w2) ++ s)
      by (rewrite <- app_assoc; reflexivity).
    apply lang_cat; [| exact IH]. unfold en_piece. rewrite Hh.
    now apply lang_hyphen_piece.
  - change (x :: s) with ([x] ++ s). apply lang_cat; [| exact IH].
    unfold en_piece. rewrite Hh. now apply lang_lit.
Qed.

Lemma en_spelling_refl (T : str) : en_spelling case_equiv T T.
Proof.
  induction T as [| c T IH]; [constructor |].
  destruct (char_eqb c hyphen) eqn:Hh.
  - change (c :: T) with ([] ++ c :: [] ++ T) at 2.
    apply en_spelling_hyphen; auto. apply char_eqb_eq in Hh. subst c.
    apply lit_match_refl.
  - apply en_spelling_char; auto using lit_match_refl.
Qed.

Lemma page_hits_found (pno : nat) (norm : str) (pats : list (regex * str * term))
    (rx : regex) (v : str) (row : term) :
  In (rx, v, row) pats -> finditer case_equiv true rx norm <> [] ->
  exists h, In h (page_hits case_equiv pno norm pats)
            /\ h_page h = pno /\ h_variant h = v /\ h_row h = row.
Proof.
  intros Hin Hne. destruct (finditer case_equiv true rx norm) as [| m ms] eqn:E;
    [congruence |].
  exists (mkHit pno v row (context60 norm m)). split; [| auto].
  unfold page_hits. apply in_flat_map. exists (rx, v, row). split; [exact Hin |].
  rewrite E. now left.
Qed.

Lemma scan_from_page (before after : list extraction) (page : extraction)
    (pats : list (regex * str * term)) (h : hit) :
  forall pno,
    In h (page_hits case_equiv (pno + length before)
            (normalize_text case_equiv (extract_or_empty page)) pats) ->
    In h (scan_from case_equiv pno (before ++ page :: after) pats).
Proof.
  induction before as [| q before IH]; intros pno H; cbn [app scan_from].
  - simpl in H. rewrite Nat.add_0_r in H. apply in_or_app. now left.
  - apply in_or_app. right. apply IH.
    now replace (S pno + length before) with (pno + length (q :: before)) by (simpl; lia).
Qed.

Lemma in_load_patterns (df : list term) (row : term) (v : str) :
  In row df -> In v (split_variants case_equiv (CStr (variant row))) ->
  In (cjk_fuzzy_pattern v, v, row) (load_patterns case_equiv df).
Proof.
  intros Hr Hv. unfold load_patterns. apply in_flat_map. exists row.
  split; [exact Hr |]. apply in_map_iff. now exists v.
Qed.

(** [scan]: a page whose normalised text holds a spelling of a variant of
    the table, in the sense of [fuzzy_spelling], has a hit for that variant
    and its row. *)
Theorem scan_reports_fuzzy_occurrence
    (df : list term) (row : term) (v : str)
    (before after : list extraction) (page : extraction) (a s b : str) :
  In row df ->
  In v (split_variants case_equiv (CStr (variant row))) ->
  normalize_text case_equiv (extract_or_empty page) = a ++ s ++ b ->
  fuzzy_spelling case_equiv (strip v) s ->
  exists h, In h (scan case_equiv (before ++ page :: after)
                    (load_patterns case_equiv df))
            /\ h_page h = S (length before) /\ h_variant h = v /\ h_row h = row.
Proof.
  intros Hr Hv Hn Hs.
  destruct (@page_hits_found (S (length before))
              (normalize_text case_equiv (extract_or_empty page))
              (load_patterns case_equiv df) (cjk_fuzzy_pattern v) v row)
    as (h & Hh & Hrest).
  - now apply in_load_patterns.
  - rewrite Hn. apply finditer_found. unfold cjk_fuzzy_pattern.
    now apply fuzzy_spelling_lang.
  - exists h. split; [| exact Hrest]. unfold scan. now apply scan_from_page.
Qed.

(** [scan]: a variant of the table that stands verbatim in the normalised
    text of a page is reported on that page. *)
Theorem scan_reports_verbatim_variant
    (df : list term) (row : term) (v : str)
    (before after : list extraction) (page : extraction) (a b : str) :
  In row df ->
  In v (split_variants case_equiv (CStr (variant row))) ->
  normalize_text case_equiv (extract_or_empty page) = a ++ strip v ++ b ->
  exists h, In h (scan case_equiv (before ++ page :: after)
                    (load_patterns case_equiv df))
            /\ h_page h = S (length before) /\ h_variant h = v /\ h_row h = row.
Proof.
  intros Hr Hv Hn.
  destruct (@page_hits_found (S (length before))
              (normalize_text case_equiv (extract_or_empty page))
              (load_patterns case_equiv df) (cjk_fuzzy_pattern v) v row)
    as (h & Hh & Hrest).
  - now apply in_load_patterns.
  - rewrite Hn. apply finditer_found. unfold cjk_fuzzy_pattern.
    apply fuzzy_spelling_lang, fuzzy_spelling_refl.
  - exists h. split; [| exact Hrest]. unfold scan. now apply scan_from_page.
Qed.

(** The checkers of [app_streamlit_plus.py] and [app_streamlit_super.py]
    locate every canonical English term that a page spells, up to case and
    to blanks around hyphens. *)
Theorem canonical_english_term_is_located
    (term_df : list term) (row : term) (norm a s b : str) :
  In row term_df ->
  strip (en_canonical row) <> [] ->
  norm = a ++ s ++ b ->
  (en_spelling case_equiv (strip (en_canonical row)) s ->
   exists es ee, In (es, ee, row) (locate case_equiv (en_pats term_df) norm))
  /\ (en_spelling case_equiv (en_canonical row) s ->
      exists es ee, In (es, ee, row) (locate case_equiv (en_pats_super term_df) norm)).
Proof.
  intros Hr Hne ->.
  assert (Hloc : forall pats rx, In (rx, row) pats ->
            finditer case_equiv true rx (a ++ s ++ b) <> [] ->
            exists es ee, In (es, ee, row) (locate case_equiv pats (a ++ s ++ b))).
  { intros pats rx Hin Hf.
    destruct (finditer case_equiv true rx (a ++ s ++ b)) as [| m ms] eqn:E; [congruence |].
    exists (m_start m), (m_end m). unfold locate. apply in_flat_map.
    exists (rx, row). split; [exact Hin |]. rewrite E. now left. }
  split; intros Hs.
  - apply (Hloc _ (en_pattern (strip (en_canonical row)))).
    + unfold en_pats. apply in_flat_map. exists row. split; [exact Hr |].
      destruct (strip (en_canonical row)); [congruence | now left].
    + apply finditer_found. now apply en_spelling_lang.
  - apply (Hloc _ (en_pattern (en_canonical row))).
    + unfold en_pats_super. apply in_flat_map. exists row. split; [exact Hr |].
      destruct (strip (en_canonical row)); [congruence | now left].
    + apply finditer_found. now apply en_spelling_lang.
Qed.

End Detection.

(** ** The n-grams of [cjk_tokens] *)

Section CjkTokens.

Variable cjk : char -> bool.

Lemma slice_window (X : Type) (l : list X) (i L : nat) :
  i + L <= length l ->
  l = firstn i l ++ firstn (i + L - i) (skipn i l) ++ skipn (i + L) l
  /\ length (firstn (i + L - i) (skipn i l)) = L.
Proof.
  intros H. replace (i + L - i) with L by lia. split.
  - rewrite <- (firstn_skipn i l) at 1. f_equal.
    rewrite <- (firstn_skipn L (skipn i l)) at 1. f_equal.
    rewrite skipn_skipn. f_equal. lia.
  - rewrite length_firstn, length_skipn. lia.
Qed.

(** [cjk_tokens] returns, each once, the runs of [min_len] to [max_len]
    neighbouring characters of the text once every character that is not
    CJK has been taken out: what stands between two CJK characters does not
    separate them. *)
Theorem cjk_tokens_windows (text : str) (min_len max_len : nat) :
  NoDup (cjk_tokens cjk text min_len max_len)
  /\ (forall g, In g (cjk_tokens cjk text min_len max_len) <->
        exists a b, filter cjk text = a ++ g ++ b
                    /\ min_len <= length g /\ length g <= max_len)
  /\ (length (filter cjk text) < min_len -> cjk_tokens cjk text min_len max_len = []).
Proof.
  unfold cjk_tokens, py_set, py_range. set (toks := filter cjk text).
  split; [apply NoDup_nodup |].
  assert (Hin : forall g,
            In g (flat_map
                    (fun L => map (fun i => slice toks i (i + L))
                                  (seq 0 (length toks - L + 1 - 0)))
                    (seq min_len (Nat.min (max_len + 1) (length toks + 1) - min_len)))
            <-> exists a b, toks = a ++ g ++ b
                            /\ min_len <= length g /\ length g <= max_len).
  { intros g. rewrite in_flat_map. split.
    - intros (L & HL & Hg). apply in_seq in HL. apply in_map_iff in Hg.
      destruct Hg as (i & <- & Hi). apply in_seq in Hi.
      assert (Hb : i + L <= length toks) by lia.
      destruct (@slice_window _ toks i L Hb) as [Heq Hlen].
      exists (firstn i toks), (skipn (i + L) toks). unfold slice.
      split; [exact Heq |]. rewrite Hlen. lia.
    - intros (a & b & Heq & Hlo & Hhi). exists (length g).
      assert (Hn : length toks = length a + length g + length b).
      { rewrite Heq, !length_app. lia. }
      split; [apply in_seq; lia |].
      apply in_map_iff. exists (length a). split; [| apply in_seq; lia].
      unfold slice. rewrite Heq.
      rewrite skipn_app, skipn_all, Nat.sub_diag. cbn [app skipn].
      replace (length a + length g - length a) with (length g) by lia.
      rewrite firstn_app, firstn_all, Nat.sub_diag. cbn [firstn]. apply app_nil_r. }
  split.
  - intros g. rewrite nodup_In. apply Hin.
  - intros Hshort.
    replace (Nat.min (max_len + 1) (length toks + 1) - min_len) with 0 by lia.
    reflexivity.
Qed.

End CjkTokens.

(** ** The shape of a normalised table *)

Lemma in_filter_mask (X : Type) (m : list bool) :
  forall (v : list X) x, In x (filter_mask m v) -> In x v.
Proof.
  induction m as [| t m IH]; intros [| y v] x H; simpl in *; try contradiction.
  - destruct t; contradiction.
  - destruct t; simpl in H.
    + destruct H as [-> | H]; [now left | right; now apply IH].
    + right. now apply IH.
Qed.

Lemma length_filter_mask_le (X : Type) (m : list bool) :
  forall v : list X, length (filter_mask m v) <= length v.
Proof.
  induction m as [| t m IH]; intros [| y v]; simpl; try lia.
  - destruct t; simpl; lia.
  - destruct t; simpl; specialize (IH v); lia.
Qed.

Lemma clean_cell_stripped (v : cell) : is_stripped_text (clean_cell v) = true.
Proof.
  destruct v as [s | | r];
    unfold clean_cell; cbn [astype_str fillna cell_strip is_stripped_text];
    apply str_eqb_eq; apply strip_idem.
Qed.

Lemma cleaned_stripped (df : DataFrame) (c : str) :
  forallb is_stripped_text (cleaned df c) = true.
Proof.
  unfold cleaned. rewrite clean_column_map. apply forallb_forall.
  intros x Hx. apply in_map_iff in Hx. destruct Hx as (v & <- & _).
  apply clean_cell_stripped.
Qed.

Lemma styles_stripped (df : DataFrame) :
  forallb is_stripped_text (styles df) = true /\ ~ In (CStr []) (styles df).
Proof.
  unfold styles. split.
  - apply forallb_forall. intros x Hx. apply in_map_iff in Hx.
    destruct Hx as (v & <- & Hv). unfold default_style.
    destruct (cell_eqb v (CStr [])).
    + reflexivity.
    + pose proof (cleaned_stripped df COL_STYLE) as H.
      rewrite forallb_forall in H. now apply H.
  - intros Hin. apply in_map_iff in Hin. destruct Hin as (v & Hd & _).
    unfold default_style in Hd. destruct (cell_eqb v (CStr [])) eqn:E.
    + discriminate.
    + subst v. discriminate.
Qed.

Lemma forallb_filter_mask (X : Type) (f : X -> bool) (m : list bool) (v : list X) :
  forallb f v = true -> forallb f (filter_mask m v) = true.
Proof.
  intros H. rewrite forallb_forall in *. intros x Hx. apply H.
  now apply (in_filter_mask m).
Qed.

(** Whatever table it is given, [standardize_master] returns a table with
    exactly the five canonical columns, in order; every cell is a string
    without outer blanks (no missing value is left), no style is blank, and
    no row is added; a table that had rows keeps at least one. *)
Theorem standardize_master_schema (df d : DataFrame) :
  wf_frame df ->
  standardize_master (Some df) = Ok d ->
  map fst (df_columns d) = REQUIRED_COLS
  /\ wf_frame d
  /\ Forall (fun col : column => forallb is_stripped_text (snd col) = true)
            (df_columns d)
  /\ (forall vals, getitem COL_STYLE d = Ok vals -> ~ In (CStr []) vals)
  /\ length (df_index d) <= length (df_index df)
  /\ (df_empty df = false -> df_index d <> []).
Proof.
  intros Hwf Hok.
  destruct (@standardize_master_result df d Hok) as [[He ->] | (Hne & Hun & ->)].
  - split; [reflexivity |]. split; [repeat constructor |].
    split; [repeat constructor |]. split.
    + intros vals Hg. cbn in Hg. inversion Hg. auto.
    + split; [simpl; lia | congruence].
  - set (m := kept df).
    split; [reflexivity |]. split; [| split; [| split; [| split]]].
    + unfold wf_frame, normal_form. cbn [df_columns df_index]. fold m.
      assert (Hl : forall v : list cell, length v = length (df_index df) ->
                 length (filter_mask m v) = length (filter_mask m (df_index df)))
        by (intros v Hv; now apply filter_mask_length).
      repeat constructor; cbn [snd]; apply Hl;
        try (now apply cleaned_length).
      unfold styles. rewrite length_map. now apply cleaned_length.
    + unfold normal_form. cbn [df_columns]. fold m.
      repeat constructor; cbn [snd]; apply forallb_filter_mask;
        try apply cleaned_stripped. apply styles_stripped.
    + intros vals Hg. cbn in Hg. inversion Hg. subst vals. fold m.
      intros Hin. apply in_filter_mask in Hin. now apply (styles_stripped df).
    + unfold normal_form. cbn [df_index]. apply length_filter_mask_le.
    + intros _ Hnil. pose proof (normal_form_not_empty Hwf Hne) as H.
      unfold df_empty in H. rewrite Hnil in H. discriminate.
Qed.

(** ** The first-mention records of [app_streamlit_plus.py] over a document *)

Lemma NoDup_snoc (X : Type) (l : list X) (x : X) :
  NoDup l -> ~ In x l -> NoDup (l ++ [x]).
Proof.
  induction l as [| y l IH]; intros Hnd Hx; simpl.
  - constructor; [intros [] | constructor].
  - inversion Hnd; subst. constructor.
    + intros Hin. apply in_app_or in Hin. destruct Hin as [Hin | [-> | []]].
      * contradiction.
      * apply Hx. now left.
    + apply IH; [assumption |]. intros Hin. apply Hx. now right.
Qed.

Section PlusFirstMentions.

Variable case_equiv : char -> char -> bool.
Variable py_lower : str -> str.
Variable upper_nonascii : char -> str.

Local Abbreviation issue_key := (fun r : issue => py_lower (i_en_canonical r)).

Section OnePage.

Variable window : Z.
Variables (pno : nat) (norm : str) (used_ocr : bool) (zh_hits : list located).

Local Abbreviation step := (first_mention_for py_lower upper_nonascii window
                              pno norm used_ocr zh_hits).
Local Abbreviation loop := (check_first_loop py_lower upper_nonascii window
                              pno norm used_ocr zh_hits).

(** A record added for a located term: its key was not seen, and the
    pair check finds no Chinese term for it either. *)
Lemma first_mention_for_origin (seen : list str) (h : located) (r : issue) :
  In r (snd (step seen h)) ->
  ~ In (py_lower (en_canonical (snd h))) seen
  /\ issue_key r = py_lower (en_canonical (snd h))
  /\ pair_issue_for window pno norm used_ocr zh_hits h = [as_pair_issue r].
Proof.
  destruct h as [[es ee] erow]. cbn [snd]. intros Hr.
  destruct (in_dec str_eq_dec (py_lower (en_canonical erow)) seen) as [Hin | Hnot].
  - rewrite (@first_mention_for_seen py_lower upper_nonascii window pno norm used_ocr
               zh_hits seen (es, ee, erow) Hin) in Hr. contradiction.
  - rewrite (@first_mention_for_new py_lower upper_nonascii window pno norm used_ocr
               zh_hits seen es ee erow Hnot) in Hr. cbn [snd] in Hr.
    destruct (startswith (py_upper upper_nonascii (first_mention_style erow)) ZH_paren);
      cbn [andb] in Hr; [| contradiction].
    destruct (found_pair window (zh_canonical erow) es zh_hits) eqn:Ef;
      cbn [negb] in Hr; [contradiction |].
    destruct Hr as [<- | []]. split; [exact Hnot |]. split; [reflexivity |].
    unfold pair_issue_for. now rewrite Ef.
Qed.

Lemma check_first_loop_inv (hits : list located) :
  forall seen acc,
    NoDup (map issue_key acc) ->
    (forall r, In r acc -> In (issue_key r) seen) ->
    NoDup (map issue_key (snd (loop hits seen acc)))
    /\ (forall r, In r (snd (loop hits seen acc)) ->
          In (issue_key r) (fst (loop hits seen acc)))
    /\ (forall r, In r (snd (loop hits seen acc)) ->
          In r acc
          \/ exists h, In h hits
                       /\ pair_issue_for window pno norm used_ocr zh_hits h
                          = [as_pair_issue r]).
Proof.
  induction hits as [| h hits IH]; intros seen acc Hnd Hseen.
  - cbn [check_first_loop fst snd]. auto.
  - rewrite check_first_loop_cons.
    set (res := step seen h).
    assert (Hkeep : forall k, In k seen -> In k (fst res)).
    { intros k Hk. apply first_mention_for_fst. now left. }
    assert (Hnew : forall r, In r (snd res) ->
              ~ In (issue_key r) seen /\ In (issue_key r) (fst res)
              /\ pair_issue_for window pno norm used_ocr zh_hits h = [as_pair_issue r]).
    { intros r Hr. destruct (first_mention_for_origin seen h r Hr) as (Hn & Hk & Hp).
      split; [now rewrite Hk |]. split; [| exact Hp].
      apply first_mention_for_fst. right. exact Hk. }
    assert (Hone : snd res = [] \/ exists r, snd res = [r]).
    { unfold res. destruct h as [[es ee] erow]. unfold first_mention_for.
      destruct (negb _); [| now left].
      destruct (startswith _ _); [| now left].
      destruct (negb _); [right; eexists; reflexivity | now left]. }
    destruct (IH (fst res) (acc ++ snd res)) as (H1 & H2 & H3).
    + rewrite map_app. destruct Hone as [-> | (r & Hr)].
      * simpl. now rewrite app_nil_r.
      * rewrite Hr. simpl. apply NoDup_snoc; [exact Hnd |].
        intros Hin. apply in_map_iff in Hin. destruct Hin as (r' & Hk & Hr').
        destruct (Hnew r) as (Hn & _); [rewrite Hr; now left |].
        apply Hn. change (issue_key r) with (py_lower (i_en_canonical r)).
        rewrite <- Hk. now apply Hseen.
    + intros r Hr. apply in_app_or in Hr. destruct Hr as [Hr | Hr].
      * apply Hkeep. now apply Hseen.
      * now apply Hnew.
    + split; [exact H1 |]. split; [exact H2 |].
      intros r Hr. destruct (H3 r Hr) as [Hacc | (h' & Hh' & Hp)].
      * apply in_app_or in Hacc. destruct Hacc as [Hacc | Hacc]; [now left |].
        right. exists h. split; [now left |]. now apply Hnew.
      * right. exists h'. split; [now right | exact Hp].
Qed.

End OnePage.

Section Document.

Variable opts : plus_options.
Variable ocr : nat -> option str.
Variable term_df : list term.

Local Abbreviation page_step := (plus_page case_equiv py_lower upper_nonascii
                                   opts ocr term_df).

Local Abbreviation first_mentions_inv st :=
  (NoDup (map issue_key (first_mentions st))
   /\ (forall r, In r (first_mentions st) -> In (issue_key r) (seen_terms st))
   /\ (check_pair opts = true ->
       forall r, In r (first_mentions st) -> In (as_pair_issue r) (pair_issues st))).

Lemma plus_page_inv (st : plus_state) (pno : nat) (page : extraction) :
  first_mentions_inv st -> first_mentions_inv (page_step st pno page).
Proof.
  intros (Hnd & Hseen & Hpair). unfold plus_page.
  destruct (page_text case_equiv (plus_ocr opts) ocr pno page) as [norm used_ocr].
  destruct (check_pair opts || check_first opts) eqn:Eany;
    [| repeat split; auto].
  set (en_hits := locate case_equiv (en_pats term_df) norm).
  set (zh_hits := locate case_equiv (zh_pats term_df) norm).
  destruct (check_first opts) eqn:Ef.
  - destruct (@check_first_loop_inv (plus_window opts) pno norm used_ocr zh_hits
                en_hits (seen_terms st) (first_mentions st) Hnd Hseen)
      as (H1 & H2 & H3).
    destruct (check_first_loop py_lower upper_nonascii (plus_window opts) pno norm
                used_ocr zh_hits en_hits (seen_terms st) (first_mentions st))
      as [seen firsts] eqn:El.
    cbn [fst snd] in H1, H2, H3.
    split; [exact H1 |]. split; [exact H2 |].
    cbn [first_mentions pair_issues]. intros Hcp r Hr. rewrite Hcp.
    rewrite check_pair_loop_spec. apply in_or_app.
    destruct (H3 r Hr) as [Hold | (h & Hh & Hp)].
    + left. now apply Hpair.
    + right. apply in_flat_map. exists h. split; [exact Hh |].
      rewrite Hp. now left.
  - split; [exact Hnd |]. split; [exact Hseen |].
    cbn [first_mentions pair_issues]. intros Hcp r Hr. rewrite Hcp.
    rewrite check_pair_loop_spec. apply in_or_app. left. now apply Hpair.
Qed.

Lemma plus_pages_inv (pages : list extraction) :
  forall st pno,
    first_mentions_inv st ->
    first_mentions_inv (plus_pages case_equiv py_lower upper_nonascii opts ocr term_df
                          st pno pages).
Proof.
  induction pages as [| page pages IH]; intros st pno H; cbn [plus_pages].
  - exact H.
  - apply IH. now apply plus_page_inv.
Qed.

(** Over a whole document the first-mention check of
    [app_streamlit_plus.py] reports a term at most once, whatever the case
    it is written in; and with the pair check switched on, every
    first-mention record comes with a pair-check record for the same
    place: the same page, term, expected Chinese text and context. *)
Theorem plus_first_mentions_once_and_paired (pages : list extraction) :
  let st := plus_scan case_equiv py_lower upper_nonascii opts ocr term_df pages in
  NoDup (map (fun r => py_lower (i_en_canonical r)) (first_mentions st))
  /\ (check_pair opts = true ->
      forall r, In r (first_mentions st) -> In (as_pair_issue r) (pair_issues st)).
Proof.
  intros st.
  destruct (@plus_pages_inv pages (mkPlusState [] [] [] []) 1) as (H1 & _ & H3).
  - repeat split; try constructor; intros; contradiction.
  - split; [exact H1 | exact H3].
Qed.

End Document.

End PlusFirstMentions.

(** ** Writing the table to the sheet and reading it back *)

Lemma map_nth_seq (X : Type) (l : list X) (d : X) :
  map (fun i => nth i l d) (seq 0 (length l)) = l.
Proof.
  induction l as [| x l IH]; [reflexivity |].
  cbn [length seq map nth]. f_equal.
  rewrite <- seq_shift, map_map. exact IH.
Qed.

Lemma filter_mask_full (X Y : Type) (m : list bool) :
  forall (v : list X) (w : list Y),
    length m = length v -> filter_mask m v = v ->
    length w = length v -> filter_mask m w = w.
Proof.
  induction m as [| t m IH]; intros [| x v] [| y w] Hm Hv Hw;
    simpl in *; try discriminate; try reflexivity.
  destruct t.
  - f_equal. apply (IH v w); [lia | congruence | lia].
  - exfalso. pose proof (length_filter_mask_le m v) as Hle.
    rewrite Hv in Hle. simpl in Hle. lia.
Qed.

Lemma list_max_const (X : Type) (l : list X) (k : nat) :
  l <> [] -> list_max (map (fun _ => k) l) = k.
Proof.
  induction l as [| x l IH]; [congruence |]. intros _.
  cbn [map list_max fold_right]. destruct l as [| y l]; [simpl; lia |].
  change (fold_right Nat.max 0 (map (fun _ : X => k) (y :: l)))
    with (list_max (map (fun _ : X => k) (y :: l))).
  rewrite IH by discriminate. lia.
Qed.

Section FiveColumns.

Variables (idx : list Z) (a b c d e : list cell).

Local Abbreviation five :=
  (mkDF idx [(COL_EN, a); (COL_ZH, b); (COL_ABBR, c); (COL_STYLE, d); (COL_VARIANT, e)]).

Hypothesis Ha : length a = length idx.
Hypothesis Hb : length b = length idx.
Hypothesis Hc : length c = length idx.
Hypothesis Hd : length d = length idx.
Hypothesis He : length e = length idx.

Lemma frame_of_rows_five :
  frame_of_rows REQUIRED_COLS (df_rows five) = Some (reset_index five).
Proof.
  unfold df_rows, reset_index. cbn [df_index df_columns map snd].
  destruct idx as [| i0 idx'] eqn:Ei.
  - destruct a, b, c, d, e; try discriminate. reflexivity.
  - rewrite <- Ei in *. unfold frame_of_rows.
    set (rows := map _ (seq 0 (length idx))).
    assert (Hrows : rows <> []).
    { unfold rows. rewrite Ei. discriminate. }
    assert (Hw : list_max (map (@length cell) rows) = 5).
    { unfold rows. rewrite map_map. cbn [length].
      apply list_max_const. rewrite Ei. discriminate. }
    destruct rows as [| r0 rows'] eqn:Er; [congruence |].
    rewrite <- Er in *. rewrite Hw. cbn [Nat.eqb REQUIRED_COLS length seq map nth].
    f_equal. f_equal.
    + unfold rows. now rewrite length_map, length_seq.
    + unfold rows. rewrite !map_map. cbn [nth].
      rewrite <- Ha at 1. rewrite <- Hb at 1. rewrite <- Hc at 1.
      rewrite <- Hd at 1. rewrite <- He at 1.
      now rewrite !map_nth_seq.
Qed.

Lemma df_rows_five_text :
  forallb is_stripped_text a = true -> forallb is_stripped_text b = true ->
  forallb is_stripped_text c = true -> forallb is_stripped_text d = true ->
  forallb is_stripped_text e = true ->
  map (map CStr) (map (map cell_text) (df_rows five)) = df_rows five.
Proof.
  intros Pa Pb Pc Pd Pe. unfold df_rows. cbn [df_index df_columns map snd].
  rewrite !map_map. apply map_ext_in. intros i Hi. apply in_seq in Hi.
  assert (Hcell : forall l, forallb is_stripped_text l = true ->
                            length l = length idx ->
                            CStr (cell_text (nth i l CNaN)) = nth i l CNaN).
  { intros l Pl Hl. rewrite forallb_forall in Pl.
    assert (Hin : In (nth i l CNaN) l) by (apply nth_In; lia).
    apply Pl in Hin. destruct (nth i l CNaN); [reflexivity | discriminate | discriminate]. }
  cbn [map]. now rewrite !Hcell.
Qed.

End FiveColumns.

Lemma cleaned_reset_index (df : DataFrame) (c : str) :
  cleaned (reset_index df) c = cleaned df c.
Proof.
  unfold cleaned, reset_index, getitem. cbn [df_columns df_index].
  now rewrite length_map, length_seq.
Qed.

Lemma normal_form_reset_index (df : DataFrame) :
  wf_frame df -> normal_form df = df ->
  normal_form (reset_index df) = reset_index df.
Proof.
  intros Hwf Hfix.
  assert (Hkept : kept (reset_index df) = kept df).
  { unfold kept, keys_of. now rewrite !cleaned_reset_index. }
  assert (Hidx : filter_mask (kept df) (df_index df) = df_index df).
  { transitivity (df_index (normal_form df)); [reflexivity | now rewrite Hfix]. }
  assert (Hlen : length (kept df) = length (df_index df)).
  { unfold kept. rewrite first_mask_length. now apply keys_of_length. }
  unfold normal_form at 1. rewrite Hkept.
  unfold styles. rewrite !cleaned_reset_index. fold (styles df).
  unfold reset_index at 1. cbn [df_index].
  rewrite (@filter_mask_full Z Z (kept df) (df_index df)
             (map Z.of_nat (seq 0 (length (df_index df)))) Hlen Hidx)
    by now rewrite length_map, length_seq.
  unfold reset_index. f_equal.
  transitivity (df_columns (normal_form df)); [reflexivity | now rewrite Hfix].
Qed.

Lemma wf_reset_index (df : DataFrame) : wf_frame df -> wf_frame (reset_index df).
Proof.
  unfold wf_frame, reset_index. cbn [df_columns df_index].
  now rewrite length_map, length_seq.
Qed.

(** [read_master_from_ws] applied to what [write_master_to_ws] sends: the
    values sent are strings, and once read back they give the normalised
    table again, its rows numbered from 0. *)
Theorem write_then_read_master (df d : DataFrame) :
  wf_frame df ->
  standardize_master (Some df) = Ok d ->
  exists texts,
    write_master_to_ws df = Ok (map (map CStr) texts)
    /\ read_master_from_ws texts = Some (Ok (reset_index d)).
Proof.
  intros Hwf Hok. unfold write_master_to_ws. rewrite Hok. cbn [bind].
  destruct (@standardize_master_result df d Hok) as [[He ->] | (Hne & Hun & ->)].
  - exists [REQUIRED_COLS]. split; reflexivity.
  - set (m := kept df).
    assert (Hlen : forall v : list cell, length v = length (df_index df) ->
               length (filter_mask m v) = length (filter_mask m (df_index df)))
      by (intros v Hv; now apply filter_mask_length).
    assert (Hst : length (styles df) = length (df_index df))
      by (unfold styles; rewrite length_map; now apply cleaned_length).
    pose proof (@frame_of_rows_five (filter_mask m (df_index df))
                  (filter_mask m (cleaned df COL_EN)) (filter_mask m (cleaned df COL_ZH))
                  (filter_mask m (cleaned df COL_ABBR)) (filter_mask m (styles df))
                  (filter_mask m (cleaned df COL_VARIANT))
                  (Hlen _ (cleaned_length COL_EN Hwf)) (Hlen _ (cleaned_length COL_ZH Hwf))
                  (Hlen _ (cleaned_length COL_ABBR Hwf)) (Hlen _ Hst)
                  (Hlen _ (cleaned_length COL_VARIANT Hwf))) as Hframe.
    pose proof (@df_rows_five_text (filter_mask m (df_index df))
                  (filter_mask m (cleaned df COL_EN)) (filter_mask m (cleaned df COL_ZH))
                  (filter_mask m (cleaned df COL_ABBR)) (filter_mask m (styles df))
                  (filter_mask m (cleaned df COL_VARIANT))
                  (Hlen _ (cleaned_length COL_EN Hwf)) (Hlen _ (cleaned_length COL_ZH Hwf))
                  (Hlen _ (cleaned_length COL_ABBR Hwf)) (Hlen _ Hst)
                  (Hlen _ (cleaned_length COL_VARIANT Hwf))
                  (forallb_filter_mask _ m _ (cleaned_stripped df COL_EN))
                  (forallb_filter_mask _ m _ (cleaned_stripped df COL_ZH))
                  (forallb_filter_mask _ m _ (cleaned_stripped df COL_ABBR))
                  (forallb_filter_mask _ m _ (proj1 (styles_stripped df)))
                  (forallb_filter_mask _ m _ (cleaned_stripped df COL_VARIANT))) as Htext.
    assert (Hframe' : frame_of_rows REQUIRED_COLS (df_rows (normal_form df))
                      = Some (reset_index (normal_form df))) by exact Hframe.
    assert (Htext' : map (map CStr) (map (map cell_text) (df_rows (normal_form df)))
                     = df_rows (normal_form df)) by exact Htext.
    clear Hframe Htext.
    exists (REQUIRED_COLS :: map (map cell_text) (df_rows (normal_form df))).
    split.
    + cbn [map]. rewrite Htext'. reflexivity.
    + cbn [read_master_from_ws]. rewrite Htext', Hframe'. f_equal.
      pose proof (normal_form_fixed Hwf) as Hfix.
      assert (Hwfn : wf_frame (normal_form df)).
      { unfold wf_frame, normal_form. cbn [df_columns df_index]. fold m.
        repeat constructor; cbn [snd]; apply Hlen; try (now apply cleaned_length).
        exact Hst. }
      rewrite standardize_master_normal_form.
      * f_equal. now apply normal_form_reset_index.
      * pose proof (normal_form_not_empty Hwf Hne) as Hn.
        unfold df_empty, reset_index in *. cbn [df_index df_columns].
        now rewrite length_map, length_seq.
      * unfold reset_index, normal_form. cbn [df_columns]. apply frame_unambiguous.
Qed.

(** ** Every hit is a word of the pattern *)

Section Soundness.

Variable case_equiv : char -> char -> bool.
Variable ic : bool.

Lemma rep_sound (A : Type) (p : cset) (s : str) :
  forall lo hi i (k : str -> nat -> option A) res,
    rep p lo hi s i k = Some res ->
    exists w s', s = w ++ s' /\ forallb (cset_mem p) w = true
                 /\ lo <= length w /\ within hi (length w)
                 /\ k s' (i + length w) = Some res.
Proof.
  induction s as [| x s IH]; intros lo hi i k res.
  - cbn [rep]. destruct (Nat.eqb_spec lo 0); [| discriminate]. intros H.
    exists [], []. simpl. rewrite Nat.add_0_r.
    repeat split; auto; [lia | destruct hi; simpl; [lia | exact I]].
  - cbn [rep].
    assert (Hstop : (if Nat.eqb lo 0 then k (x :: s) i else None) = Some res ->
              exists w s', x :: s = w ++ s' /\ forallb (cset_mem p) w = true
                           /\ lo <= length w /\ within hi (length w)
                           /\ k s' (i + length w) = Some res).
    { destruct (Nat.eqb_spec lo 0); [| discriminate]. intros H.
      exists [], (x :: s). simpl. rewrite Nat.add_0_r.
      repeat split; auto; [lia | destruct hi; simpl; [lia | exact I]]. }
    destruct (cset_mem p x) eqn:Hx; cbn [andb]; [| exact Hstop].
    destruct (may_take hi) eqn:Hmay; [| exact Hstop].
    destruct (rep p (pred lo) (dec_hi hi) s (S i) k) as [r |] eqn:E; [| exact Hstop].
    intros H. inversion H; subst r. apply IH in E.
    destruct E as (w & s' & -> & Hw & Hlo & Hhi & Hk).
    exists (x :: w), s'. simpl. rewrite Hx, Hw.
    replace (i + S (length w)) with (S i + length w) by lia.
    repeat split; auto; [lia |].
    destruct hi as [[| h] |]; simpl in *; [discriminate | lia | exact I].
Qed.

Lemma mtch_sound (A : Type) (r : regex) :
  forall s i cs (k : str -> nat -> caps -> option A) res,
    mtch case_equiv ic r s i cs k = Some res ->
    exists w s' cs', s = w ++ s' /\ lang case_equiv ic r w
                     /\ k s' (i + length w) cs' = Some res.
Proof.
  induction r as [| c | p | p lo hi | r1 IH1 r2 IH2 | r1 IH1 r2 IH2 | g r IH];
    intros s i cs k res; cbn [mtch].
  - intros H. exists [], s, cs. simpl. rewrite Nat.add_0_r.
    repeat split; auto. constructor.
  - destruct s as [| x s]; [discriminate |].
    destruct (lit_match case_equiv ic c x) eqn:Hx; [| discriminate]. intros H.
    exists [x], s, cs. simpl. replace (i + 1) with (S i) by lia.
    repeat split; auto. now constructor.
  - destruct s as [| x s]; [discriminate |].
    destruct (cset_mem p x) eqn:Hx; [| discriminate]. intros H.
    exists [x], s, cs. simpl. replace (i + 1) with (S i) by lia.
    repeat split; auto. now constructor.
  - intros H. apply rep_sound in H. destruct H as (w & s' & -> & Hw & Hlo & Hhi & Hk).
    exists w, s', cs. repeat split; auto. now constructor.
  - intros H. apply IH1 in H. destruct H as (w1 & s1 & cs1 & -> & H1 & H).
    apply IH2 in H. destruct H as (w2 & s2 & cs2 & -> & H2 & H).
    exists (w1 ++ w2), s2, cs2. rewrite <- app_assoc, length_app, Nat.add_assoc.
    repeat split; auto. now constructor.
  - destruct (mtch case_equiv ic r1 s i cs k) as [x |] eqn:E.
    + intros H. inversion H; subst x. apply IH1 in E.
      destruct E as (w & s' & cs' & -> & Hl & Hk). exists w, s', cs'.
      repeat split; auto. now apply lang_alt_l.
    + intros H. apply IH2 in H.
      destruct H as (w & s' & cs' & -> & Hl & Hk). exists w, s', cs'.
      repeat split; auto. now apply lang_alt_r.
  - intros H. apply IH in H. destruct H as (w & s' & cs' & -> & Hl & Hk).
    exists w, s', ((g, (i, i + length w)) :: cs'). repeat split; auto. now constructor.
Qed.

Lemma match_at_sound (ma : bool) (r : regex) (s : str) (i : nat) (m : rmatch) :
  match_at case_equiv ic ma r s i = Some m ->
  exists w s', s = w ++ s' /\ lang case_equiv ic r w
               /\ m_start m = i /\ m_end m = i + length w.
Proof.
  unfold match_at. intros H. apply mtch_sound in H.
  destruct H as (w & s' & cs' & -> & Hl & Hk). exists w, s'.
  destruct (ma && Nat.eqb (i + length w) i); [discriminate |].
  inversion Hk. auto.
Qed.

(** Every hit of [finditer] comes from a match attempt at its start. *)
Lemma finditer_from_hits (r : regex) (s : str) :
  forall i skip m,
    In m (finditer_from case_equiv ic r s i skip) ->
    exists j ma, j <= length s
                 /\ match_at case_equiv ic ma r (skipn j s) (i + j) = Some m.
Proof.
  induction s as [| x s IH]; intros i skip m Hin.
  - assert (Hhere : forall ma, match_at case_equiv ic ma r [] i = Some m ->
              exists j ma, j <= length (@nil char)
                           /\ match_at case_equiv ic ma r (skipn j []) (i + j) = Some m).
    { intros ma H. exists 0, ma. simpl. rewrite Nat.add_0_r. auto. }
    destruct skip; cbn [finditer_from] in Hin; [| contradiction].
    destruct (match_at case_equiv ic false r [] i) as [m0 |] eqn:E0; [| contradiction].
    destruct (Nat.ltb i (m_end m0)).
    + destruct Hin as [<- | []]. now apply (Hhere false).
    + destruct Hin as [<- | Hin]; [now apply (Hhere false) |].
      destruct (match_at case_equiv ic true r [] i) as [m1 |] eqn:E1; [| contradiction].
      destruct Hin as [<- | []]. now apply (Hhere true).
  - assert (Hhere : forall ma, match_at case_equiv ic ma r (x :: s) i = Some m ->
              exists j ma, j <= length (x :: s)
                           /\ match_at case_equiv ic ma r (skipn j (x :: s)) (i + j) = Some m).
    { intros ma H. exists 0, ma. simpl. rewrite Nat.add_0_r. split; [lia | exact H]. }
    assert (Hrec : forall skip', In m (finditer_from case_equiv ic r s (S i) skip') ->
               exists j ma, j <= length (x :: s)
                            /\ match_at case_equiv ic ma r (skipn j (x :: s)) (i + j) = Some m).
    { intros skip' H. apply IH in H. destruct H as (j & ma & Hj & H).
      exists (S j), ma. simpl. replace (i + S j) with (S i + j) by lia.
      split; [lia | exact H]. }
    destruct skip; cbn [finditer_from] in Hin; [| now apply Hrec in Hin].
    destruct (match_at case_equiv ic false r (x :: s) i) as [m0 |] eqn:E0;
      [| now apply Hrec in Hin].
    destruct (Nat.ltb i (m_end m0)).
    + destruct Hin as [<- | Hin]; [now apply (Hhere false) | now apply Hrec in Hin].
    + destruct Hin as [<- | Hin]; [now apply (Hhere false) |].
      destruct (match_at case_equiv ic true r (x :: s) i) as [m1 |] eqn:E1;
        [| now apply Hrec in Hin].
      destruct Hin as [<- | Hin]; [now apply (Hhere true) | now apply Hrec in Hin].
Qed.

(** A hit spans a word of the pattern. *)
Lemma finditer_word (r : regex) (text : str) (m : rmatch) :
  In m (finditer case_equiv ic r text) ->
  exists a w b, text = a ++ w ++ b /\ lang case_equiv ic r w
                /\ m_start m = length a /\ m_end m = length a + length w.
Proof.
  unfold finditer. intros H. apply finditer_from_hits in H.
  destruct H as (j & ma & Hj & H). simpl in H.
  apply match_at_sound in H. destruct H as (w & s' & Heq & Hl & Hs & He).
  exists (firstn j text), w, s'. rewrite <- Heq, firstn_skipn.
  rewrite length_firstn, Nat.min_l by exact Hj. auto.
Qed.

(** The first hit is found where no earlier match attempt succeeds. *)
Lemma finditer_from_none (r : regex) (s : str) :
  forall i,
    (forall j, j <= length s ->
               match_at case_equiv ic false r (skipn j s) (i + j) = None) ->
    finditer_from case_equiv ic r s i 0 = [].
Proof.
  induction s as [| x s IH]; intros i H.
  - cbn [finditer_from]. specialize (H 0 (Nat.le_0_l _)). simpl in H.
    rewrite Nat.add_0_r in H. now rewrite H.
  - cbn [finditer_from]. pose proof (H 0 (Nat.le_0_l _)) as H0. simpl in H0.
    rewrite Nat.add_0_r in H0. rewrite H0. apply IH. intros j Hj.
    specialize (H (S j)). simpl in H. replace (S i + j) with (i + S j) by lia.
    apply H. lia.
Qed.

Lemma finditer_from_first (r : regex) (a s : str) (m : rmatch) :
  forall i,
    (forall j, j < length a ->
               match_at case_equiv ic false r (skipn j (a ++ s)) (i + j) = None) ->
    match_at case_equiv ic false r s (i + length a) = Some m ->
    exists rest, finditer_from case_equiv ic r (a ++ s) i 0 = m :: rest.
Proof.
  induction a as [| x a IH]; intros i Hnone Hm.
  - simpl in *. rewrite Nat.add_0_r in Hm.
    destruct s as [| y s]; cbn [finditer_from]; rewrite Hm;
      destruct (Nat.ltb i (m_end m)); eauto.
  - cbn [app finditer_from].
    pose proof (Hnone 0 (Nat.lt_0_succ _)) as H0. simpl in H0.
    rewrite Nat.add_0_r in H0. rewrite H0. apply IH.
    + intros j Hj. specialize (Hnone (S j)). simpl in Hnone.
      replace (S i + j) with (i + S j) by lia. apply Hnone. lia.
    + now replace (S i + length a) with (i + length (x :: a)) by (simpl; lia).
Qed.

End Soundness.

(** ** The key of a sheet *)

Section SheetIdFacts.

Variable case_equiv : char -> char -> bool.

Local Abbreviation extract := (extract_sheet_id case_equiv).

Lemma sheet_id_char (c : char) :
  cset_mem cs_sheet_id c = true -> c <> slash /\ isspace c = false.
Proof.
  unfold cs_sheet_id, slash, isspace, in_range, char_eqb. cbn [cset_mem].
  unfold in_range, char_eqb. intros H.
  assert (Hc : (c = 0x2d \/ (0x30 <= c <= 0x39) \/ (0x41 <= c <= 0x5a)
                \/ c = 0x5f \/ (0x61 <= c <= 0x7a))%N).
  { repeat (apply orb_true_iff in H; destruct H as [H | H]);
      try (apply andb_true_iff in H; destruct H as [H1 H2];
           apply N.leb_le in H1, H2; lia);
      apply N.eqb_eq in H; lia. }
  split; [lia |].
  repeat (apply orb_false_iff; split);
    try (apply andb_false_iff;
         destruct (N.leb_spec 0x09 c), (N.leb_spec c 0x0D),
                  (N.leb_spec 0x1C c), (N.leb_spec c 0x20),
                  (N.leb_spec 0x2000 c), (N.leb_spec c 0x200A); auto; lia);
    apply N.eqb_neq; lia.
Qed.

Lemma startswith_app (M t : str) : startswith (M ++ t) M = true.
Proof.
  induction M as [| c M IH]; [reflexivity |].
  cbn [app startswith]. now rewrite char_eqb_refl, IH.
Qed.

Lemma lang_lits (M w : str) :
  lang case_equiv false (join (map Lit M)) w <-> w = M.
Proof.
  revert w. induction M as [| c M IH]; intros w; cbn [map join fold_right].
  - split.
    + intros H. now inversion H.
    + intros ->. constructor.
  - split.
    + intros H. inversion H as [| | | | r1 r2 w1 w2 H1 H2 | | |]; subst.
      inversion H1 as [| c' x Hx | | | | | |]; subst.
      apply IH in H2. subst. unfold lit_match in Hx. cbn [andb] in Hx.
      rewrite orb_false_r in Hx. apply char_eqb_eq in Hx. now subst.
    + intros ->. change (c :: M) with ([c] ++ M). apply lang_cat.
      * constructor. unfold lit_match. now rewrite char_eqb_refl.
      * now apply IH.
Qed.

Lemma lang_sheet_id (w : str) :
  lang case_equiv false sheet_id_re w <->
  exists id, w = SHEET_MARKER ++ id /\ id <> []
             /\ forallb (cset_mem cs_sheet_id) id = true.
Proof.
  unfold sheet_id_re, plus. split.
  - intros H. inversion H as [| | | | r1 r2 w1 w2 H1 H2 | | |]; subst.
    apply (proj1 (lang_lits SHEET_MARKER w1)) in H1. subst.
    inversion H2 as [| | | p lo hi w Hw Hlo Hhi | | | |]; subst.
    exists w2. repeat split; auto. intros ->. simpl in Hlo. lia.
  - intros (id & -> & Hne & Hid). apply lang_cat; [now apply lang_lits |].
    apply lang_rep; [exact Hid | | exact I]. destruct id; [congruence | simpl; lia].
Qed.

Lemma slice_middle (X : Type) (a w b : list X) :
  firstn (length a + length w - length a) (skipn (length a) (a ++ w ++ b)) = w.
Proof.
  replace (length a + length w - length a) with (length w) by lia.
  rewrite skipn_app, skipn_all, Nat.sub_diag. cbn [app skipn].
  rewrite firstn_app, firstn_all, Nat.sub_diag. cbn [firstn]. apply app_nil_r.
Qed.

(** The first hit gives a key: characters of the class, as many as there
    are. *)
Lemma first_hit_key (s : str) (m : rmatch) (rest : list rmatch) :
  finditer case_equiv false sheet_id_re s = m :: rest ->
  sheet_id_group s m <> []
  /\ forallb (cset_mem cs_sheet_id) (sheet_id_group s m) = true.
Proof.
  intros E.
  assert (Hin : In m (finditer case_equiv false sheet_id_re s)) by (rewrite E; now left).
  apply finditer_word in Hin. destruct Hin as (a & w & b & -> & Hl & Hs & He).
  apply lang_sheet_id in Hl. destruct Hl as (id & -> & Hne & Hid).
  assert (Hg : sheet_id_group (a ++ (SHEET_MARKER ++ id) ++ b) m = id).
  { unfold sheet_id_group, slice. rewrite Hs, He, length_app.
    replace (a ++ (SHEET_MARKER ++ id) ++ b)
      with ((a ++ SHEET_MARKER) ++ id ++ b) by (now rewrite <- !app_assoc).
    replace (length a + length SHEET_MARKER) with (length (a ++ SHEET_MARKER))
      by (now rewrite length_app).
    replace (length a + (length SHEET_MARKER + length id))
      with (length (a ++ SHEET_MARKER) + length id)
      by (rewrite length_app; lia).
    apply slice_middle. }
  rewrite Hg. auto.
Qed.

Lemma no_slash_no_hit (s : str) :
  ~ In slash s -> finditer case_equiv false sheet_id_re s = [].
Proof.
  intros Hno. destruct (finditer case_equiv false sheet_id_re s) as [| m rest] eqn:E;
    [reflexivity |].
  assert (Hin : In m (finditer case_equiv false sheet_id_re s)) by (rewrite E; now left).
  apply finditer_word in Hin. destruct Hin as (a & w & b & -> & Hl & _).
  apply lang_sheet_id in Hl. destruct Hl as (id & -> & _).
  exfalso. apply Hno. apply in_or_app. right. apply in_or_app. left. now left.
Qed.

Lemma strip_decompose (s : str) : exists w1 w2, s = w1 ++ strip s ++ w2.
Proof.
  assert (Hl : forall t, exists w, t = w ++ lstrip t).
  { induction t as [| c t [w IH]]; [exists []; reflexivity |].
    simpl. destruct (isspace c).
    - exists (c :: w). simpl. now f_equal.
    - now exists []. }
  destruct (Hl s) as (w1 & H1). unfold strip, rstrip.
  destruct (Hl (rev (lstrip s))) as (w & H2).
  exists w1, (rev w). rewrite <- rev_app_distr, <- H2, rev_involutive. exact H1.
Qed.

(** A text without any slash is taken as a key: it is returned stripped. *)
Lemma extract_no_slash (s : str) : ~ In slash s -> extract s = strip s.
Proof.
  intros H. unfold extract_sheet_id, re_search. now rewrite no_slash_no_hit.
Qed.

(** [extract_sheet_id] is idempotent, returns a text without slash
    stripped, and returns a key, a run of the characters [a-zA-Z0-9-_], as
    it stands. *)
Theorem extract_sheet_id_idempotent (s : str) :
  extract (extract s) = extract s
  /\ (~ In slash s -> extract s = strip s)
  /\ (forallb (cset_mem cs_sheet_id) s = true -> extract s = s).
Proof.
  assert (Hkey : forall id, forallb (cset_mem cs_sheet_id) id = true -> extract id = id).
  { intros id Hid. rewrite forallb_forall in Hid. rewrite extract_no_slash.
    - apply strip_no_space. intros x Hx. now apply sheet_id_char, Hid.
    - intros Hin. apply Hid in Hin. now apply sheet_id_char in Hin. }
  split; [| split; [apply extract_no_slash | apply Hkey]].
  unfold extract_sheet_id at 2 3, re_search.
  destruct (finditer case_equiv false sheet_id_re s) as [| m rest] eqn:E.
  - unfold extract_sheet_id, re_search.
    destruct (finditer case_equiv false sheet_id_re (strip s)) as [| m' rest'] eqn:E';
      [apply strip_idem |].
    exfalso.
    assert (Hin : In m' (finditer case_equiv false sheet_id_re (strip s)))
      by (rewrite E'; now left).
    apply finditer_word in Hin. destruct Hin as (a & w & b & Heq & Hl & _).
    destruct (strip_decompose s) as (w1 & w2 & Hs).
    apply (@finditer_found case_equiv false sheet_id_re (w1 ++ a) w (b ++ w2)) in Hl.
    apply Hl. rewrite <- E. f_equal. rewrite Hs at 1. rewrite Heq.
    now rewrite <- !app_assoc.
  - apply Hkey. now apply (@first_hit_key s m rest E).
Qed.

(** The key of a sheet address: when the marker "/spreadsheets/d/" does not
    occur earlier in the text, [extract_sheet_id] returns the run of
    characters [a-zA-Z0-9-_] that follows it. *)
Theorem extract_sheet_id_of_url (pre id rest : str) :
  id <> [] ->
  forallb (cset_mem cs_sheet_id) id = true ->
  match rest with [] => true | x :: _ => negb (cset_mem cs_sheet_id x) end = true ->
  (forall j, j < length pre ->
             startswith (skipn j (pre ++ SHEET_MARKER ++ id ++ rest)) SHEET_MARKER = false) ->
  extract (pre ++ SHEET_MARKER ++ id ++ rest) = id.
Proof.
  intros Hne Hid Hrest Hpre.
  set (m := mkMatch (length pre) (length pre + length SHEET_MARKER + length id) []).
  assert (Hm : match_at case_equiv false false sheet_id_re (SHEET_MARKER ++ id ++ rest)
                 (0 + length pre) = Some m).
  { unfold match_at, sheet_id_re. cbn [mtch].
    assert (Hlits : forall M t i cs (k : str -> nat -> caps -> option rmatch),
              mtch case_equiv false (join (map Lit M)) (M ++ t) i cs k
              = k t (i + length M) cs).
    { induction M as [| c M IH]; intros t i cs k; cbn [map join fold_right mtch app].
      - simpl. now rewrite Nat.add_0_r.
      - unfold lit_match. rewrite char_eqb_refl. cbn [orb].
        change (fold_right Cat Eps (map Lit M)) with (join (map Lit M)).
        rewrite IH. f_equal. simpl. lia. }
    rewrite Hlits. unfold plus. cbn [mtch].
    rewrite (@rep_run rmatch cs_sheet_id id rest 1 _ _ m); auto.
    destruct id; [congruence | simpl; lia]. }
  destruct (@finditer_from_first case_equiv false sheet_id_re pre
              (SHEET_MARKER ++ id ++ rest) m 0) as (tl & Hf).
  - intros j Hj. rewrite Nat.add_0_l.
    destruct (match_at case_equiv false false sheet_id_re
                (skipn j (pre ++ SHEET_MARKER ++ id ++ rest)) j) as [m' |] eqn:E;
      [| reflexivity].
    exfalso. apply match_at_sound in E. destruct E as (w & s' & Heq & Hl & _).
    apply lang_sheet_id in Hl. destruct Hl as (id' & -> & _).
    specialize (Hpre j Hj). rewrite Heq, <- app_assoc, startswith_app in Hpre.
    discriminate.
  - exact Hm.
  - unfold extract_sheet_id, re_search, finditer. rewrite Hf.
    unfold sheet_id_group, slice, m. cbn [m_start m_end].
    replace (pre ++ SHEET_MARKER ++ id ++ rest)
      with ((pre ++ SHEET_MARKER) ++ id ++ rest) by (now rewrite <- !app_assoc).
    replace (length pre + length SHEET_MARKER) with (length (pre ++ SHEET_MARKER))
      by (now rewrite length_app).
    apply slice_middle.
Qed.

End SheetIdFacts.

(** ** Pairs with their place *)

Lemma drop_duplicates_from_kept (A : Type) (key : A -> triple) (rows : list A) :
  forall seen r,
    In r (drop_duplicates_from key seen rows) ->
    exists pre post, rows = pre ++ r :: post
                     /\ (forall x, In x pre -> key x <> key r).
Proof.
  induction rows as [| x rows IH]; intros seen r Hr; [contradiction |].
  cbn [drop_duplicates_from] in Hr.
  destruct (existsb (triple_eqb (key x)) seen) eqn:E.
  - pose proof (drop_duplicates_from_in _ _ _ _ Hr) as [_ Hns].
    destruct (IH seen r Hr) as (pre & post & -> & Hpre).
    exists (x :: pre), post. split; [reflexivity |].
    intros y [<- | Hy]; [| now apply Hpre].
    intros Heq. apply Hns. rewrite <- Heq. now apply triple_in_spec.
  - destruct Hr as [<- | Hr].
    + exists [], rows. split; [reflexivity | intros ? []].
    + pose proof (drop_duplicates_from_in _ _ _ _ Hr) as [_ Hns].
      destruct (IH (key x :: seen) r Hr) as (pre & post & -> & Hpre).
      exists (x :: pre), post. split; [reflexivity |].
      intros y [<- | Hy]; [| now apply Hpre].
      intros Heq. apply Hns. left. exact Heq.
Qed.

Lemma map_drop_duplicates_from (A B : Type) (f : A -> B) (key : B -> triple)
    (rows : list A) :
  forall seen,
    map f (drop_duplicates_from (fun x => key (f x)) seen rows)
    = drop_duplicates_from key seen (map f rows).
Proof.
  induction rows as [| x rows IH]; intros seen; [reflexivity |].
  cbn [drop_duplicates_from map].
  destruct (existsb (triple_eqb (key (f x))) seen); cbn [map]; now rewrite IH.
Qed.

Section WithLocationFacts.

Variable case_equiv : char -> char -> bool.

Local Abbreviation row_key := (fun r : term * place * str => term_key (fst (fst r))).

Lemma page_pairs_page (n : nat) (text : str) (x : term * place) :
  In x (page_pairs case_equiv n text) -> p_page (snd x) = n.
Proof.
  unfold page_pairs, placed_abbr, placed_plain. intros H.
  repeat (apply in_app_or in H; destruct H as [H | H]);
    apply in_map_iff in H; destruct H as (m & <- & _); reflexivity.
Qed.

Lemma pairs_from_app (a b : list str) :
  forall n,
    pairs_from case_equiv n (a ++ b)
    = pairs_from case_equiv n a ++ pairs_from case_equiv (n + length a) b.
Proof.
  induction a as [| t a IH]; intros n; cbn [app pairs_from length].
  - now rewrite Nat.add_0_r.
  - rewrite IH, <- app_assoc. do 3 f_equal. lia.
Qed.

Lemma pairs_from_page (l : list str) :
  forall n x, In x (pairs_from case_equiv n l) ->
              n <= p_page (snd x) /\ p_page (snd x) < n + length l.
Proof.
  induction l as [| t l IH]; intros n x H; [contradiction |].
  cbn [pairs_from] in H. apply in_app_or in H. destruct H as [H | H].
  - apply page_pairs_page in H. simpl. lia.
  - apply IH in H. simpl. lia.
Qed.

Lemma page_pairs_terms (n : nat) (text : str) :
  map fst (page_pairs case_equiv n text)
  = rows_abbr case_equiv text pat1 ++ rows_plain case_equiv text pat2
    ++ rows_plain case_equiv text pat3 ++ rows_plain case_equiv text pat4
    ++ rows_plain case_equiv text pat5.
Proof.
  unfold page_pairs, placed_abbr, placed_plain, rows_abbr, rows_plain.
  now rewrite !map_app, !map_map.
Qed.

(** [parse_pdf_pairs_with_location] keeps one row for every pair found,
    placed on the first page where the pair is found; every row carries a
    page number of the document; and on a document of one page the pairs
    are those of [parse_pdf_pairs], in the same order. *)
Theorem parse_pdf_pairs_with_location_first_page (before after : list str) (text : str) :
  let pages := before ++ text :: after in
  let rows := parse_pdf_pairs_with_location case_equiv pages in
  NoDup (map row_key rows)
  /\ (forall r, In r rows ->
        snd r = PDF_SOURCE
        /\ 1 <= p_page (snd (fst r)) /\ p_page (snd (fst r)) <= length pages)
  /\ (forall r, In r rows -> p_page (snd (fst r)) = S (length before) ->
        In (fst r) (page_pairs case_equiv (S (length before)) text)
        /\ forall x, In x (pairs_from case_equiv 1 before) ->
                     term_key (fst x) <> row_key r)
  /\ (forall x, In x (pairs_from case_equiv 1 pages) ->
        exists r, In r rows /\ row_key r = term_key (fst x))
  /\ map (fun r => (fst (fst r), snd r)) (parse_pdf_pairs_with_location case_equiv [text])
     = parse_pdf_pairs_extract case_equiv text.
Proof.
  intros pages rows. unfold rows, parse_pdf_pairs_with_location, drop_duplicates.
  set (all := map (fun r => (r, PDF_SOURCE)) (pairs_from case_equiv 1 pages)).
  assert (Hall : forall r, In r all ->
            snd r = PDF_SOURCE /\ In (fst r) (pairs_from case_equiv 1 pages)).
  { intros r Hr. apply in_map_iff in Hr. destruct Hr as (x & <- & Hx). auto. }
  split; [apply drop_duplicates_from_nodup |].
  split; [| split; [| split]].
  - intros r Hr. apply drop_duplicates_from_in in Hr. destruct Hr as [Hr _].
    apply Hall in Hr. destruct Hr as [Hs Hr]. split; [exact Hs |].
    apply pairs_from_page in Hr. lia.
  - intros r Hr Hpage. pose proof Hr as Hin.
    apply drop_duplicates_from_in in Hin. destruct Hin as [Hin _].
    apply Hall in Hin. destruct Hin as [_ Hin].
    unfold pages in Hin. rewrite pairs_from_app in Hin. cbn [pairs_from] in Hin.
    split.
    + apply in_app_or in Hin. destruct Hin as [Hin | Hin].
      * apply pairs_from_page in Hin. lia.
      * apply in_app_or in Hin. destruct Hin as [Hin | Hin]; [exact Hin |].
        apply pairs_from_page in Hin. lia.
    + intros x Hx Hkey.
      apply drop_duplicates_from_kept in Hr. destruct Hr as (pre & post & Heq & Hpre).
      assert (Hsplit : all
                = map (fun r => (r, PDF_SOURCE)) (pairs_from case_equiv 1 before)
                  ++ map (fun r => (r, PDF_SOURCE))
                       (pairs_from case_equiv (1 + length before) (text :: after))).
      { unfold all, pages. now rewrite pairs_from_app, map_app. }
      rewrite Hsplit in Heq.
      assert (Hx' : In (x, PDF_SOURCE)
                      (map (fun r => (r, PDF_SOURCE)) (pairs_from case_equiv 1 before)))
        by (apply (in_map (fun r : term * place => (r, PDF_SOURCE))); exact Hx).
      pose proof (@first_occurrence_in_left _ _ row_key _ _ pre post
                    (x, PDF_SOURCE) r Heq Hx') as Hleft.
      assert (Hr' : In r (map (fun r => (r, PDF_SOURCE)) (pairs_from case_equiv 1 before))).
      { apply Hleft. intros y Hy. cbn [fst]. rewrite Hkey. now apply Hpre. }
      apply in_map_iff in Hr'. destruct Hr' as (y & <- & Hy).
      apply pairs_from_page in Hy. cbn [fst snd] in Hpage. lia.
  - intros x Hx.
    destruct (@drop_duplicates_from_first _ row_key all [] (x, PDF_SOURCE))
      as (pre & r' & post & _ & Hk & _ & Hr');
      [apply (in_map (fun r : term * place => (r, PDF_SOURCE))); exact Hx | intros [] |].
    exists r'. split; [exact Hr' | exact Hk].
  - unfold parse_pdf_pairs_extract, drop_duplicates. cbn [pairs_from].
    rewrite app_nil_r.
    rewrite (@map_drop_duplicates_from (term * place * str) (term * str)
               (fun r => (fst (fst r), snd r)) (fun r => term_key (fst r))).
    rewrite !map_map. cbn [fst snd].
    rewrite <- (map_map fst (fun t => (t, PDF_SOURCE))).
    now rewrite page_pairs_terms.
Qed.

(** ** The OCR pass over the pages *)

Lemma list_set_length (X : Type) (l : list X) (i : nat) (x : X) :
  i < length l -> length (list_set l i x) = length l.
Proof.
  intros H. unfold list_set. rewrite length_app. cbn [length].
  rewrite length_firstn, length_skipn. lia.
Qed.

Lemma nth_error_list_set (X : Type) (l : list X) (i j : nat) (x : X) :
  i < length l ->
  nth_error (list_set l i x) j = if Nat.eqb j i then Some x else nth_error l j.
Proof.
  revert i j. induction l as [| y l IH]; intros i j H; [simpl in H; lia |].
  destruct i as [| i].
  - unfold list_set. cbn [firstn skipn app]. destruct j; reflexivity.
  - unfold list_set. cbn [firstn skipn app]. destruct j as [| j]; [reflexivity |].
    cbn [nth_error Nat.eqb]. apply (IH i j). simpl in H. lia.
Qed.

(** One image: only its own page can change, and only to a longer text. *)
Lemma ocr_page_spec (pages : list str) (n : nat) (image : option str) :
  length (ocr_page case_equiv pages n image) = length pages
  /\ forall i old,
       nth_error pages i = Some old ->
       nth_error (ocr_page case_equiv pages n image) i = Some old
       \/ exists raw, i = n /\ image = Some raw
                      /\ nth_error (ocr_page case_equiv pages n image) i
                         = Some (normalize_text case_equiv raw)
                      /\ length old < length (normalize_text case_equiv raw).
Proof.
  unfold ocr_page. destruct image as [raw |]; [| split; auto].
  destruct (nth_error pages n) as [old0 |] eqn:En; [| split; auto].
  destruct (Nat.ltb (length old0) (length (normalize_text case_equiv raw))) eqn:El;
    [| split; auto].
  assert (Hn : n < length pages) by (apply nth_error_Some; congruence).
  split; [now apply list_set_length |].
  intros i old Hi. rewrite nth_error_list_set by exact Hn.
  destruct (Nat.eqb_spec i n) as [-> | Hne]; [| now left].
  right. exists raw. apply Nat.ltb_lt in El.
  rewrite En in Hi. inversion Hi; subst old0. auto.
Qed.

Lemma ocr_pages_spec (images : list (option str)) :
  forall pages n,
    length (ocr_pages case_equiv pages n images) = length pages
    /\ forall i old,
         nth_error pages i = Some old ->
         nth_error (ocr_pages case_equiv pages n images) i = Some old
         \/ exists raw, n <= i
                        /\ nth_error images (i - n) = Some (Some raw)
                        /\ nth_error (ocr_pages case_equiv pages n images) i
                           = Some (normalize_text case_equiv raw)
                        /\ length old < length (normalize_text case_equiv raw).
Proof.
  induction images as [| image images IH]; intros pages n; cbn [ocr_pages].
  - split; [reflexivity |]. intros i old Hi. now left.
  - destruct (ocr_page_spec pages n image) as [Hlen Hpage].
    destruct (IH (ocr_page case_equiv pages n image) (S n)) as [Hlen' Hrest].
    split; [congruence |]. intros i old Hi.
    destruct (Hpage i old Hi) as [Hsame | (raw & -> & -> & Hnew & Hlt)].
    + destruct (Hrest i old Hsame) as [Hkeep | (raw & Hn & Hraw & Hnew & Hlt)];
        [now left |].
      right. exists raw. split; [lia |]. split; [| auto].
      replace (i - n) with (S (i - S n)) by lia. exact Hraw.
    + destruct (Hrest n _ Hnew) as [Hkeep | (raw' & Hn & _)]; [| lia].
      right. exists raw. rewrite Nat.sub_diag. auto.
Qed.

(** [extract_text_from_images] keeps the number of pages and never
    shortens a page: a page is left as it is, or replaced by the normalised
    OCR text of its image when that text is longer.  Without OCR, or when
    the conversion to images fails, the pages are returned unchanged. *)
Theorem extract_text_from_images_keeps_text
    (have_ocr : bool) (images : option (list (option str))) (pages : list str) :
  let out := extract_text_from_images case_equiv have_ocr images pages in
  length out = length pages
  /\ (forall i old,
        nth_error pages i = Some old ->
        nth_error out i = Some old
        \/ exists ims raw,
             have_ocr = true /\ images = Some ims
             /\ nth_error ims i = Some (Some raw)
             /\ nth_error out i = Some (normalize_text case_equiv raw)
             /\ length old < length (normalize_text case_equiv raw))
  /\ (have_ocr = false \/ images = None -> out = pages).
Proof.
  intros out. unfold out, extract_text_from_images.
  destruct have_ocr; cbn [negb].
  - destruct images as [ims |].
    + destruct (ocr_pages_spec ims pages 0) as [Hlen Hall].
      split; [exact Hlen |]. split.
      * intros i old Hi.
        destruct (Hall i old Hi) as [Hkeep | (raw & _ & Hraw & Hnew & Hlt)];
          [now left |].
        rewrite Nat.sub_0_r in Hraw. right. exists ims, raw. auto.
      * intros [H | H]; discriminate.
    + split; [reflexivity |]. split; [| reflexivity].
      intros i old Hi. now left.
  - split; [reflexivity |]. split; [| reflexivity].
    intros i old Hi. now left.
Qed.

End WithLocationFacts.

(** ** The tools on further examples *)

Lemma split_variants_join_variants_witness :
  split_variants ascii_case_equiv (CStr (join_variants example_parts example_last))
  = map fst example_parts ++ [example_last].
Proof.
  apply (@split_variants_join_variants ascii_case_equiv example_parts example_last).
  - repeat constructor.
  - reflexivity.
  - reflexivity.
Defined.

Lemma scan_reports_fuzzy_occurrence_witness :
  exists h, In h (scan ascii_case_equiv ([] ++ typo_page :: [])
                    (load_patterns ascii_case_equiv [typo_row]))
            /\ h_page h = 1 /\ h_variant h = typo_variant /\ h_row h = typo_row.
Proof.
  apply (@scan_reports_fuzzy_occurrence ascii_case_equiv [typo_row] typo_row
           typo_variant [] [] typo_page
           [0x5148; 0x505a]%N
           [0x96fb; 0x8166; 0x20; 0x6bb5; 0x5c64]%N
           [0x2c; 0x518d; 0x8a55; 0x4f30]%N).
  - now left.
  - vm_compute. now left.
  - reflexivity.
  - apply (@fuzzy_cjk ascii_case_equiv 0x96fb 0x96fb _ [] _)%N; try reflexivity.
    apply (@fuzzy_cjk ascii_case_equiv 0x8166 0x8166 _ [0x20] _)%N; try reflexivity.
    apply (@fuzzy_cjk ascii_case_equiv 0x6bb5 0x6bb5 _ [] _)%N; try reflexivity.
    apply (@fuzzy_cjk ascii_case_equiv 0x5c64 0x5c64 _ [] _)%N; try reflexivity.
    constructor.
Defined.

Lemma scan_reports_verbatim_variant_witness :
  exists h, In h (scan ascii_case_equiv ([] ++ hyphen_page :: [])
                    (load_patterns ascii_case_equiv [typo_row]))
            /\ h_page h = 1 /\ h_variant h = hyphen_variant /\ h_row h = typo_row.
Proof.
  apply (@scan_reports_verbatim_variant ascii_case_equiv [typo_row] typo_row
           hyphen_variant [] [] hyphen_page
           [0x5148; 0x505a]%N [0x6aa2; 0x67e5]%N).
  - now left.
  - vm_compute. right. now left.
  - reflexivity.
Defined.

Lemma canonical_english_term_is_located_witness :
  exists es ee,
    In (es, ee, ct_row)
       (locate ascii_case_equiv (en_pats [ct_row]) ([0x61; 0x20] ++ [0x63; 0x74] ++ [0x2e])%N).
Proof.
  destruct (@canonical_english_term_is_located ascii_case_equiv [ct_row] ct_row
              ([0x61; 0x20] ++ [0x63; 0x74] ++ [0x2e])%N
              [0x61; 0x20]%N [0x63; 0x74]%N [0x2e]%N) as [Hplus _].
  - now left.
  - discriminate.
  - reflexivity.
  - apply Hplus.
    apply (@en_spelling_char ascii_case_equiv 0x43 0x63)%N; try reflexivity.
    apply (@en_spelling_char ascii_case_equiv 0x54 0x74)%N; try reflexivity.
    constructor.
Defined.

Lemma example_frame_normal :
  standardize_master (Some example_frame) = Ok (normal_form example_frame).
Proof.
  apply standardize_master_normal_form;
    [reflexivity | apply example_frame_unambiguous].
Qed.

Lemma standardize_master_schema_witness :
  map fst (df_columns (normal_form example_frame)) = REQUIRED_COLS
  /\ wf_frame (normal_form example_frame)
  /\ length (df_index (normal_form example_frame)) <= length (df_index example_frame).
Proof.
  destruct (@standardize_master_schema example_frame (normal_form example_frame)
              example_frame_wf example_frame_normal) as (H1 & H2 & _ & _ & H5 & _).
  split; [exact H1 |]. split; [exact H2 | exact H5].
Defined.

Lemma write_then_read_master_witness :
  exists texts,
    write_master_to_ws example_frame = Ok (map (map CStr) texts)
    /\ read_master_from_ws texts = Some (Ok (reset_index (normal_form example_frame))).
Proof.
  apply (@write_then_read_master example_frame (normal_form example_frame)
           example_frame_wf example_frame_normal).
Defined.

Lemma extract_sheet_id_of_url_witness :
  extract_sheet_id ascii_case_equiv
    (example_pre ++ SHEET_MARKER ++ example_id ++ example_rest)
  = example_id.
Proof.
  apply (@extract_sheet_id_of_url ascii_case_equiv example_pre example_id example_rest).
  - discriminate.
  - reflexivity.
  - reflexivity.
  - intros j Hj.
    do 23 (destruct j as [| j]; [reflexivity |]).
    simpl in Hj. lia.
Defined.

(** ** The scanning loops of the tools on the same rows *)

Lemma flat_map_app_perm (A C : Type) (g h : A -> list C) (l : list A) :
  Permutation (flat_map (fun a => g a ++ h a) l) (flat_map g l ++ flat_map h l).
Proof.
  induction l as [| a l IH]; cbn [flat_map]; [constructor |].
  rewrite IH. rewrite <- !app_assoc. apply Permutation_app_head.
  rewrite !app_assoc. apply Permutation_app_tail.
  apply Permutation_app_comm.
Qed.

Lemma flat_map_swap (A B C : Type) (f : A -> B -> list C) (la : list A) (lb : list B) :
  Permutation (flat_map (fun a => flat_map (f a) lb) la)
              (flat_map (fun b => flat_map (fun a => f a b) la) lb).
Proof.
  induction la as [| a la IH]; cbn [flat_map].
  - induction lb as [| b lb IHb]; [constructor | exact IHb].
  - rewrite flat_map_app_perm. now apply Permutation_app_head.
Qed.

Section ToolsAgree.

Variable case_equiv : char -> char -> bool.
Variable py_lower : str -> str.
Variable upper_nonascii : char -> str.

Lemma page_text_no_ocr (o : ocr_options) (ocr : nat -> option str) (pno : nat)
    (page : extraction) :
  ocr_enabled o && HAVE_OCR o = false ->
  page_text case_equiv o ocr pno page
  = (normalize_text case_equiv (extract_or_empty page), false).
Proof.
  intros H. unfold page_text.
  destruct (ocr_enabled o), (HAVE_OCR o); try discriminate;
    rewrite ?andb_false_r; reflexivity.
Qed.

Lemma scan_from_enumerate (pages : list extraction) (pats : list (regex * str * term)) :
  forall pno,
    scan_from case_equiv pno pages pats
    = flat_map (fun '(n, text) => page_hits case_equiv n text pats)
        (enumerate_from pno
           (map (fun page => normalize_text case_equiv (extract_or_empty page)) pages)).
Proof.
  induction pages as [| page pages IH]; intros pno; [reflexivity |].
  cbn [scan_from map enumerate_from flat_map]. now rewrite IH.
Qed.

Lemma pages_text_no_ocr (o : ocr_options) (ocr : nat -> option str)
    (pages : list extraction) :
  ocr_enabled o && HAVE_OCR o = false ->
  forall pno,
    pages_text_from case_equiv o ocr pno pages
    = map (fun page => normalize_text case_equiv (extract_or_empty page)) pages.
Proof.
  intros H. induction pages as [| page pages IH]; intros pno; [reflexivity |].
  cbn [pages_text_from map]. now rewrite (@page_text_no_ocr o ocr pno page H), IH.
Qed.

Lemma super_known_hits_patterns (termbase : list term) (texts : list str) :
  super_known_hits case_equiv termbase texts
  = flat_map
      (fun pat =>
         flat_map (fun pg => page_hits case_equiv (fst pg) (snd pg) [pat])
                  (enumerate_from 1 texts))
      (load_patterns case_equiv termbase).
Proof.
  unfold super_known_hits, load_patterns.
  induction termbase as [| row rest IH]; [reflexivity |].
  cbn [flat_map]. rewrite flat_map_app, IH. f_equal.
  induction (split_variants case_equiv (CStr (variant row))) as [| v vs IHv];
    [reflexivity |].
  cbn [flat_map map]. rewrite IHv. f_equal.
  apply flat_map_ext. intros [pno text]. cbn [fst snd page_hits flat_map].
  now rewrite app_nil_r.
Qed.

Lemma page_hits_patterns (pno : nat) (text : str) (pats : list (regex * str * term)) :
  page_hits case_equiv pno text pats
  = flat_map (fun pat => page_hits case_equiv pno text [pat]) pats.
Proof.
  unfold page_hits. apply flat_map_ext. intros [[rx v] row].
  cbn [flat_map]. now rewrite app_nil_r.
Qed.

Lemma plus_known_hits (opts : plus_options) (ocr : nat -> option str)
    (term_df : list term) (pages : list extraction) :
  ocr_enabled (plus_ocr opts) && HAVE_OCR (plus_ocr opts) = false ->
  forall st pno,
    map fst (known_hits (plus_pages case_equiv py_lower upper_nonascii opts ocr term_df
                           st pno pages))
    = map fst (known_hits st)
      ++ scan_from case_equiv pno pages (load_patterns case_equiv term_df).
Proof.
  intros H. induction pages as [| page pages IH]; intros st pno.
  - cbn [plus_pages scan_from]. now rewrite app_nil_r.
  - cbn [plus_pages scan_from]. rewrite IH. rewrite app_assoc. f_equal.
    unfold plus_page. rewrite (@page_text_no_ocr (plus_ocr opts) ocr pno page H).
    destruct (check_pair opts || check_first opts).
    + destruct (check_first opts);
        [destruct (check_first_loop _ _ _ _ _ _ _ _ _ _) |];
        cbn [known_hits]; now rewrite map_app, map_map, map_id.
    + cbn [known_hits]. now rewrite map_app, map_map, map_id.
Qed.

(** The known-variant loops of the three tools, run over the same rows
    [rows] and the same pages with no OCR in play: the loop of
    [app_streamlit_plus.py] reports the hits of [scan] of
    [pdf_spellcheck.py], in the same order, and the loop of
    [app_streamlit_super.py] reports the same hits ordered by row and
    variant instead of by page.  How each tool gets its rows from a table
    ([map_headers], [standardize_master]) is not part of the statement: it
    compares the loops, not what the tools make of one uploaded file. *)
Theorem known_variant_loops_agree_on_rows
    (opts : plus_options) (ocr : nat -> option str) (rows : list term)
    (pages : list extraction) :
  ocr_enabled (plus_ocr opts) && HAVE_OCR (plus_ocr opts) = false ->
  map fst (known_hits (plus_scan case_equiv py_lower upper_nonascii opts ocr rows pages))
  = scan case_equiv pages (load_patterns case_equiv rows)
  /\ Permutation
       (super_known_hits case_equiv rows
          (pages_text case_equiv (plus_ocr opts) ocr pages))
       (scan case_equiv pages (load_patterns case_equiv rows)).
Proof.
  intros H. split.
  - unfold plus_scan, scan. now rewrite (@plus_known_hits opts ocr rows pages H).
  - unfold pages_text, scan. rewrite (@pages_text_no_ocr (plus_ocr opts) ocr pages H).
    rewrite scan_from_enumerate, super_known_hits_patterns.
    rewrite flat_map_swap.
    apply Permutation_refl'. apply flat_map_ext. intros [n text].
    cbn [fst snd]. symmetry. apply page_hits_patterns.
Qed.

Lemma en_pats_super_stripped (termbase : list term) :
  Forall (fun row => strip (en_canonical row) = en_canonical row) termbase ->
  en_pats_super termbase = en_pats termbase.
Proof.
  induction 1 as [| row rest Hrow _ IH]; [reflexivity |].
  unfold en_pats_super, en_pats in *. cbn [flat_map]. rewrite IH. f_equal.
  now rewrite Hrow.
Qed.

Lemma zh_pats_super_eq (termbase : list term) : zh_pats_super termbase = zh_pats termbase.
Proof.
  unfold zh_pats_super, zh_pats. apply flat_map_ext. intros row.
  unfold cjk_pat, cjk_fuzzy_pattern. now rewrite strip_idem.
Qed.

Lemma plus_pair_issues (opts : plus_options) (ocr : nat -> option str)
    (term_df : list term) (pages : list extraction) :
  ocr_enabled (plus_ocr opts) && HAVE_OCR (plus_ocr opts) = false ->
  check_pair opts = true ->
  Forall (fun row => strip (en_canonical row) = en_canonical row) term_df ->
  forall st pno,
    pair_issues (plus_pages case_equiv py_lower upper_nonascii opts ocr term_df
                   st pno pages)
    = super_pair_issues_from case_equiv (plus_window opts) term_df pno
        (map (fun page => normalize_text case_equiv (extract_or_empty page)) pages)
        (pair_issues st).
Proof.
  intros H Hcp Hs. induction pages as [| page pages IH]; intros st pno.
  - reflexivity.
  - cbn [plus_pages map super_pair_issues_from]. rewrite IH. f_equal.
    unfold plus_page. rewrite (@page_text_no_ocr (plus_ocr opts) ocr pno page H).
    rewrite Hcp. cbn [orb].
    rewrite (@en_pats_super_stripped term_df Hs), zh_pats_super_eq.
    destruct (check_first opts);
      [destruct (check_first_loop _ _ _ _ _ _ _ _ _ _) |]; reflexivity.
Qed.

(** The pair-check loops of [app_streamlit_plus.py] and of
    [app_streamlit_super.py], run over the same rows and the same pages
    with no OCR in play: when no English term of the rows has outer blanks
    (as in the rows [standardize_master] returns), they report the same
    records, in the same order.  How each tool gets its rows from a table
    is not part of the statement. *)
Theorem pair_check_loops_agree_on_rows
    (opts : plus_options) (ocr : nat -> option str) (rows : list term)
    (pages : list extraction) :
  ocr_enabled (plus_ocr opts) && HAVE_OCR (plus_ocr opts) = false ->
  check_pair opts = true ->
  Forall (fun row => strip (en_canonical row) = en_canonical row) rows ->
  pair_issues (plus_scan case_equiv py_lower upper_nonascii opts ocr rows pages)
  = super_pair_issues case_equiv (plus_window opts) rows
      (pages_text case_equiv (plus_ocr opts) ocr pages).
Proof.
  intros H Hcp Hs. unfold plus_scan, super_pair_issues, pages_text.
  rewrite (@pages_text_no_ocr (plus_ocr opts) ocr pages H).
  exact (@plus_pair_issues opts ocr rows pages H Hcp Hs (mkPlusState [] [] [] []) 1).
Qed.

End ToolsAgree.

Lemma known_variant_loops_agree_on_rows_witness :
  map fst (known_hits (plus_scan ascii_case_equiv ascii_lower no_upper ct_options
                         (fun _ => None) [typo_row] [typo_page; hyphen_page]))
  = scan ascii_case_equiv [typo_page; hyphen_page]
      (load_patterns ascii_case_equiv [typo_row])
  /\ Permutation
       (super_known_hits ascii_case_equiv [typo_row]
          (pages_text ascii_case_equiv (plus_ocr ct_options) (fun _ => None)
             [typo_page; hyphen_page]))
       (scan ascii_case_equiv [typo_page; hyphen_page]
          (load_patterns ascii_case_equiv [typo_row])).
Proof.
  apply (@known_variant_loops_agree_on_rows ascii_case_equiv ascii_lower no_upper ct_options
           (fun _ => None) [typo_row] [typo_page; hyphen_page]).
  reflexivity.
Defined.

Lemma pair_check_loops_agree_on_rows_witness :
  pair_issues (plus_scan ascii_case_equiv ascii_lower no_upper ct_options
                 (fun _ => None) [ct_row; typo_row] [ExtractReturns (Some ct_text); typo_page])
  = super_pair_issues ascii_case_equiv (plus_window ct_options) [ct_row; typo_row]
      (pages_text ascii_case_equiv (plus_ocr ct_options) (fun _ => None)
         [ExtractReturns (Some ct_text); typo_page]).
Proof.
  apply (@pair_check_loops_agree_on_rows ascii_case_equiv ascii_lower no_upper ct_options
           (fun _ => None) [ct_row; typo_row] [ExtractReturns (Some ct_text); typo_page]).
  - reflexivity.
  - reflexivity.
  - repeat constructor.
Defined.

(** ** The tokens of [en_tokens] *)

Section EnTokens.

Variable case_equiv : char -> char -> bool.

Lemma cs_word_not_space (c : char) : cset_mem cs_word c = true -> isspace c = false.
Proof.
  unfold cs_word, isspace. cbn [cset_mem]. unfold in_range, char_eqb. intros H.
  assert (Hc : (c = 0x2d \/ (0x30 <= c <= 0x39) \/ (0x41 <= c <= 0x5a)
                \/ (0x61 <= c <= 0x7a))%N).
  { repeat (apply orb_true_iff in H; destruct H as [H | H]);
      try (apply andb_true_iff in H; destruct H as [H1 H2];
           apply N.leb_le in H1, H2; lia);
      apply N.eqb_eq in H; lia. }
  repeat (apply orb_false_iff; split);
    try (apply andb_false_iff;
         destruct (N.leb_spec 0x09 c), (N.leb_spec c 0x0D),
                  (N.leb_spec 0x1C c), (N.leb_spec c 0x20),
                  (N.leb_spec 0x2000 c), (N.leb_spec c 0x200A); auto; lia);
    apply N.eqb_neq; lia.
Qed.

Lemma cs_alpha_word (c : char) : cset_mem cs_alpha c = true -> cset_mem cs_word c = true.
Proof. unfold cs_word, cs_alpha. cbn [cset_mem]. intros ->. reflexivity. Qed.

(** A word of the pattern [[A-Za-z][A-Za-z0-9\-]*]. *)
Lemma lang_en_word (ic : bool) (w : str) :
  lang case_equiv ic en_word w ->
  exists c rest, w = c :: rest /\ cset_mem cs_alpha c = true
                 /\ forallb (cset_mem cs_word) rest = true.
Proof.
  unfold en_word, star. intros H.
  inversion H as [| | | | r1 r2 w1 w2 H1 H2 | | |]; subst.
  inversion H1 as [| | p x Hx | | | | |]; subst.
  inversion H2 as [| | | p lo hi w Hw _ _ | | | |]; subst.
  exists x, w2. auto.
Qed.


Lemma en_word_token (ic : bool) (w : str) :
  lang case_equiv ic en_word w -> token_text w.
Proof.
  intros H. apply lang_en_word in H. destruct H as (c & rest & -> & Hc & Hrest).
  split; [eauto |]. split.
  - destruct (@exists_last _ (c :: rest)) as (init & z & Heq); [discriminate |].
    exists init, z. split; [exact Heq |]. apply cs_word_not_space.
    assert (Hall : forallb (cset_mem cs_word) (c :: rest) = true).
    { cbn [forallb]. now rewrite (cs_alpha_word _ Hc), Hrest. }
    rewrite forallb_forall in Hall. apply Hall. rewrite Heq.
    apply in_or_app. right. now left.
  - cbn [forallb]. rewrite (cs_alpha_word _ Hc). cbn [orb andb].
    rewrite forallb_forall in *. intros x Hx. now rewrite (Hrest x Hx).
Qed.

(** A token followed by blanks and a word is a token. *)
Lemma token_more (ic : bool) (w t : str) :
  token_text w -> lang case_equiv ic (Cat (plus CsSpace) en_word) t -> token_text (w ++ t).
Proof.
  intros ((c & rest & -> & Hc) & _ & Hall) H.
  inversion H as [| | | | r1 r2 sp wd Hsp Hwd | | |]; subst.
  inversion Hsp as [| | | p lo hi w' Hw' _ _ | | | |]; subst.
  apply en_word_token in Hwd. destruct Hwd as (_ & (init & z & -> & Hz) & Hwall).
  split; [exists c, (rest ++ sp ++ init ++ [z]); split; [reflexivity | exact Hc] |].
  split.
  - exists ((c :: rest) ++ sp ++ init), z. split; [| exact Hz].
    now rewrite <- !app_assoc.
  - cbn [cset_mem] in Hw'. rewrite forallb_forall in *. intros x Hx.
    apply in_app_or in Hx. destruct Hx as [Hx | Hx]; [now apply Hall |].
    apply in_app_or in Hx. destruct Hx as [Hx | Hx]; [| now apply Hwall].
    rewrite (Hw' x Hx). apply orb_true_r.
Qed.

Lemma lang_en_token (ic : bool) (w : str) :
  lang case_equiv ic en_token_re w -> token_text w.
Proof.
  unfold en_token_re, optional. intros H.
  inversion H as [| | | | r1 r2 w1 t1 H1 Ht1 | | |]; subst.
  apply en_word_token in H1.
  inversion Ht1 as [| | | | | ra rb t Ha | ra rb t Hb |]; subst.
  - inversion Ha as [| | | | r3 r4 m1 t2 Hm1 Ht2 | | |]; subst.
    pose proof (token_more H1 Hm1) as T1.
    inversion Ht2 as [| | | | | rc rd t Hc | rc rd t Hd |]; subst.
    + inversion Hc as [| | | | r5 r6 m2 t3 Hm2 Ht3 | | |]; subst.
      pose proof (token_more T1 Hm2) as T2.
      inversion Ht3 as [| | | | | re rf t He | re rf t Hf |]; subst.
      * pose proof (token_more T2 He) as T3.
        now rewrite <- !app_assoc in T3.
      * inversion Hf; subst. rewrite app_nil_r. now rewrite <- !app_assoc in T2.
    + inversion Hd; subst. now rewrite app_nil_r.
  - inversion Hb; subst. now rewrite app_nil_r.
Qed.

Lemma strip_token (w : str) :
  (exists c rest, w = c :: rest /\ isspace c = false) ->
  (exists init c, w = init ++ [c] /\ isspace c = false) ->
  strip w = w.
Proof.
  intros (c & rest & -> & Hc) (init & z & Heq & Hz).
  unfold strip, rstrip. cbn [lstrip]. rewrite Hc. rewrite Heq.
  rewrite rev_app_distr. cbn [rev app lstrip]. rewrite Hz.
  change (z :: rev init) with (rev [z] ++ rev init).
  now rewrite <- rev_app_distr, rev_involutive.
Qed.

(** Every token of [en_tokens] is a piece of the text that starts with an
    ASCII letter, holds only ASCII letters, digits, hyphens and blanks, and
    has no outer blanks: stripping it, as the unknown-term loops do, changes
    nothing, and no token is empty. *)
Theorem en_tokens_shape (text : str) :
  Forall (fun tok =>
            (exists a b, text = a ++ tok ++ b)
            /\ (exists c rest, tok = c :: rest /\ cset_mem cs_alpha c = true)
            /\ forallb (fun c => cset_mem cs_word c || isspace c) tok = true
            /\ strip tok = tok)
         (en_tokens case_equiv text).
Proof.
  apply Forall_forall. intros tok Htok. unfold en_tokens, re_findall in Htok.
  apply in_map_iff in Htok. destruct Htok as (m & <- & Hm).
  apply finditer_word in Hm. destruct Hm as (a & w & b & -> & Hl & Hs & He).
  assert (Hg : group0 (a ++ w ++ b) m = w).
  { unfold group0, slice. rewrite Hs, He. apply slice_middle. }
  rewrite Hg. apply lang_en_token in Hl.
  destruct Hl as ((c & rest & Hw & Hc) & Hlast & Hall).
  split; [eauto |]. split; [eauto |]. split; [exact Hall |].
  apply strip_token; [| exact Hlast].
  exists c, rest. split; [exact Hw |]. now apply cs_word_not_space, cs_alpha_word.
Qed.

End EnTokens.

(** ** The words held by the groups of a hit *)

Section Groups.

Variable case_equiv : char -> char -> bool.
Variable ic : bool.

Lemma slice_shift (X : Type) (pre s : list X) (a b : nat) :
  length pre <= a ->
  firstn (b - a) (skipn a (pre ++ s))
  = firstn ((b - length pre) - (a - length pre)) (skipn (a - length pre) s).
Proof.
  intros H. rewrite skipn_app.
  rewrite skipn_all2 by lia. cbn [app]. f_equal. lia.
Qed.

Lemma caps_hold_shift (w1 s1 : str) (i : nat) (cs : caps) (gs : list (group * str)) :
  caps_hold s1 (i + length w1) cs gs -> caps_hold (w1 ++ s1) i cs gs.
Proof.
  unfold caps_hold. induction 1 as [| c gw cs gs (Hg & Hi & Hw) _ IH]; constructor;
    [| exact IH].
  split; [exact Hg |]. split; [lia |]. rewrite <- Hw. unfold slice.
  rewrite (@slice_shift _ w1 s1 (fst (snd c) - i) (snd (snd c) - i)) by lia.
  f_equal; [lia | f_equal; lia].
Qed.

Lemma mtch_groups (A : Type) (r : regex) :
  forall s i cs (k : str -> nat -> caps -> option A) res,
    mtch case_equiv ic r s i cs k = Some res ->
    exists w s' gs cs_new,
      s = w ++ s' /\ glang case_equiv ic r w gs /\ caps_hold s i cs_new gs
      /\ k s' (i + length w) (cs_new ++ cs) = Some res.
Proof.
  induction r as [| c | p | p lo hi | r1 IH1 r2 IH2 | r1 IH1 r2 IH2 | g r IH];
    intros s i cs k res; cbn [mtch].
  - intros H. exists [], s, [], []. simpl. rewrite Nat.add_0_r.
    repeat split; auto; constructor.
  - destruct s as [| x s]; [discriminate |].
    destruct (lit_match case_equiv ic c x) eqn:Hx; [| discriminate]. intros H.
    exists [x], s, [], []. simpl. replace (i + 1) with (S i) by lia.
    repeat split; auto; now constructor.
  - destruct s as [| x s]; [discriminate |].
    destruct (cset_mem p x) eqn:Hx; [| discriminate]. intros H.
    exists [x], s, [], []. simpl. replace (i + 1) with (S i) by lia.
    repeat split; auto; now constructor.
  - intros H. apply rep_sound in H. destruct H as (w & s' & -> & Hw & Hlo & Hhi & Hk).
    exists w, s', [], []. repeat split; auto; now constructor.
  - intros H. apply IH1 in H.
    destruct H as (w1 & s1 & g1 & c1 & -> & H1 & Hc1 & H).
    apply IH2 in H.
    destruct H as (w2 & s2 & g2 & c2 & -> & H2 & Hc2 & H).
    exists (w1 ++ w2), s2, (g2 ++ g1), (c2 ++ c1).
    rewrite <- !app_assoc, length_app, Nat.add_assoc.
    repeat split; auto.
    + now constructor.
    + unfold caps_hold. apply Forall2_app; [| exact Hc1].
      now apply caps_hold_shift.
  - destruct (mtch case_equiv ic r1 s i cs k) as [x |] eqn:E.
    + intros H. inversion H; subst x. apply IH1 in E.
      destruct E as (w & s' & gs & cn & -> & Hl & Hc & Hk). exists w, s', gs, cn.
      repeat split; auto. now apply glang_alt_l.
    + intros H. apply IH2 in H.
      destruct H as (w & s' & gs & cn & -> & Hl & Hc & Hk). exists w, s', gs, cn.
      repeat split; auto. now apply glang_alt_r.
  - intros H. apply IH in H.
    destruct H as (w & s' & gs & cn & -> & Hl & Hc & Hk).
    exists w, s', ((g, w) :: gs), ((g, (i, i + length w)) :: cn).
    repeat split; auto.
    + now constructor.
    + constructor; [| exact Hc]. cbn [fst snd]. split; [reflexivity |].
      split; [lia |]. unfold slice. rewrite Nat.sub_diag. cbn [skipn].
      replace (i + length w - i - 0) with (length w) by lia.
      rewrite firstn_app, firstn_all, Nat.sub_diag. cbn [firstn]. apply app_nil_r.
Qed.

Lemma lookup_caps (a s : str) (cs : caps) (gs : list (group * str)) (g : group) :
  caps_hold s (length a) cs gs ->
  match lookup_group g cs with
  | Some (x, y) => slice (a ++ s) x y
  | None => []
  end = lookup_word g gs.
Proof.
  unfold caps_hold.
  induction 1 as [| [g1 [x y]] [g2 w] cs gs (Hg & Hi & Hw) _ IH]; [reflexivity |].
  cbn [fst snd] in *. subst g2. cbn [lookup_group lookup_word].
  destruct (group_eqb g g1); [| exact IH].
  rewrite <- Hw. unfold slice. rewrite (@slice_shift _ a s x y Hi). reflexivity.
Qed.

(** A hit spans a word of the pattern, and its groups give the words the
    groups of the pattern hold in it. *)
Lemma finditer_groups (r : regex) (text : str) (m : rmatch) :
  In m (finditer case_equiv ic r text) ->
  exists a w b gs,
    text = a ++ w ++ b /\ glang case_equiv ic r w gs
    /\ (forall g, group_text text m g = lookup_word g gs)
    /\ m_start m = length a /\ m_end m = length a + length w.
Proof.
  unfold finditer. intros H. apply finditer_from_hits in H.
  destruct H as (j & ma & Hj & H). simpl in H. unfold match_at in H.
  apply mtch_groups in H.
  destruct H as (w & s' & gs & cn & Heq & Hl & Hc & Hk).
  destruct (ma && Nat.eqb (j + length w) j); [discriminate |].
  inversion Hk; subst m. clear Hk.
  exists (firstn j text), w, s', gs. rewrite <- Heq, firstn_skipn.
  split; [reflexivity |]. split; [exact Hl |].
  assert (Hlen : length (firstn j text) = j)
    by (rewrite length_firstn; now apply Nat.min_l).
  split; [| cbn [m_start m_end]; now rewrite Hlen].
  intros g. unfold group_text. cbn [m_groups]. rewrite app_nil_r.
  pose proof (@lookup_caps (firstn j text) (skipn j text) cn gs g) as Hlook.
  rewrite firstn_skipn in Hlook. apply Hlook.
  rewrite Hlen. exact Hc.
Qed.

Lemma glang_lang (r : regex) (w : str) (gs : list (group * str)) :
  glang case_equiv ic r w gs -> lang case_equiv ic r w.
Proof.
  induction 1;
    [ constructor | now constructor | now constructor | now constructor
    | now constructor | now apply lang_alt_l | now apply lang_alt_r | now constructor ].
Qed.

Lemma glang_no_groups (r : regex) (w : str) (gs : list (group * str)) :
  glang case_equiv ic r w gs -> no_groups r = true -> gs = [].
Proof.
  induction 1 as [| | | | r1 r2 w1 w2 g1 g2 _ IH1 _ IH2 | r1 r2 w gs _ IH
                  | r1 r2 w gs _ IH | g r w gs _ IH]; cbn [no_groups]; intros Hn;
    try reflexivity; try discriminate.
  - apply andb_true_iff in Hn. destruct Hn as [Hn1 Hn2].
    now rewrite (IH1 Hn1), (IH2 Hn2).
  - apply andb_true_iff in Hn. now apply IH.
  - apply andb_true_iff in Hn. now apply IH.
Qed.

End Groups.

(** ** The fields of the extracted pairs *)

Section PairShape.

Variable case_equiv : char -> char -> bool.

Lemma cjk_range_not_space (c : char) : cset_mem CJK_RANGE c = true -> isspace c = false.
Proof.
  unfold CJK_RANGE, isspace. cbn [cset_mem]. unfold in_range, char_eqb. intros H.
  apply andb_true_iff in H. destruct H as [H _]. apply N.leb_le in H.
  repeat (apply orb_false_iff; split);
    try (apply andb_false_iff; right; apply N.leb_gt; lia);
    apply N.eqb_neq; lia.
Qed.

Lemma lang_ZH (w : str) :
  lang case_equiv false ZH w -> zh_shape w /\ strip w = w.
Proof.
  unfold ZH. intros H.
  inversion H as [| | | p lo hi w' Hw Hlo Hhi | | | |]; subst.
  split; [split; [exact Hlo | split; [exact Hhi | exact Hw]] |].
  apply strip_no_space. rewrite forallb_forall in Hw.
  intros x Hx. now apply cjk_range_not_space, Hw.
Qed.

Lemma lang_ABBR (w : str) :
  lang case_equiv false ABBR w -> abbr_shape w /\ strip w = w.
Proof.
  unfold ABBR. intros H.
  inversion H as [| | | | r1 r2 w1 w2 H1 H2 | | |]; subst.
  inversion H1 as [| | p x Hx | | | | |]; subst.
  inversion H2 as [| | | p lo hi w' Hw Hlo Hhi | | | |]; subst.
  cbn [within] in Hhi.
  assert (Hall : forallb (cset_mem cs_word) ([x] ++ w2) = true).
  { cbn [app forallb]. now rewrite (cs_alpha_word _ Hx), Hw. }
  split.
  - split; [simpl; lia |]. split; [simpl; lia |]. split; [| exact Hall].
    exists x, w2. auto.
  - apply strip_no_space. rewrite forallb_forall in Hall.
    intros y Hy. now apply cs_word_not_space, Hall.
Qed.

Lemma lstrip_split (t : str) :
  exists sp, t = sp ++ lstrip t /\ forallb isspace sp = true
             /\ match lstrip t with [] => true | c :: _ => negb (isspace c) end = true.
Proof.
  induction t as [| c t (sp & Heq & Hsp & Hhd)]; [exists []; auto |].
  cbn [lstrip]. destruct (isspace c) eqn:Hc.
  - exists (c :: sp). cbn [app forallb]. rewrite Hc, Hsp. split; [now f_equal | auto].
  - exists []. cbn [app forallb]. rewrite Hc. auto.
Qed.

(** Stripping a text that starts outside the blanks keeps its first
    character and leaves a text that ends outside the blanks. *)
Lemma strip_head (c : char) (w : str) :
  isspace c = false ->
  exists rest init z,
    strip (c :: w) = c :: rest /\ strip (c :: w) = init ++ [z] /\ isspace z = false
    /\ (forall x, In x (strip (c :: w)) -> In x (c :: w)).
Proof.
  intros Hc. unfold strip. cbn [lstrip]. rewrite Hc. unfold rstrip.
  destruct (lstrip_split (rev (c :: w))) as (sp & Heq & Hsp & Hhd).
  destruct (lstrip (rev (c :: w))) as [| z u] eqn:Eu.
  - exfalso. rewrite app_nil_r in Heq.
    assert (Hin : In c sp).
    { rewrite <- Heq. apply in_rev. rewrite rev_involutive. now left. }
    rewrite forallb_forall in Hsp. apply Hsp in Hin. congruence.
  - apply negb_true_iff in Hhd.
    assert (Hrev : c :: w = rev u ++ [z] ++ rev sp).
    { rewrite <- (rev_involutive (c :: w)), Heq, rev_app_distr. cbn [rev].
      now rewrite <- app_assoc. }
    cbn [rev].
    destruct (rev u) as [| y ru] eqn:Er.
    + cbn [app] in Hrev. inversion Hrev; subst z.
      exists [], [], c. cbn [app]. repeat split; auto.
      intros x [<- | []]. now left.
    + cbn [app] in Hrev. inversion Hrev; subst y.
      exists (ru ++ [z]), (c :: ru), z. cbn [app]. repeat split; auto.
      intros x Hx. destruct Hx as [<- | Hx]; [now left |]. right.
      apply in_or_app. apply in_app_or in Hx.
      destruct Hx as [Hx | [<- | []]]; [now left | right; now left].
Qed.

Lemma squeeze_last (init : str) (z : char) :
  isspace z = false ->
  forall b, squeeze CsSpace [space] b (init ++ [z])
            = squeeze CsSpace [space] b init ++ [z].
Proof.
  intros Hz. induction init as [| x init IH]; intros b; cbn [app squeeze cset_mem].
  - now rewrite Hz.
  - destruct (isspace x); [destruct b |]; cbn [app]; now rewrite IH.
Qed.

Lemma lang_EN (w : str) :
  lang case_equiv false EN w ->
  en_shape (re_sub case_equiv false ws_run (u " ") (strip w)).
Proof.
  unfold EN. intros H.
  inversion H as [| | | | r1 r2 w1 w2 H1 H2 | | |]; subst.
  inversion H1 as [| | p x Hx | | | | |]; subst.
  inversion H2 as [| | | p lo hi w' Hw Hlo Hhi | | | |]; subst.
  assert (Hxs : isspace x = false) by now apply cs_word_not_space, cs_alpha_word.
  destruct (@strip_head x w2 Hxs) as (rest & init & z & Hhead & Hlast & Hz & Hsub).
  cbn [app]. unfold ws_run. rewrite re_sub_plus.
  change (u " ") with [space].
  split; [split; [| split] |].
  - rewrite Hhead. cbn [squeeze cset_mem]. rewrite Hxs.
    exists x, (squeeze CsSpace [space] false rest). auto.
  - rewrite Hlast, (@squeeze_last init z Hz). eauto.
  - apply forallb_forall. intros y Hy. apply (@in_squeeze case_equiv) in Hy.
    destruct Hy as [Hy | [<- | []]]; [| reflexivity].
    apply Hsub in Hy. destruct Hy as [<- | Hy].
    + now rewrite (cs_alpha_word _ Hx).
    + rewrite forallb_forall in Hw. apply Hw in Hy.
      unfold cs_word_space in Hy. cbn [cset_mem] in Hy. exact Hy.
  - apply single_spaced_squeeze.
Qed.

Ltac split_glang :=
  repeat match goal with
         | H : glang _ _ (Cat _ _) _ _ |- _ => inversion H; subst; clear H
         | H : glang _ _ (Grp _ _) _ _ |- _ => inversion H; subst; clear H
         | H : glang _ _ Eps _ _ |- _ => inversion H; subst; clear H
         end.

Ltac leaf_glang :=
  repeat match goal with
         | H : glang _ _ ?r _ ?g |- _ =>
             let Hl := fresh "Hl" in
             pose proof (glang_lang H) as Hl;
             pose proof (glang_no_groups H eq_refl); subst g; clear H
         end.

Lemma glang_pat1 (w : str) (gs : list (group * str)) :
  glang case_equiv false pat1 w gs ->
  exists wzh wen wab,
    gs = [(Gabbr, wab); (Gen, wen); (Gzh, wzh)]
    /\ lang case_equiv false ZH wzh /\ lang case_equiv false EN wen
    /\ lang case_equiv false ABBR wab.
Proof.
  unfold pat1, join. cbn [fold_right]. intros H. split_glang. leaf_glang.
  cbn [app]. eauto 10.
Qed.

Lemma glang_zh_en (sep : regex) (tail : list regex) (w : str) (gs : list (group * str)) :
  no_groups sep = true -> no_groups (join tail) = true ->
  glang case_equiv false (join ([Grp Gzh ZH; ws; sep; ws; Grp Gen EN] ++ tail)) w gs ->
  exists wzh wen,
    gs = [(Gen, wen); (Gzh, wzh)]
    /\ lang case_equiv false ZH wzh /\ lang case_equiv false EN wen.
Proof.
  unfold join. cbn [fold_right app]. intros Hsep Htail H. split_glang.
  repeat match goal with
         | H : glang _ _ (fold_right Cat Eps tail) _ ?g |- _ =>
             pose proof (glang_no_groups H Htail); subst g; clear H
         | H : glang _ _ sep _ ?g |- _ =>
             pose proof (glang_no_groups H Hsep); subst g; clear H
         end.
  leaf_glang. cbn [app]. eauto 10.
Qed.

Lemma glang_en_zh (sep : regex) (tail : list regex) (w : str) (gs : list (group * str)) :
  no_groups sep = true -> no_groups (join tail) = true ->
  glang case_equiv false (join ([Grp Gen EN; ws; sep; ws; Grp Gzh ZH] ++ tail)) w gs ->
  exists wzh wen,
    gs = [(Gzh, wzh); (Gen, wen)]
    /\ lang case_equiv false ZH wzh /\ lang case_equiv false EN wen.
Proof.
  unfold join. cbn [fold_right app]. intros Hsep Htail H. split_glang.
  repeat match goal with
         | H : glang _ _ (fold_right Cat Eps tail) _ ?g |- _ =>
             pose proof (glang_no_groups H Htail); subst g; clear H
         | H : glang _ _ sep _ ?g |- _ =>
             pose proof (glang_no_groups H Hsep); subst g; clear H
         end.
  leaf_glang. cbn [app]. eauto 10.
Qed.

Lemma rows_abbr_shape (text : str) :
  Forall pair_shape (rows_abbr case_equiv text pat1).
Proof.
  apply Forall_forall. intros r Hr. unfold rows_abbr in Hr.
  apply in_map_iff in Hr. destruct Hr as (m & <- & Hm).
  apply finditer_groups in Hm. destruct Hm as (a & w & b & gs & _ & Hl & Hg & _).
  apply glang_pat1 in Hl. destruct Hl as (wzh & wen & wab & -> & Hzh & Hen & Hab).
  unfold pair_shape, en_of, zh_of, abbr_of. cbn [zh_canonical en_canonical abbr
    first_mention_style variant]. rewrite !Hg. cbn [lookup_word group_eqb].
  apply lang_ZH in Hzh. destruct Hzh as [Hzh ->].
  apply lang_ABBR in Hab. destruct Hab as [Hab ->].
  apply lang_EN in Hen. split; [exact Hzh |]. split; [exact Hen |].
  split; [left; split; [reflexivity | exact Hab] | reflexivity].
Qed.

Lemma rows_plain_shape (text : str) (pat : regex) :
  In pat [pat2; pat3; pat4; pat5] ->
  Forall pair_shape (rows_plain case_equiv text pat).
Proof.
  intros Hpat. apply Forall_forall. intros r Hr. unfold rows_plain in Hr.
  apply in_map_iff in Hr. destruct Hr as (m & <- & Hm).
  apply finditer_groups in Hm. destruct Hm as (a & w & b & gs & _ & Hl & Hg & _).
  assert (Hgs : exists wzh wen,
            (gs = [(Gen, wen); (Gzh, wzh)] \/ gs = [(Gzh, wzh); (Gen, wen)])
            /\ lang case_equiv false ZH wzh /\ lang case_equiv false EN wen).
  { cbn [In] in Hpat. destruct Hpat as [<- | [<- | [<- | [<- | []]]]].
    - apply (@glang_zh_en lparen [ws; rparen]) in Hl; [| reflexivity | reflexivity].
      destruct Hl as (wzh & wen & -> & H1 & H2). eauto 7.
    - apply (@glang_en_zh lparen [ws; rparen]) in Hl; [| reflexivity | reflexivity].
      destruct Hl as (wzh & wen & -> & H1 & H2). eauto 7.
    - apply (@glang_en_zh dash []) in Hl; [| reflexivity | reflexivity].
      destruct Hl as (wzh & wen & -> & H1 & H2). eauto 7.
    - apply (@glang_zh_en dash []) in Hl; [| reflexivity | reflexivity].
      destruct Hl as (wzh & wen & -> & H1 & H2). eauto 7. }
  destruct Hgs as (wzh & wen & Hgs & Hzh & Hen).
  apply lang_ZH in Hzh. destruct Hzh as [Hzh Hzs]. apply lang_EN in Hen.
  unfold pair_shape, en_of, zh_of. cbn [zh_canonical en_canonical abbr
    first_mention_style variant]. rewrite !Hg.
  destruct Hgs as [-> | ->]; cbn [lookup_word group_eqb]; rewrite Hzs;
    (split; [exact Hzh |]; split; [exact Hen |];
     split; [right; split; reflexivity | reflexivity]).
Qed.

(** The pairs of [parse_pdf_pairs], in both tools: the Chinese term is 2 to
    30 characters of the range 一 to 龥; the English term starts with an
    ASCII letter, holds ASCII letters, digits, hyphens and single spaces
    only, and has no outer blanks; the abbreviation is present exactly in
    the rows tagged "ZH(EN;ABBR)", where it is 2 to 11 letters, digits and
    hyphens starting with a letter; the variant is empty. *)
Theorem extracted_pairs_shape (text : str) :
  Forall pair_shape (parse_pdf_pairs case_equiv text)
  /\ Forall (fun r => pair_shape (fst r) /\ snd r = PDF_SOURCE)
            (parse_pdf_pairs_extract case_equiv text).
Proof.
  assert (Hplain : forall pat, In pat [pat2; pat3; pat4; pat5] ->
            forall r, In r (rows_plain case_equiv text pat) -> pair_shape r).
  { intros pat Hpat r Hr. pose proof (rows_plain_shape text Hpat) as H.
    rewrite Forall_forall in H. now apply H. }
  assert (Habbr : forall r, In r (rows_abbr case_equiv text pat1) -> pair_shape r).
  { intros r Hr. pose proof (rows_abbr_shape text) as H.
    rewrite Forall_forall in H. now apply H. }
  split; apply Forall_forall.
  - intros r Hr. unfold parse_pdf_pairs, drop_duplicates in Hr.
    apply drop_duplicates_from_in in Hr. destruct Hr as [Hr _].
    repeat (apply in_app_or in Hr; destruct Hr as [Hr | Hr]);
      [now apply Habbr | apply (Hplain pat2) | apply (Hplain pat3)];
      cbn [In]; auto.
  - intros r Hr. unfold parse_pdf_pairs_extract, drop_duplicates in Hr.
    apply drop_duplicates_from_in in Hr. destruct Hr as [Hr _].
    apply in_map_iff in Hr. destruct Hr as (t & <- & Ht). cbn [fst snd].
    split; [| reflexivity].
    repeat (apply in_app_or in Ht; destruct Ht as [Ht | Ht]);
      [now apply Habbr | apply (Hplain pat2) | apply (Hplain pat3)
       | apply (Hplain pat4) | apply (Hplain pat5)];
      cbn [In]; auto.
Qed.

End PairShape.

(** ** Every reported variant stands in the page *)

Section ScanSoundness.

Variable case_equiv : char -> char -> bool.

(** The text around a hit: up to [k] characters before it, the hit, up to
    [k] characters after it. *)
Lemma py_slice_around (a w b : str) (k : nat) :
  py_slice (a ++ w ++ b)
    (Z.max 0 (Z.of_nat (length a) - Z.of_nat k))
    (Z.of_nat (length a + length w) + Z.of_nat k)
  = skipn (length a - k) a ++ w ++ firstn k b.
Proof.
  unfold py_slice, clamp_index, slice. rewrite !length_app.
  destruct (Z.ltb_spec (Z.max 0 (Z.of_nat (length a) - Z.of_nat k)) 0) as [Hlt | _];
    [lia |].
  destruct (Z.ltb_spec (Z.of_nat (length a + length w) + Z.of_nat k) 0) as [Hlt | _];
    [lia |].
  replace (Z.to_nat (Z.min (Z.max 0 (Z.of_nat (length a) - Z.of_nat k))
                       (Z.of_nat (length a + (length w + length b)))))
    with (length a - k) by lia.
  replace (Z.to_nat (Z.min (Z.of_nat (length a + length w) + Z.of_nat k)
                       (Z.of_nat (length a + (length w + length b)))))
    with (length a + length w + Nat.min k (length b)) by lia.
  rewrite skipn_app.
  replace (length a - k - length a) with 0 by lia. cbn [skipn].
  rewrite firstn_app, length_skipn.
  rewrite firstn_all2 by (rewrite length_skipn; lia). f_equal.
  replace (length a + length w + Nat.min k (length b) - (length a - k)
           - (length a - (length a - k)))
    with (length w + Nat.min k (length b)) by lia.
  rewrite firstn_app, firstn_all2 by lia. f_equal.
  replace (length w + Nat.min k (length b) - length w) with (Nat.min k (length b))
    by lia.
  destruct (Nat.le_ge_cases k (length b)) as [Hk | Hk].
  - now rewrite Nat.min_l.
  - rewrite Nat.min_r by exact Hk. now rewrite !firstn_all2 by lia.
Qed.

(** A word of the fuzzy pattern of a token is a spelling of the token. *)
Lemma lang_fuzzy_spelling (T : str) :
  forall s, lang case_equiv true (join (map cjk_piece T)) s ->
            fuzzy_spelling case_equiv T s.
Proof.
  induction T as [| c T IH]; intros s H; cbn [map join fold_right] in H.
  - inversion H; subst. constructor.
  - inversion H as [| | | | r1 r2 w1 w2 H1 H2 | | |]; subst.
    apply IH in H2. unfold cjk_piece in H1.
    destruct (isspace c) eqn:Hc.
    + inversion H1 as [| | | p lo hi w Hw Hlo _ | | | |]; subst.
      apply fuzzy_blank; auto. intros ->. simpl in Hlo. lia.
    + destruct (is_cjk c) eqn:Hj.
      * inversion H1 as [| | | | r1 r2 u1 u2 Hx Hsp | | |]; subst.
        inversion Hx as [| c' x Hm | | | | | |]; subst.
        inversion Hsp as [| | | p lo hi w Hw _ _ | | | |]; subst.
        cbn [app]. now apply fuzzy_cjk.
      * destruct (char_eqb c hyphen) eqn:Hh.
        -- inversion H1 as [| | | | r1 r2 u1 u2 Hs1 Hrest | | |]; subst.
           inversion Hs1 as [| | | p lo hi w Hw _ _ | | | |]; subst.
           inversion Hrest as [| | | | r1 r2 u3 u4 Hx Hs2 | | |]; subst.
           inversion Hx as [| c' x Hm | | | | | |]; subst.
           inversion Hs2 as [| | | p lo hi w Hw2 _ _ | | | |]; subst.
           rewrite <- app_assoc. cbn [app]. now apply fuzzy_hyphen.
        -- inversion H1 as [| c' x Hm | | | | | |]; subst.
           cbn [app]. now apply fuzzy_char.
Qed.

Lemma in_load_patterns_inv (df : list term) (rx : regex) (v : str) (row : term) :
  In (rx, v, row) (load_patterns case_equiv df) ->
  In row df /\ In v (split_variants case_equiv (CStr (variant row)))
  /\ rx = cjk_fuzzy_pattern v.
Proof.
  unfold load_patterns. intros H. apply in_flat_map in H.
  destruct H as (row' & Hrow & H). apply in_map_iff in H.
  destruct H as (v' & Heq & Hv). inversion Heq; subst. auto.
Qed.

Lemma in_scan_from (pages : list extraction) (pats : list (regex * str * term))
    (h : hit) :
  forall pno,
    In h (scan_from case_equiv pno pages pats) ->
    exists i page,
      nth_error pages i = Some page
      /\ In h (page_hits case_equiv (pno + i)
                 (normalize_text case_equiv (extract_or_empty page)) pats).
Proof.
  induction pages as [| page pages IH]; intros pno H; cbn [scan_from] in H;
    [contradiction |].
  apply in_app_or in H. destruct H as [H | H].
  - exists 0, page. rewrite Nat.add_0_r. auto.
  - apply IH in H. destruct H as (i & q & Hq & H).
    exists (S i), q. rewrite <- plus_n_Sm. auto.
Qed.

(** [scan] reports no variant that is not there: every hit names a row of
    the table and one of the variants of that row, lies on a page of the
    document, and marks a piece of the normalised text of that page that
    spells the variant in the sense of [fuzzy_spelling]; its context is
    that piece with up to 60 characters of the page on either side. *)
Theorem scan_hits_are_occurrences (df : list term) (pages : list extraction) (h : hit) :
  In h (scan case_equiv pages (load_patterns case_equiv df)) ->
  In (h_row h) df
  /\ In (h_variant h) (split_variants case_equiv (CStr (variant (h_row h))))
  /\ exists page a s b,
       1 <= h_page h
       /\ nth_error pages (h_page h - 1) = Some page
       /\ normalize_text case_equiv (extract_or_empty page) = a ++ s ++ b
       /\ fuzzy_spelling case_equiv (strip (h_variant h)) s
       /\ h_context h = skipn (length a - 60) a ++ s ++ firstn 60 b.
Proof.
  unfold scan. intros H. apply in_scan_from in H.
  destruct H as (i & page & Hpage & H).
  unfold page_hits in H. apply in_flat_map in H.
  destruct H as ([[rx v] row] & Hpat & H). apply in_map_iff in H.
  destruct H as (m & <- & Hm). cbn [h_row h_variant h_page h_context].
  apply in_load_patterns_inv in Hpat. destruct Hpat as (Hrow & Hv & ->).
  split; [exact Hrow |]. split; [exact Hv |].
  apply finditer_word in Hm. destruct Hm as (a & s & b & Heq & Hl & Hs & He).
  exists page, a, s, b. split; [lia |].
  split; [now replace (1 + i - 1) with i by lia |].
  split; [exact Heq |]. split; [now apply lang_fuzzy_spelling |].
  unfold context60. rewrite Heq, Hs, He.
  change 60%Z with (Z.of_nat 60). apply py_slice_around.
Qed.

End ScanSoundness.

Lemma scan_hits_are_occurrences_witness :
  In (h_row example_hit) [typo_row]
  /\ In (h_variant example_hit)
        (split_variants ascii_case_equiv (CStr (variant (h_row example_hit))))
  /\ exists page a s b,
       1 <= h_page example_hit
       /\ nth_error [typo_page; hyphen_page] (h_page example_hit - 1) = Some page
       /\ normalize_text ascii_case_equiv (extract_or_empty page) = a ++ s ++ b
       /\ fuzzy_spelling ascii_case_equiv (strip (h_variant example_hit)) s
       /\ h_context example_hit = skipn (length a - 60) a ++ s ++ firstn 60 b.
Proof.
  apply (@scan_hits_are_occurrences ascii_case_equiv [typo_row]
           [typo_page; hyphen_page] example_hit).
  vm_compute. right. left. reflexivity.
Defined.

(** ** The place recorded with an extracted pair *)

Section PlaceFacts.

Variable case_equiv : char -> char -> bool.

(** The word a group holds is a piece of the word of the pattern. *)
Lemma glang_group_inside (ic : bool) (r : regex) (w : str) (gs : list (group * str)) :
  glang case_equiv ic r w gs ->
  forall g x, In (g, x) gs -> exists pre post, w = pre ++ x ++ post.
Proof.
  induction 1 as [| | | | r1 r2 w1 w2 g1 g2 _ IH1 _ IH2 | r1 r2 w gs _ IH
                  | r1 r2 w gs _ IH | g r w gs _ IH]; intros g0 y Hin;
    try contradiction.
  - apply in_app_or in Hin. destruct Hin as [Hin | Hin].
    + destruct (IH2 _ _ Hin) as (pre & post & ->).
      exists (w1 ++ pre), post. now rewrite <- app_assoc.
    + destruct (IH1 _ _ Hin) as (pre & post & ->).
      exists pre, (post ++ w2). now rewrite <- !app_assoc.
  - now apply (IH g0).
  - now apply (IH g0).
  - destruct Hin as [Heq | Hin]; [| now apply (IH g0)].
    inversion Heq; subst. exists [], []. cbn [app]. now rewrite app_nil_r.
Qed.

(** A hit of one of the five patterns: the text it spans holds the Chinese
    term as extracted. *)
Lemma pair_hit_span (text : str) (pat : regex) (m : rmatch) :
  In pat [pat1; pat2; pat3; pat4; pat5] ->
  In m (finditer case_equiv false pat text) ->
  exists a w b,
    text = a ++ w ++ b /\ m_start m = length a /\ m_end m = length a + length w
    /\ exists pre post, w = pre ++ zh_of text m ++ post.
Proof.
  intros Hpat Hm. apply finditer_groups in Hm.
  destruct Hm as (a & w & b & gs & Htext & Hl & Hg & Hs & He).
  exists a, w, b. split; [exact Htext |]. split; [exact Hs |]. split; [exact He |].
  assert (Hzh : exists wzh, In (Gzh, wzh) gs /\ lookup_word Gzh gs = wzh
                            /\ lang case_equiv false ZH wzh).
  { cbn [In] in Hpat. destruct Hpat as [<- | [<- | [<- | [<- | [<- | []]]]]].
    - destruct (glang_pat1 Hl) as (wzh & wen & wab & -> & H1 & _).
      exists wzh. cbn [In lookup_word group_eqb]. auto.
    - destruct (@glang_zh_en case_equiv lparen [ws; rparen] w gs eq_refl eq_refl Hl)
        as (wzh & wen & -> & H1 & _).
      exists wzh. cbn [In lookup_word group_eqb]. auto.
    - destruct (@glang_en_zh case_equiv lparen [ws; rparen] w gs eq_refl eq_refl Hl)
        as (wzh & wen & -> & H1 & _).
      exists wzh. cbn [In lookup_word group_eqb]. auto.
    - destruct (@glang_en_zh case_equiv dash [] w gs eq_refl eq_refl Hl)
        as (wzh & wen & -> & H1 & _).
      exists wzh. cbn [In lookup_word group_eqb]. auto.
    - destruct (@glang_zh_en case_equiv dash [] w gs eq_refl eq_refl Hl)
        as (wzh & wen & -> & H1 & _).
      exists wzh. cbn [In lookup_word group_eqb]. auto. }
  destruct Hzh as (wzh & Hin & Hlook & Hlang).
  apply lang_ZH in Hlang. destruct Hlang as [_ Hstrip].
  unfold zh_of. rewrite Hg, Hlook, Hstrip.
  exact (glang_group_inside Hl _ _ Hin).
Qed.

Lemma in_pairs_from (pages : list str) (x : term * place) :
  forall n,
    In x (pairs_from case_equiv n pages) ->
    exists i text, nth_error pages i = Some text
                   /\ In x (page_pairs case_equiv (n + i) text).
Proof.
  induction pages as [| text pages IH]; intros n H; cbn [pairs_from] in H;
    [contradiction |].
  apply in_app_or in H. destruct H as [H | H].
  - exists 0, text. rewrite Nat.add_0_r. auto.
  - apply IH in H. destruct H as (i & t & Ht & H).
    exists (S i), t. rewrite <- plus_n_Sm. auto.
Qed.

Lemma page_pairs_place (n : nat) (text : str) (x : term * place) :
  In x (page_pairs case_equiv n text) ->
  exists a w b,
    text = a ++ w ++ b
    /\ p_position (snd x) = length a
    /\ p_context (snd x) = skipn (length a - 50) a ++ w ++ firstn 50 b
    /\ exists pre post, w = pre ++ zh_canonical (fst x) ++ post.
Proof.
  assert (Hhit : forall pat m,
            In pat [pat1; pat2; pat3; pat4; pat5] ->
            In m (finditer case_equiv false pat text) ->
            exists a w b,
              text = a ++ w ++ b /\ m_start m = length a
              /\ context50 text m = skipn (length a - 50) a ++ w ++ firstn 50 b
              /\ exists pre post, w = pre ++ zh_of text m ++ post).
  { intros pat m Hpat Hm.
    destruct (@pair_hit_span text pat m Hpat Hm) as (a & w & b & Htext & Hs & He & Hzh).
    exists a, w, b. split; [exact Htext |]. split; [exact Hs |].
    split; [| exact Hzh].
    unfold context50. rewrite Hs, He. rewrite Htext at 1.
    change 50%Z with (Z.of_nat 50). apply py_slice_around. }
  unfold page_pairs, placed_abbr, placed_plain. intros H.
  repeat (apply in_app_or in H; destruct H as [H | H]);
    apply in_map_iff in H; destruct H as (m & <- & Hm);
    cbn [fst snd p_position p_context zh_canonical];
    eapply Hhit; try exact Hm; cbn [In]; auto 6.
Qed.

(** The rows of [parse_pdf_pairs_with_location] have the shape of the rows
    of [parse_pdf_pairs], and the place of a row points at the pair: the
    page is a page of the document, the position is where a match starts in
    the text of that page, the context is the matched text with up to 50
    characters of the page on either side, and the matched text holds the
    Chinese term of the row. *)
Theorem extracted_place_points_at_pair (pages : list str) (r : term * place * str) :
  In r (parse_pdf_pairs_with_location case_equiv pages) ->
  pair_shape (fst (fst r))
  /\ exists text a w b,
       1 <= p_page (snd (fst r))
       /\ nth_error pages (p_page (snd (fst r)) - 1) = Some text
       /\ text = a ++ w ++ b
       /\ p_position (snd (fst r)) = length a
       /\ p_context (snd (fst r)) = skipn (length a - 50) a ++ w ++ firstn 50 b
       /\ exists pre post, w = pre ++ zh_canonical (fst (fst r)) ++ post.
Proof.
  unfold parse_pdf_pairs_with_location, drop_duplicates. intros H.
  apply drop_duplicates_from_in in H. destruct H as [H _].
  apply in_map_iff in H. destruct H as (x & <- & Hx). cbn [fst snd].
  apply in_pairs_from in Hx. destruct Hx as (i & text & Hpage & Hx).
  split.
  - assert (Hin : In (fst x) (map fst (page_pairs case_equiv (1 + i) text)))
      by now apply in_map.
    rewrite page_pairs_terms in Hin.
    pose proof (rows_abbr_shape case_equiv text) as Habbr.
    rewrite Forall_forall in Habbr.
    assert (Hplain : forall pat, In pat [pat2; pat3; pat4; pat5] ->
              forall t, In t (rows_plain case_equiv text pat) -> pair_shape t).
    { intros pat Hpat t Ht. pose proof (@rows_plain_shape case_equiv text pat Hpat) as Hp.
      rewrite Forall_forall in Hp. now apply Hp. }
    repeat (apply in_app_or in Hin; destruct Hin as [Hin | Hin]);
      [now apply Habbr | apply (Hplain pat2) | apply (Hplain pat3)
       | apply (Hplain pat4) | apply (Hplain pat5)];
      cbn [In]; auto.
  - pose proof Hx as Hn. apply page_pairs_page in Hn.
    destruct (@page_pairs_place (1 + i) text x Hx)
      as (a & w & b & Htext & Hpos & Hctx & Hzh).
    exists text, a, w, b. rewrite Hn.
    split; [lia |]. split; [now replace (1 + i - 1) with i by lia |]. auto.
Qed.

End PlaceFacts.

Lemma extracted_place_points_at_pair_witness :
  pair_shape (fst (fst example_placed))
  /\ exists text a w b,
       1 <= p_page (snd (fst example_placed))
       /\ nth_error [example_pair_page] (p_page (snd (fst example_placed)) - 1)
          = Some text
       /\ text = a ++ w ++ b
       /\ p_position (snd (fst example_placed)) = length a
       /\ p_context (snd (fst example_placed))
          = skipn (length a - 50) a ++ w ++ firstn 50 b
       /\ exists pre post, w = pre ++ zh_canonical (fst (fst example_placed)) ++ post.
Proof.
  apply (@extracted_place_points_at_pair ascii_case_equiv [example_pair_page]
           example_placed).
  vm_compute. left. reflexivity.
Defined.

(** ** Variant cells and the patterns they give *)

Section VariantPatterns.

Variable case_equiv : char -> char -> bool.




End VariantPatterns.

